(** * fix_warnings.py: the warning-fixing script, embedded and verified

    The script runs [cargo check], keeps the output lines that contain
    [warning:], collects the file paths named after a [-->] marker and
    rewrites each such file with two textual passes:
    [fix_unused_imports] comments import statements out and
    [fix_unused_variables] prefixes identifiers with an underscore.

    Modelling choices.
    - A Python [str] is a list of Unicode code points ([N]).  ASCII
      literals of the source are written [txt "..."].
    - [re] is modelled by a small backtracking matcher over the pattern
      constructs the script uses: literal characters (what [re.escape]
      produces), greedy [[^c]+] and [[^c]*], one capturing group and the
      zero-width assertion [\b].
    - [\b] depends on Python's Unicode database; the classification of
      the non-ASCII code points is a section variable ([unicode_alnum]).
    - The file system maps a path to a file's text (as text-mode I/O with
      UTF-8 presents it) or to a directory; every read, write, print and
      subprocess invocation is recorded in a log.  Files are taken to be
      readable, writable and valid UTF-8, and printing never fails; the
      exceptions that remain are the ones of the template compiler and
      of opening a directory.

    Layout: the embedding ([Text], [Re], [Template], [World],
    [FixWarnings]), the definitions the statements use ([Spec]), the
    lemmas, and the properties of the script ([Claims]). *)

From Stdlib Require Import NArith String Ascii Lia.
From stdpp Require Import base option list gmap.

Set Default Proof Using "Type".
Local Open Scope N_scope.
Local Open Scope nat_scope.

(** ** Text *)

Module Text.

(** A Python [str]: a sequence of code points. *)
Definition char := N.
Definition str := list char.

(** The code points of an ASCII literal of the source. *)
Definition txt (s : string) : str :=
  map N_of_ascii (list_ascii_of_string s).

(** [startswith p s]: [s.startswith(p)]. *)
Fixpoint startswith (p s : str) : bool :=
  match p, s with
  | [], _ => true
  | _ :: _, [] => false
  | a :: p', b :: s' => N.eqb a b && startswith p' s'
  end.

(** [contains needle hay]: Python's [needle in hay] on strings. *)
Fixpoint contains (needle hay : str) : bool :=
  startswith needle hay ||
  match hay with
  | [] => false
  | _ :: hay' => contains needle hay'
  end.

(** [s.split('\n')]: never empty; [''.split('\n') = ['']]. *)
Fixpoint split_lines (s : str) : list str :=
  match s with
  | [] => [[]]
  | c :: s' =>
      if N.eqb c 10%N then [] :: split_lines s'
      else match split_lines s' with
           | l :: ls => (c :: l) :: ls
           | [] => [[c]]
           end
  end.

(** [Py_UNICODE_ISSPACE], the characters [str.strip()] removes. *)
Definition isspace (c : char) : bool :=
  ((9 <=? c) && (c <=? 13) || (28 <=? c) && (c <=? 32)
   || (c =? 133) || (c =? 160) || (c =? 5760)
   || (8192 <=? c) && (c <=? 8202)
   || (c =? 8232) || (c =? 8233) || (c =? 8239) || (c =? 8287)
   || (c =? 12288))%N.

Fixpoint lstrip (s : str) : str :=
  match s with
  | c :: s' => if isspace c then lstrip s' else s
  | [] => []
  end.

(** [s.strip()]. *)
Definition strip (s : str) : str := rev (lstrip (rev (lstrip s))).

End Text.
Export Text.

(** ** Regular expressions *)

Module Re.

(** The result of the capturing group so far. *)
Inductive capture :=
| Unopened
| Capturing (acc : str)
| Captured (g : str).

(** Pattern items.  [Look f] is a zero-width assertion on the character
    before the cursor and the text after it. *)
Inductive atom :=
| Chr (c : char)
| NotPlus (c : char)
| NotStar (c : char)
| GroupOpen
| GroupClose
| Look (f : option char -> str -> bool).

Definition pattern := list atom.

(** [re.escape(s)] compiled: every character of [s] matches itself. *)
Definition escape (s : str) : pattern := map Chr s.

Definition feed (k : capture) (x : char) : capture :=
  match k with
  | Capturing acc => Capturing (acc ++ [x])
  | _ => k
  end.

Definition close (k : capture) : capture :=
  match k with
  | Capturing acc => Captured acc
  | _ => k
  end.

(** [m.group(1)]; the group of every pattern below is mandatory, so a
    match always has one. *)
Definition group1 (k : capture) : str :=
  match k with
  | Captured g => g
  | _ => []
  end.

Definition cont := option char -> str -> nat -> capture -> option (nat * capture).

(** Greedy repetition of [[^c]]: take as many characters as possible,
    give them back one by one while the rest of the pattern fails. *)
Fixpoint greedy (c : char) (rest : cont) (prev : option char) (s : str)
    (n : nat) (k : capture) : option (nat * capture) :=
  match s with
  | x :: s' =>
      if N.eqb x c then rest prev s n k
      else match greedy c rest (Some x) s' (S n) (feed k x) with
           | Some r => Some r
           | None => rest prev s n k
           end
  | [] => rest prev s n k
  end.

(** [exec p prev s n k]: match [p] at the cursor ([prev] before it, [s]
    after it), [n] characters into the match; the result is the length of
    the match and the group. *)
Fixpoint exec (p : pattern) : cont :=
  match p with
  | [] => fun _ _ n k => Some (n, k)
  | Chr c :: p' => fun _ s n k =>
      match s with
      | x :: s' => if N.eqb x c then exec p' (Some x) s' (S n) (feed k x) else None
      | [] => None
      end
  | NotPlus c :: p' => fun _ s n k =>
      match s with
      | x :: s' =>
          if N.eqb x c then None
          else greedy c (exec p') (Some x) s' (S n) (feed k x)
      | [] => None
      end
  | NotStar c :: p' => greedy c (exec p')
  | GroupOpen :: p' => fun prev s n _ => exec p' prev s n (Capturing [])
  | GroupClose :: p' => fun prev s n k => exec p' prev s n (close k)
  | Look f :: p' => fun prev s n k =>
      if f prev s then exec p' prev s n k else None
  end.

(** A match at the cursor. *)
Definition match_at (p : pattern) (prev : option char) (s : str) : option (nat * capture) :=
  exec p prev s 0 Unopened.

(** [re.search(p, s)]: the leftmost match. *)
Fixpoint search_from (p : pattern) (prev : option char) (s : str) : option capture :=
  match match_at p prev s with
  | Some (_, k) => Some k
  | None =>
      match s with
      | x :: s' => search_from p (Some x) s'
      | [] => None
      end
  end.

Definition search (p : pattern) (s : str) : option capture := search_from p None s.

(** [re.sub(p, repl, s)] with a callable [repl], which receives the
    matched text and the group.  [skip] counts the characters of the
    current match still to be passed over.  (An empty match, which no
    pattern of the script has, is replaced and the scan moves on by one
    character.) *)
Fixpoint sub_from (p : pattern) (repl : str -> capture -> str)
    (prev : option char) (s : str) (skip : nat) : str :=
  match s with
  | [] =>
      match match_at p prev [] with
      | Some (_, k) => repl [] k
      | None => []
      end
  | x :: s' =>
      match skip with
      | S j => sub_from p repl (Some x) s' j
      | O =>
          match match_at p prev s with
          | Some (n, k) =>
              match n with
              | O => repl [] k ++ x :: sub_from p repl (Some x) s' 0
              | S j => repl (take n s) k ++ sub_from p repl (Some x) s' j
              end
          | None => x :: sub_from p repl (Some x) s' 0
          end
      end
  end.

Definition sub (p : pattern) (repl : str -> capture -> str) (s : str) : str :=
  sub_from p repl None s 0.

End Re.
Export Re.

(** ** Replacement templates

    [re.sub] with a string replacement that contains a backslash hands it
    to the template compiler ([re._parser.parse_template], here as of
    CPython 3.12).  The patterns that take a string replacement have no
    group, so a template can only refer to group 0, the whole match. *)

Module Template.

Inductive piece :=
| Lit (c : char)
| WholeMatch.

Definition isdigit (c : char) : bool := ((48 <=? c) && (c <=? 57))%N.
Definition isoct (c : char) : bool := ((48 <=? c) && (c <=? 55))%N.
Definition isletter (c : char) : bool :=
  ((65 <=? c) && (c <=? 90) || (97 <=? c) && (c <=? 122))%N.

(** [ESCAPES]: [\a \b \f \n \r \t \v \\]. *)
Definition escapes (c : char) : option char :=
  if N.eqb c 97 then Some 7%N
  else if N.eqb c 98 then Some 8%N
  else if N.eqb c 102 then Some 12%N
  else if N.eqb c 110 then Some 10%N
  else if N.eqb c 114 then Some 13%N
  else if N.eqb c 116 then Some 9%N
  else if N.eqb c 118 then Some 11%N
  else if N.eqb c 92 then Some 92%N
  else None.

Definition lit_then (c : char) (r : option (list piece)) : option (list piece) :=
  match r with
  | Some ps => Some (Lit c :: ps)
  | None => None
  end.

(** [None] stands for the exception the compiler raises ([re.error], or
    [IndexError] for an unknown group name). *)
Fixpoint parse_template (s : str) : option (list piece) :=
  match s with
  | [] => Some []
  | c :: s1 =>
      if negb (N.eqb c 92) then lit_then c (parse_template s1)
      else
        match s1 with
        | [] => None
        | e :: s2 =>
            if N.eqb e 103 then
              (* \g<name>: only a decimal name of value 0 names a group *)
              match s2 with
              | lt :: s3 =>
                  if N.eqb lt 60 then
                    (fix name (zeros nonempty : bool) (t : str) : option (list piece) :=
                       match t with
                       | [] => None
                       | x :: t' =>
                           if N.eqb x 62 then
                             if zeros && nonempty then
                               match parse_template t' with
                               | Some ps => Some (WholeMatch :: ps)
                               | None => None
                               end
                             else None
                           else name (zeros && N.eqb x 48) true t'
                       end) true false s3
                  else None
              | [] => None
              end
            else if N.eqb e 48 then
              (* \0, \0o, \0oo: an octal escape *)
              match s2 with
              | d1 :: s3 =>
                  if isoct d1 then
                    match s3 with
                    | d2 :: s4 =>
                        if isoct d2
                        then lit_then (N.land ((d1 - 48) * 8 + (d2 - 48)) 255)%N (parse_template s4)
                        else lit_then (d1 - 48)%N (parse_template s3)
                    | [] => lit_then (d1 - 48)%N (parse_template s3)
                    end
                  else lit_then 0%N (parse_template s2)
              | [] => lit_then 0%N (parse_template s2)
              end
            else if isdigit e then
              (* three octal digits are a character, anything else a
                 reference to a group the pattern does not have *)
              match s2 with
              | d2 :: d3 :: s4 =>
                  if isoct e && isoct d2 && isoct d3 then
                    let v := ((e - 48) * 64 + (d2 - 48) * 8 + (d3 - 48))%N in
                    if (255 <? v)%N then None else lit_then v (parse_template s4)
                  else None
              | _ => None
              end
            else
              match escapes e with
              | Some x => lit_then x (parse_template s2)
              | None =>
                  if isletter e then None
                  else lit_then c (lit_then e (parse_template s2))
              end
        end
  end.

Definition expand_template (t : list piece) (m : str) : str :=
  concat (map (fun p => match p with Lit c => [c] | WholeMatch => m end) t).

(** [re.sub(p, repl, s)] with a string [repl]: literal when [repl] has
    no backslash, compiled (before any matching) otherwise. *)
Definition sub_template (p : pattern) (repl : str) (s : str) : option str :=
  if contains [92%N] repl then
    match parse_template repl with
    | Some t => Some (sub p (fun m _ => expand_template t m) s)
    | None => None
    end
  else Some (sub p (fun _ _ => repl) s).

End Template.
Export Template.

(** ** The world the script runs in *)

Module World.

(** What a path names. *)
Inductive entry :=
| File (content : str)
| Directory.

(** The result of [subprocess.run(['cargo', 'check'], ...)]: it raises
    (the tool is missing, the output does not decode, ...) or it returns
    the two captured streams. *)
Inductive spawn_result :=
| SpawnFails
| Completed (stdout stderr : str).

(** The lines the script prints, by their variable parts. *)
Inductive message :=
| MsgStart
| MsgSpawnError
| MsgFound (n : nat)
| MsgFiles (n : nat)
| MsgFixing (file_path : str)
| MsgDone
| MsgRecheck
| MsgRemaining (n : nat).

Inductive event :=
| EvSpawn
| EvPrint (m : message)
| EvRead (file_path : str)
| EvWrite (file_path : str) (content : str).

Inductive exn :=
| TemplateError
| IsADirectoryError.

(** [cargo n] is what the [n]-th invocation of the checker does. *)
Record world := World {
  files : gmap str entry;
  cargo : nat -> spawn_result;
  spawned : nat;
  log : list event
}.

Inductive result (A : Type) :=
| Ret (a : A)
| Raise (e : exn).
Arguments Ret {A} a.
Arguments Raise {A} e.

(** Computations: a result or an exception, and the world afterwards. *)
Definition M (A : Type) := world -> result A * world.

Definition ret {A} (a : A) : M A := fun w => (Ret a, w).
Definition bind {A B} (m : M A) (f : A -> M B) : M B :=
  fun w =>
    match m w with
    | (Ret a, w') => f a w'
    | (Raise e, w') => (Raise e, w')
    end.

Definition emit (e : event) : M unit :=
  fun w => (Ret tt, World (files w) (cargo w) (spawned w) (log w ++ [e])).

Definition print (m : message) : M unit := emit (EvPrint m).

(** [os.path.exists]. *)
Definition path_exists (file_path : str) : M bool :=
  fun w => (Ret (bool_decide (is_Some (files w !! file_path))), w).

(** [with open(file_path, 'r', encoding='utf-8') as f: f.read()]. *)
Definition read_text (file_path : str) : M str :=
  fun w =>
    match files w !! file_path with
    | Some (File content) =>
        (Ret content, World (files w) (cargo w) (spawned w) (log w ++ [EvRead file_path]))
    | _ => (Raise IsADirectoryError, w)
    end.

(** [with open(file_path, 'w', encoding='utf-8') as f: f.write(content)]. *)
Definition write_text (file_path : str) (content : str) : M unit :=
  fun w =>
    match files w !! file_path with
    | Some Directory => (Raise IsADirectoryError, w)
    | _ =>
        (Ret tt, World (<[file_path := File content]> (files w)) (cargo w) (spawned w)
                   (log w ++ [EvWrite file_path content]))
    end.

(** [subprocess.run]. *)
Definition subprocess_run : M spawn_result :=
  fun w => (Ret (cargo w (spawned w)),
            World (files w) (cargo w) (S (spawned w)) (log w ++ [EvSpawn])).

(** A computation that touches nothing of the world. *)
Definition lift {A} (r : result A) : M A := fun w => (r, w).

(** A [for] loop that updates a variable and touches nothing else; an
    exception leaves the loop. *)
Fixpoint fold_for {A B} (body : B -> A -> result B) (l : list A) (b : B) : result B :=
  match l with
  | [] => Ret b
  | a :: l' =>
      match body b a with
      | Ret b' => fold_for body l' b'
      | Raise e => Raise e
      end
  end.

(** A [for] loop. *)
Fixpoint for_each {A} (body : A -> M unit) (l : list A) : M unit :=
  match l with
  | [] => ret tt
  | a :: l' => bind (body a) (fun _ => for_each body l')
  end.

Definition is_fs_event (e : event) : bool :=
  match e with
  | EvRead _ | EvWrite _ _ => true
  | _ => false
  end.

End World.
Export World.

Notation "x <- m ;; k" := (bind m (fun x => k))
  (at level 100, m at next level, right associativity).
Notation "m ;;; k" := (bind m (fun _ => k))
  (at level 100, right associativity).

(** ** The script *)

Module FixWarnings.

(** [run_cargo_check] (lines 10-18). *)
Definition run_cargo_check : M (str * str) :=
  r <- subprocess_run ;;
  match r with
  | Completed stdout stderr => ret (stdout, stderr)
  | SpawnFails => print MsgSpawnError ;;; ret ([], [])
  end.

(** [[w for w in warnings if file_path in w and marker in w]]
    (lines 29 and 58, which differ in the marker). *)
Definition file_warnings (marker file_path : str) (warnings : list str) : list str :=
  filter (fun w => contains file_path w && contains marker w = true) warnings.

(** [r"unused import: `([^`]+)`"]. *)
Definition unused_import_re : pattern :=
  escape (txt "unused import: `") ++ [GroupOpen; NotPlus 96%N; GroupClose; Chr 96%N].

(** [f"use {re.escape(import_name)};"]. *)
Definition use_re (import_name : str) : pattern :=
  escape (txt "use ") ++ escape import_name ++ escape (txt ";").

(** [f"use ([^;]+{{{re.escape(import_name)}[^}}]*}});"], that is
    [use ([^;]+{NAME[^}]*});]. *)
Definition use_braces_re (import_name : str) : pattern :=
  escape (txt "use ") ++
  [GroupOpen; NotPlus 59%N; Chr 123%N] ++ escape import_name ++
  [NotStar 125%N; Chr 125%N; GroupClose; Chr 59%N].

(** The body of the loop of [fix_unused_imports] (lines 32-44). *)
Definition comment_import (content warning : str) : result str :=
  match search unused_import_re warning with
  | Some m =>
      let import_name := group1 m in
      match sub_template (use_re import_name)
                         (txt "// use " ++ import_name ++ txt ";") content with
      | Some content =>
          Ret (sub (use_braces_re import_name)
                   (fun _ m => txt "// use " ++ group1 m ++ txt ";") content)
      | None => Raise TemplateError
      end
  | None => Ret content
  end.

(** [fix_unused_imports] (lines 20-47). *)
Definition fix_unused_imports (file_path : str) (warnings : list str) : M unit :=
  e <- path_exists file_path ;;
  if negb e then ret tt
  else
    content <- read_text file_path ;;
    content <- lift (fold_for comment_import
                       (file_warnings (txt "unused import") file_path warnings) content) ;;
    write_text file_path content.

(** [--> ([^:]+):]. *)
Definition location_re : pattern :=
  escape (txt "--> ") ++ [GroupOpen; NotPlus 58%N; GroupClose; Chr 58%N].

(** The loop that collects [files_to_fix] (lines 86-91). *)
Definition files_to_fix (warnings : list str) : gset str :=
  foldl (fun acc warning =>
           if contains (txt "-->") warning then
             match search location_re warning with
             | Some file_match => acc ∪ {[ group1 file_match ]}
             | None => acc
             end
           else acc) ∅ warnings.

(** [[line.strip() for line in all_output.split('\n') if 'warning:' in line]]. *)
Definition warning_lines (all_output : str) : list str :=
  map strip (filter (fun line => contains (txt "warning:") line = true)
                    (split_lines all_output)).

Section UnicodeDatabase.

(** [str.isalnum] on the code points from 128 on. *)
Variable unicode_alnum : char -> bool.

(** [\w] on a [str] pattern: alphanumeric or underscore. *)
Definition is_word (c : char) : bool :=
  if (c <? 128)%N
  then isdigit c || isletter c || N.eqb c 95
  else unicode_alnum c.

Definition word_before (prev : option char) : bool :=
  match prev with
  | Some c => is_word c
  | None => false
  end.

Definition word_after (s : str) : bool :=
  match s with
  | c :: _ => is_word c
  | [] => false
  end.

(** [\b]: exactly one side of the cursor is a word character. *)
Definition word_boundary : atom :=
  Look (fun prev s => xorb (word_before prev) (word_after s)).

(** [r"unused variable: `([^`]+)`"]. *)
Definition unused_variable_re : pattern :=
  escape (txt "unused variable: `") ++ [GroupOpen; NotPlus 96%N; GroupClose; Chr 96%N].

(** [f"\\b{re.escape(var_name)}\\b"]. *)
Definition whole_word_re (var_name : str) : pattern :=
  [word_boundary] ++ escape var_name ++ [word_boundary].

(** The body of the loop of [fix_unused_variables] (lines 61-68). *)
Definition prefix_variable (content warning : str) : result str :=
  match search unused_variable_re warning with
  | Some m =>
      let var_name := group1 m in
      match sub_template (whole_word_re var_name) (txt "_" ++ var_name) content with
      | Some content => Ret content
      | None => Raise TemplateError
      end
  | None => Ret content
  end.

(** [fix_unused_variables] (lines 49-71). *)
Definition fix_unused_variables (file_path : str) (warnings : list str) : M unit :=
  e <- path_exists file_path ;;
  if negb e then ret tt
  else
    content <- read_text file_path ;;
    content <- lift (fold_for prefix_variable
                       (file_warnings (txt "unused variable") file_path warnings) content) ;;
    write_text file_path content.

(** [main] (lines 73-107).  A Python set is iterated in an unspecified
    order; the model takes the order of [elements]. *)
Definition main : M unit :=
  print MsgStart ;;;
  out <- run_cargo_check ;;
  let all_output := out.1 ++ out.2 in
  let warnings := warning_lines all_output in
  print (MsgFound (length warnings)) ;;;
  let files_to_fix := files_to_fix warnings in
  print (MsgFiles (size files_to_fix)) ;;;
  for_each (fun file_path =>
              print (MsgFixing file_path) ;;;
              fix_unused_imports file_path warnings ;;;
              fix_unused_variables file_path warnings)
           (elements files_to_fix) ;;;
  print MsgDone ;;;
  print MsgRecheck ;;;
  out <- run_cargo_check ;;
  let new_warnings :=
    filter (fun line => contains (txt "warning:") line = true)
           (split_lines (out.1 ++ out.2)) in
  print (MsgRemaining (length new_warnings)).

End UnicodeDatabase.

End FixWarnings.
Export FixWarnings.

(** ** Specification-level definitions *)

Module Spec.

(** [needle] occurs in [hay]. *)
Definition substring (needle hay : str) : Prop :=
  exists pre post, hay = pre ++ needle ++ post.

(** [sep.join(pieces)]. *)
Fixpoint join (sep : str) (pieces : list str) : str :=
  match pieces with
  | [] => []
  | a :: rest =>
      match rest with
      | [] => a
      | _ :: _ => a ++ sep ++ join sep rest
      end
  end.

(** [l`g`] somewhere in [s], with [g] a non-empty text without backtick. *)
Definition quoted_after (l s : str) : Prop :=
  exists pre g post, s = pre ++ l ++ [96%N] ++ g ++ [96%N] ++ post /\ g ≠ [] /\ 96%N ∉ g.

(** The symbol a warning reports as an unused import, if any. *)
Definition reported_import (warning : str) : option str :=
  group1 <$> search unused_import_re warning.

(** The identifier a warning reports as an unused variable, if any. *)
Definition reported_variable (warning : str) : option str :=
  group1 <$> search unused_variable_re warning.

Section Rename.

Variable unicode_alnum : char -> bool.

(** The specification of the renaming, by identifiers: the text is read
    from left to right, [word] is the identifier read so far; an
    identifier is complete at the first character that is not a word
    character, and it is renamed when it is exactly [name]. *)
Definition rename_word (name word : str) : str :=
  if bool_decide (word = name) then txt "_" ++ name else word.

Fixpoint rename_whole_words_from (name word s : str) : str :=
  match s with
  | [] => rename_word name word
  | c :: s' =>
      if is_word unicode_alnum c then rename_whole_words_from name (word ++ [c]) s'
      else rename_word name word ++ c :: rename_whole_words_from name [] s'
  end.

Definition rename_whole_words (name s : str) : str :=
  rename_whole_words_from name [] s.

(** The text after an identifier, renamed: empty, or a separator and
    what follows it. *)
Definition after_word (name rest : str) : str :=
  match rest with
  | [] => []
  | y :: r => y :: rename_whole_words name r
  end.

End Rename.

(** The last character of [m], or [prev] when [m] is empty: the
    character that stands before the cursor once [m] has been read. *)
Definition before (prev : option char) (m : str) : option char :=
  match last m with
  | Some c => Some c
  | None => prev
  end.

(** The group after the characters of [m] have been read. *)
Definition feed_all (k : capture) (m : str) : capture := foldl feed k m.

(** Both passes read the file, run a loop over the selected warnings
    and write the file back. *)
Definition patch (marker : str) (body : str -> str -> result str)
    (file_path : str) (warnings : list str) : M unit :=
  e <- path_exists file_path ;;
  if negb e then ret tt
  else
    content <- read_text file_path ;;
    content <- lift (fold_for body (file_warnings marker file_path warnings) content) ;;
    write_text file_path content.

(** A file with the given content, in an otherwise empty world whose
    checker cannot be spawned. *)
Definition on_disk (file_path content : str) : world :=
  World {[ file_path := File content ]} (fun _ => SpawnFails) 0 [].

(** What a path names after a computation. *)
Definition content_after {A} (r : result A * world) (file_path : str) : option entry :=
  files r.2 !! file_path.

(** Example inputs. *)
Definition main_rs : str := txt "src/main.rs".
Definition unused_foo_bar : str :=
  txt "warning: unused import: `foo::Bar` --> src/main.rs:1:5".
Definition unused_io : str :=
  txt "warning: unused import: `io` --> src/main.rs:1:5".
Definition unused_count : str :=
  txt "warning: unused variable: `count` --> src/main.rs:2:9".
Definition other_warning : str :=
  txt "warning: function `f` is never used --> src/main.rs:7:4".
Definition unquoted_warning : str :=
  txt "warning: unused import and unused variable in src/main.rs".
Definition ascii_only : char -> bool := fun _ => false.

(** The loop bodies on a warning that reports [name]. *)
Definition comment_out (name content : str) : result str :=
  comment_import content (txt "unused import: `" ++ name ++ txt "`").

Definition prefix (name content : str) : result str :=
  prefix_variable ascii_only content (txt "unused variable: `" ++ name ++ txt "`").

(** More example inputs. *)
Definition bad_import : str := txt "warning: unused import: `a\1` --> src/main.rs:1:5".
Definition bad_variable : str := txt "warning: unused variable: `a\1` --> src/main.rs:1:5".
Definition unused_total : str :=
  txt "warning: unused variable: `total` --> src/main.rs:3:9".

(** What [main] reads: the two streams of the checker, or nothing when
    it could not be spawned. *)
Definition checker_output (r : spawn_result) : str :=
  match r with
  | Completed stdout stderr => stdout ++ stderr
  | SpawnFails => []
  end.

(** The path that an event of the log opens, if it opens one. *)
Definition opens (e : event) : option str :=
  match e with
  | EvRead p | EvWrite p _ => Some p
  | _ => None
  end.

(** A computation that only adds events to the log, and opens no path
    outside [paths]. *)
Definition opens_within {A : Type} (paths : gset str) (m : M A) : Prop :=
  forall w, exists evs,
    log (m w).2 = log w ++ evs /\
    forall e p, e ∈ evs -> opens e = Some p -> p ∈ paths.

(** [main] from the first print of a count on (lines 83-107), given
    what [run_cargo_check] returned. *)
Definition main_from (unicode_alnum : char -> bool) (out : str * str) : M unit :=
  let warnings := warning_lines (out.1 ++ out.2) in
  print (MsgFound (length warnings)) ;;;
  print (MsgFiles (size (files_to_fix warnings))) ;;;
  for_each (fun file_path =>
              print (MsgFixing file_path) ;;;
              fix_unused_imports file_path warnings ;;;
              fix_unused_variables unicode_alnum file_path warnings)
           (elements (files_to_fix warnings)) ;;;
  print MsgDone ;;;
  print MsgRecheck ;;;
  out <- run_cargo_check ;;
  print (MsgRemaining
           (length (filter (fun line => contains (txt "warning:") line = true)
                           (split_lines (out.1 ++ out.2))))).

(** The output of the checker as [rustc] lays it out: the location of a
    warning stands on the line after it. *)
Definition rustc_output : str :=
  txt "warning: unused import: `foo::Bar`" ++ [10%N] ++
  txt " --> src/main.rs:1:5" ++ [10%N] ++
  txt "  |" ++ [10%N] ++
  txt "1 | use foo::Bar;" ++ [10%N] ++
  txt "  |     ^^^^^^^^" ++ [10%N] ++
  txt "warning: `demo` (bin) generated 1 warning" ++ [10%N].

Definition one_line_location : str :=
  txt "warning: unused import: `foo::Bar` in src/main.rs --> src/main.rs:1:5".


(** [s'] is [s] with [mark] put in directly before an occurrence of one
    of the [targets]; nothing else differs. *)
Definition put_before (mark : str) (targets : list str) (s s' : str) : Prop :=
  exists a x b, x ∈ targets /\ s = a ++ x ++ b /\ s' = a ++ mark ++ x ++ b.

(** [s'] comes from [s] by putting in [mark] before a target any number
    of times. *)
Definition marked (mark : str) (targets : list str) : str -> str -> Prop :=
  rtc (put_before mark targets).

(** The symbols the warnings report, in the order of the warnings. *)
Definition reported_imports (warnings : list str) : list str :=
  omap reported_import warnings.

Definition reported_variables (warnings : list str) : list str :=
  omap reported_variable warnings.

Definition unused_num : str :=
  txt "warning: unused import: `std::num` --> src/main.rs:1:5".

(** How often a log records a write of [q]. *)
Fixpoint writes_of (q : str) (l : list event) : nat :=
  match l with
  | [] => 0
  | EvWrite p _ :: l' => (if bool_decide (p = q) then 1 else 0) + writes_of q l'
  | _ :: l' => writes_of q l'
  end.

(** A computation that writes [q] at most [n] times. *)
Definition writes_at_most {A} (q : str) (n : nat) (m : M A) : Prop :=
  forall w, writes_of q (log (m w).2) <= writes_of q (log w) + n.

(** A computation that does not run the checker. *)
Definition spawns_nothing {A} (m : M A) : Prop :=
  forall w, spawned (m w).2 = spawned w.

End Spec.
Export Spec.

(** * Properties *)

(** ** The model on sample inputs

    Each value below is what Python's [re] returns on the same input. *)

Module Examples.

Example comment_out_grouped :
  comment_out (txt "N") (txt "use a::{N, b}; use a::{b, N};")
  = Ret (txt "// use a::{N, b}; use a::{b, N};").
Proof. vm_compute. reflexivity. Qed.

Example comment_out_backtracks :
  comment_out (txt "N") (txt "use x{N} use y::{N};")
  = Ret (txt "// use x{N} use y::{N};").
Proof. vm_compute. reflexivity. Qed.

Example comment_out_nested :
  comment_out (txt "N") (txt "use a::{N{N}};") = Ret (txt "use a::{N{N}};").
Proof. vm_compute. reflexivity. Qed.

Example comment_out_inside_statement :
  comment_out (txt "N") (txt "pub use N; use N ;") = Ret (txt "pub // use N; use N ;").
Proof. vm_compute. reflexivity. Qed.

Example comment_out_escaped_dot :
  comment_out (txt "a.b") (txt "use a.b; use axb;") = Ret (txt "// use a.b; use axb;").
Proof. vm_compute. reflexivity. Qed.

Example comment_out_whole_match :
  comment_out (txt "a\g<0>") (txt "use a\g<0>; tail")
  = Ret (txt "// use ause a\g<0>;; tail").
Proof. vm_compute. reflexivity. Qed.

Example comment_out_bad_escape :
  comment_out (txt "a\1") (txt "use b;") = Raise TemplateError.
Proof. vm_compute. reflexivity. Qed.

Example prefix_whole_words :
  prefix (txt "count") (txt "count count_ _count (count) x.count.y")
  = Ret (txt "_count count_ _count (_count) x._count.y").
Proof. vm_compute. reflexivity. Qed.

Example prefix_other_characters :
  prefix (txt "a-b") (txt "a-b a-bc xa-b") = Ret (txt "_a-b a-bc xa-b").
Proof. vm_compute. reflexivity. Qed.

Example search_first_quoted :
  reported_import (txt "unused import: ``a` unused import: `b`c`") = Some (txt "b").
Proof. vm_compute. reflexivity. Qed.

Example search_location :
  group1 <$> search location_re (txt "--> --> a b:1:2 --> c:3") = Some (txt "--> a b").
Proof. vm_compute. reflexivity. Qed.

Example warning_lines_stripped :
  warning_lines (txt "  warning: a  
note: b
warning: c") = [txt "warning: a"; txt "warning: c"].
Proof. vm_compute. reflexivity. Qed.

End Examples.


(** ** Text: prefixes and substrings *)

Module TextFacts.

Lemma startswith_app (p s : str) : startswith p (p ++ s) = true.
Proof.
  induction p as [|a p IH]; simpl; [done|].
  by rewrite N.eqb_refl, IH.
Qed.

Lemma startswith_inv (p s : str) :
  startswith p s = true -> exists r, s = p ++ r.
Proof.
  revert s. induction p as [|a p IH]; intros s H.
  - by exists s.
  - destruct s as [|b s]; simpl in H; [done|].
    apply andb_true_iff in H as [Hab Hps].
    apply N.eqb_eq in Hab as ->.
    destruct (IH _ Hps) as [r ->]. by exists r.
Qed.

Lemma startswith_spec (p s : str) :
  startswith p s = true <-> exists r, s = p ++ r.
Proof.
  split; [apply startswith_inv|].
  intros [r ->]. apply startswith_app.
Qed.

Lemma contains_spec (needle hay : str) :
  contains needle hay = true <-> substring needle hay.
Proof.
  split.
  - induction hay as [|b hay IH]; simpl; intros H.
    + apply orb_true_iff in H as [H|H]; [|done].
      apply startswith_inv in H as [r ->]. by exists [], r.
    + apply orb_true_iff in H as [H|H].
      * apply startswith_inv in H as [r ->]. by exists [], r.
      * destruct (IH H) as (pre & post & ->). by exists (b :: pre), post.
  - intros (pre & post & ->).
    induction pre as [|b pre IH]; simpl.
    + destruct (needle ++ post) eqn:E; simpl; rewrite <- E;
        by rewrite startswith_app.
    + rewrite IH. apply orb_true_r.
Qed.

Lemma contains_false (needle hay : str) :
  contains needle hay = false <-> ~ substring needle hay.
Proof.
  rewrite <- contains_spec. by destruct (contains needle hay).
Qed.

Lemma substring_app_l (x a b : str) : substring x a -> substring x (a ++ b).
Proof.
  intros (pre & post & ->). exists pre, (post ++ b). by rewrite <- !app_assoc.
Qed.

Lemma substring_app_r (x a b : str) : substring x b -> substring x (a ++ b).
Proof.
  intros (pre & post & ->). exists (a ++ pre), post. by rewrite <- !app_assoc.
Qed.

Lemma substring_cons (x : str) (c : char) (a : str) :
  substring x a -> substring x (c :: a).
Proof. apply (substring_app_r x [c] a). Qed.

(** An occurrence of [x] in [a ++ r ++ b] lies in [a] or in [b] when it
    can neither start inside [r] nor run into it. *)
Lemma substring_around (x0 : char) (x' r a b : str) :
  x0 ∉ r -> r ≠ [] -> (forall r0, head r = Some r0 -> r0 ∉ x') ->
  substring (x0 :: x') (a ++ r ++ b) ->
  substring (x0 :: x') a \/ substring (x0 :: x') b.
Proof.
  intros Hx0 Hr Hr0 (pre & post & E).
  symmetry in E. apply app_eq_inv in E as [(k & -> & E)|(k & -> & E)].
  - (* the occurrence starts at or after the end of [a] *)
    apply app_eq_inv in E as [(k' & -> & E)|(k' & -> & E)].
    + destruct k' as [|k0' k'].
      * right. exists [], post. by rewrite E.
      * exfalso. simplify_eq/=. apply Hx0. set_solver.
    + right. exists k', post. by rewrite E.
  - (* the occurrence starts in [a] *)
    apply app_eq_inv in E as [(k' & E1 & E)|(k' & -> & E)].
    + destruct k as [|k0 k].
      * destruct r as [|r0 r]; [done|]. simplify_eq/=.
        exfalso. apply Hx0. by left.
      * destruct k' as [|k0' k'].
        -- left. exists pre, []. rewrite app_nil_r in E1. by rewrite E1, app_nil_r.
        -- exfalso. destruct r as [|r0 r]; [done|]. simplify_eq/=.
           apply (Hr0 k0' eq_refl). set_solver.
    + left. by exists pre, k'.
Qed.

(** A text whose first character does not recur in it cannot overlap a
    later copy of itself. *)
Lemma startswith_self_later (c : char) (s' a rest : str) :
  c ∉ s' ->
  startswith (c :: s') (a ++ (c :: s') ++ rest) = true ->
  a = [] \/ substring (c :: s') a.
Proof.
  intros Hc H. apply startswith_inv in H as [r E].
  destruct a as [|a0 a]; [by left|right].
  apply app_eq_inv in E as [(k & E1 & E2)|(k & E1 & E2)].
  - exists [], k. by rewrite E1.
  - destruct k as [|k0 k].
    + exists [], []. rewrite app_nil_r in E1. by rewrite E1, app_nil_r.
    + exfalso. simplify_eq/=. apply Hc. set_solver.
Qed.

End TextFacts.
Export TextFacts.

(** ** The matcher *)

Module ReFacts.

Lemma before_cons (prev : option char) (x : char) (m : str) :
  before prev (x :: m) = before (Some x) m.
Proof.
  destruct m as [|y m]; [done|]. unfold before.
  change (last (x :: y :: m)) with (last (y :: m)).
  destruct (last (y :: m)) eqn:E; [done|]. by apply last_None in E.
Qed.

Lemma before_app (prev : option char) (a b : str) :
  before (before prev a) b = before prev (a ++ b).
Proof.
  revert prev. induction a as [|x a IH]; intros prev; [done|].
  by rewrite <- app_comm_cons, !before_cons, IH.
Qed.

Lemma feed_all_unopened (m : str) : feed_all Unopened m = Unopened.
Proof. by induction m. Qed.

Lemma feed_all_capturing (acc m : str) :
  feed_all (Capturing acc) m = Capturing (acc ++ m).
Proof.
  revert acc. induction m as [|x m IH]; intros acc; simpl.
  - by rewrite app_nil_r.
  - unfold feed_all in IH. rewrite IH. by rewrite <- app_assoc.
Qed.

Lemma feed_all_captured (g m : str) : feed_all (Captured g) m = Captured g.
Proof. by induction m. Qed.

Lemma escape_app (a b : str) : escape (a ++ b) = escape a ++ escape b.
Proof. apply map_app. Qed.

(** A literal matches exactly when the text starts with it. *)
Lemma exec_escape (l : str) (p : pattern) prev s n k :
  exec (escape l ++ p) prev s n k =
  if startswith l s
  then exec p (before prev l) (drop (length l) s) (n + length l) (feed_all k l)
  else None.
Proof.
  revert prev s n k. induction l as [|a l IH]; intros prev s n k; simpl.
  - by rewrite Nat.add_0_r.
  - destruct s as [|x s]; [done|].
    rewrite (N.eqb_sym a x). destruct (N.eqb x a) eqn:E; [|done].
    apply N.eqb_eq in E as ->. simpl. rewrite IH.
    rewrite before_cons. by replace (S n + length l) with (n + S (length l)) by lia.
Qed.

Lemma match_at_escape (l : str) prev s :
  match_at (escape l) prev s =
  if startswith l s then Some (length l, Unopened) else None.
Proof.
  unfold match_at. rewrite <- (app_nil_r (escape l)), exec_escape.
  by rewrite feed_all_unopened.
Qed.

(** What a successful greedy repetition has read. *)
Lemma greedy_inv (c : char) (rest : cont) prev s n k r :
  greedy c rest prev s n k = Some r ->
  exists m s', s = m ++ s' /\ (c ∉ m) /\
    rest (before prev m) s' (n + length m) (feed_all k m) = Some r.
Proof.
  revert prev n k. induction s as [|x s IH]; intros prev n k H; simpl in H.
  - exists [], []. rewrite Nat.add_0_r. split_and!; [done|apply not_elem_of_nil|done].
  - destruct (N.eqb x c) eqn:E.
    + exists [], (x :: s). rewrite Nat.add_0_r. split_and!; [done|apply not_elem_of_nil|done].
    + apply N.eqb_neq in E.
      destruct (greedy c rest (Some x) s (S n) (feed k x)) as [r'|] eqn:G.
      * simplify_eq. destruct (IH _ _ _ G) as (m & s' & -> & Hm & Hr).
        exists (x :: m), s'. rewrite before_cons.
        replace (n + length (x :: m)) with (S n + length m) by (simpl; lia).
        split_and!; [done|by apply not_elem_of_cons|done].
      * exists [], (x :: s). rewrite Nat.add_0_r. split_and!; [done|apply not_elem_of_nil|done].
Qed.

Lemma exec_NotPlus_inv (c : char) (p : pattern) prev s n k r :
  exec (NotPlus c :: p) prev s n k = Some r ->
  exists m s', s = m ++ s' /\ m ≠ [] /\ (c ∉ m) /\
    exec p (before prev m) s' (n + length m) (feed_all k m) = Some r.
Proof.
  simpl. destruct s as [|x s]; [done|].
  destruct (N.eqb x c) eqn:E; [done|]. apply N.eqb_neq in E.
  intros H. apply greedy_inv in H as (m & s' & -> & Hm & Hr).
  exists (x :: m), s'. rewrite before_cons.
  replace (n + length (x :: m)) with (S n + length m) by (simpl; lia).
  split_and!; [done|done|by apply not_elem_of_cons|done].
Qed.

Lemma exec_Chr_inv (c : char) (p : pattern) prev s n k r :
  exec (Chr c :: p) prev s n k = Some r ->
  exists s', s = c :: s' /\ exec p (Some c) s' (S n) (feed k c) = Some r.
Proof.
  simpl. destruct s as [|x s]; [done|].
  destruct (N.eqb x c) eqn:E; [|done]. apply N.eqb_eq in E as ->. eauto.
Qed.

Lemma exec_GroupOpen (p : pattern) prev s n k :
  exec (GroupOpen :: p) prev s n k = exec p prev s n (Capturing []).
Proof. done. Qed.

Lemma exec_GroupClose (p : pattern) prev s n k :
  exec (GroupClose :: p) prev s n k = exec p prev s n (close k).
Proof. done. Qed.

Lemma exec_Look (f : option char -> str -> bool) (p : pattern) prev s n k :
  exec (Look f :: p) prev s n k = if f prev s then exec p prev s n k else None.
Proof. done. Qed.

Lemma exec_nil prev s n k : exec [] prev s n k = Some (n, k).
Proof. done. Qed.

Lemma exec_escape_inv (l : str) (p : pattern) prev s n k r :
  exec (escape l ++ p) prev s n k = Some r ->
  exists s', s = l ++ s' /\
    exec p (before prev l) s' (n + length l) (feed_all k l) = Some r.
Proof.
  rewrite exec_escape. destruct (startswith l s) eqn:E; [|done].
  apply startswith_inv in E as [s' ->]. rewrite drop_app_length. eauto.
Qed.

(** The group of a pattern [l([^c]+)c] is a non-empty text without [c]
    that stands between [l] and [c]. *)
Lemma match_at_quoted (l : str) (c : char) prev s n k :
  match_at (escape l ++ [GroupOpen; NotPlus c; GroupClose; Chr c]) prev s = Some (n, k) ->
  exists g post, s = l ++ g ++ [c] ++ post /\ g ≠ [] /\ (c ∉ g) /\ k = Captured g.
Proof.
  unfold match_at. intros H.
  apply exec_escape_inv in H as (s1 & -> & H).
  rewrite exec_GroupOpen in H.
  apply exec_NotPlus_inv in H as (g & s2 & -> & Hg & Hc & H).
  rewrite feed_all_capturing, exec_GroupClose in H.
  apply exec_Chr_inv in H as (post & -> & H).
  simpl in H. simplify_eq. by exists g, post.
Qed.

(** [re.search] finds nothing unless some suffix matches. *)
Lemma search_from_inv (p : pattern) prev s k :
  search_from p prev s = Some k ->
  exists pre t n, s = pre ++ t /\ match_at p (before prev pre) t = Some (n, k).
Proof.
  revert prev. induction s as [|x s IH]; intros prev H; simpl in H.
  - destruct (match_at p prev []) as [[n k']|] eqn:E; [|done].
    simplify_eq. by exists [], [], n.
  - destruct (match_at p prev (x :: s)) as [[n k']|] eqn:E.
    + simplify_eq. by exists [], (x :: s), n.
    + destruct (IH _ H) as (pre & t & n & -> & Hm).
      exists (x :: pre), t, n. by rewrite before_cons.
Qed.

(** A greedy repetition that can read up to a [c] after which the rest
    of the pattern matches does so. *)
Lemma greedy_full (c : char) (rest : cont) prev (m t : str) n k r :
  c ∉ m ->
  rest (before prev m) (c :: t) (n + length m) (feed_all k m) = Some r ->
  greedy c rest prev (m ++ c :: t) n k = Some r.
Proof.
  revert prev n k. induction m as [|x m IH]; intros prev n k Hc H.
  - simpl. rewrite N.eqb_refl. by rewrite Nat.add_0_r in H.
  - simpl. destruct (N.eqb x c) eqn:E.
    + apply N.eqb_eq in E as ->. set_solver.
    + rewrite (IH (Some x) (S n) (feed k x)); [done|set_solver|].
      rewrite before_cons in H.
      by replace (S n + length m) with (n + length (x :: m)) by (simpl; lia).
Qed.

Lemma search_from_app (p : pattern) prev (pre t : str) r :
  match_at p (before prev pre) t = Some r ->
  is_Some (search_from p prev (pre ++ t)).
Proof.
  revert prev. induction pre as [|x pre IH]; intros prev H.
  - change (before prev []) with prev in H.
    destruct t; cbn [app search_from]; rewrite H; by destruct r.
  - simpl. destruct (match_at p prev (x :: pre ++ t)) as [[? ?]|]; [done|].
    apply IH. by rewrite before_cons in H.
Qed.

(** ** Substitution *)

Lemma sub_from_skip (p : pattern) repl prev (a s : str) :
  s ≠ [] \/ match_at p (before prev a) [] = None ->
  sub_from p repl prev (a ++ s) (length a) = sub_from p repl (before prev a) s 0.
Proof.
  revert prev. induction a as [|x a IH]; intros prev H; [done|].
  simpl. rewrite before_cons in H. rewrite before_cons. by apply IH.
Qed.

Lemma sub_from_miss (p : pattern) repl prev (x : char) (s : str) :
  match_at p prev (x :: s) = None ->
  sub_from p repl prev (x :: s) 0 = x :: sub_from p repl (Some x) s 0.
Proof. intros H. simpl. by rewrite H. Qed.

Lemma sub_from_hit (p : pattern) repl prev (x : char) (s : str) j k :
  match_at p prev (x :: s) = Some (S j, k) ->
  sub_from p repl prev (x :: s) 0 =
  repl (take (S j) (x :: s)) k ++ sub_from p repl (Some x) s j.
Proof. intros H. cbn [sub_from]. by rewrite H. Qed.

(** Where the pattern matches nowhere, [re.sub] returns the text as it is. *)
Lemma sub_from_unchanged (p : pattern) repl prev (s : str) :
  (forall prev' t, t `suffix_of` s -> match_at p prev' t = None) ->
  sub_from p repl prev s 0 = s.
Proof.
  revert prev. induction s as [|x s IH]; intros prev H.
  - simpl. by rewrite (H prev []).
  - rewrite sub_from_miss by (by apply H). f_equal. apply IH.
    intros prev' t Ht. apply H. by apply suffix_cons_r.
Qed.

End ReFacts.
Export ReFacts.

(** ** Replacing a literal statement *)

Module LiteralFacts.

Lemma substring_join_piece (x sep a : str) (pieces : list str) :
  a ∈ pieces -> substring x a -> substring x (join sep pieces).
Proof.
  induction pieces as [|b [|b' rest] IH]; intros Hin Hx.
  - by apply elem_of_nil in Hin.
  - apply list_elem_of_singleton in Hin as ->. done.
  - apply elem_of_cons in Hin as [->|Hin].
    + by apply substring_app_l.
    + apply substring_app_r, substring_app_r. by apply IH.
Qed.

(** The first occurrence: nothing of [x] before it. *)
Lemma first_occurrence (x s : str) :
  x ≠ [] -> substring x s ->
  exists pre post, s = pre ++ x ++ post /\ ~ substring x pre.
Proof.
  intros Hx H. apply contains_spec in H.
  induction s as [|c s IH].
  - simpl in H. rewrite orb_false_r in H. by destruct x.
  - destruct (startswith x (c :: s)) eqn:E.
    + apply startswith_inv in E as [post ->]. exists [], post. split; [done|].
      intros (a & b & Hab). by destruct a, x.
    + simpl in H. simpl in E. rewrite E in H. simpl in H.
      destruct (IH H) as (pre & post & -> & Hpre).
      exists (c :: pre), post. split; [done|].
      intros (a & b & Hab). destruct a as [|a0 a].
      * simpl in Hab. rewrite app_comm_cons, Hab, <- app_assoc in E.
        change (startswith x (x ++ b ++ x ++ post) = false) in E.
        by rewrite startswith_app in E.
      * simplify_eq/=. apply Hpre. by exists a, b.
Qed.

(** Every text is pieces without [x], joined by [x]. *)
Lemma split_on (x s : str) :
  x ≠ [] ->
  exists pieces, pieces ≠ [] /\ s = join x pieces /\
                 Forall (fun a => ~ substring x a) pieces.
Proof.
  intros Hx. remember (length s) as n eqn:Hn. revert s Hn.
  induction n as [n IH] using lt_wf_ind. intros s ->.
  destruct (contains x s) eqn:E.
  - apply contains_spec, first_occurrence in E as (pre & post & -> & Hpre); [|done].
    destruct (IH (length post)) with (s := post) as (pieces & Hne & -> & Hall); [|done|].
    { rewrite !length_app. destruct x; [done|simpl; lia]. }
    exists (pre :: pieces). split_and!; [done| |by constructor].
    by destruct pieces.
  - apply contains_false in E. exists [s]. split_and!; [done|done|by constructor].
Qed.

Section Literal.

(** A statement [stmt] whose first character does not recur in it, and
    the constant text [new] that replaces it. *)
Variables (c : char) (stmt' new : str).
Hypothesis first_is_unique : c ∉ stmt'.

Let stmt : str := c :: stmt'.
Let constant : str -> capture -> str := fun _ _ => new.

Lemma match_at_stmt_end prev : match_at (escape stmt) prev [] = None.
Proof using Type. by rewrite match_at_escape. Qed.

Lemma sub_from_stmt prev (s : str) :
  sub_from (escape stmt) constant prev (stmt ++ s) 0 =
  new ++ sub_from (escape stmt) constant (before prev stmt) s 0.
Proof using Type.
  assert (Hm : match_at (escape stmt) prev (c :: stmt' ++ s)
               = Some (S (length stmt'), Unopened)).
  { rewrite match_at_escape. change (c :: stmt' ++ s) with (stmt ++ s).
    by rewrite startswith_app. }
  change (stmt ++ s) with (c :: stmt' ++ s).
  rewrite (sub_from_hit _ _ _ _ _ _ _ Hm). unfold constant at 1. f_equal.
  rewrite sub_from_skip by (right; apply match_at_stmt_end).
  unfold stmt. by rewrite before_cons.
Qed.

Lemma sub_from_before_stmt prev (a s : str) :
  ~ substring stmt a ->
  sub_from (escape stmt) constant prev (a ++ stmt ++ s) 0 =
  a ++ new ++ sub_from (escape stmt) constant (before prev (a ++ stmt)) s 0.
Proof using first_is_unique.
  revert prev. induction a as [|x a IH]; intros prev Ha.
  - apply sub_from_stmt.
  - rewrite <- !app_comm_cons, sub_from_miss.
    + rewrite IH by (intros H; by apply Ha, substring_cons).
      by rewrite before_cons.
    + rewrite match_at_escape.
      destruct (startswith stmt (x :: a ++ stmt ++ s)) eqn:E; [|done].
      apply (startswith_self_later c stmt' (x :: a) s first_is_unique) in E
        as [E|E]; [done|by destruct Ha].
Qed.

Lemma sub_from_without_stmt prev (a : str) :
  ~ substring stmt a ->
  sub_from (escape stmt) constant prev a 0 = a.
Proof using Type.
  intros Ha. apply sub_from_unchanged. intros prev' t [pre ->].
  rewrite match_at_escape. destruct (startswith stmt t) eqn:E; [|done].
  apply startswith_inv in E as [r ->]. destruct Ha. by exists pre, r.
Qed.

(** Every occurrence of the statement is replaced, and the text between
    the occurrences is kept. *)
Lemma sub_from_join prev (pieces : list str) :
  Forall (fun a => ~ substring stmt a) pieces ->
  sub_from (escape stmt) constant prev (join stmt pieces) 0 = join new pieces.
Proof using first_is_unique.
  intros H. revert prev. induction H as [|a rest Ha Hrest IH]; intros prev.
  - cbn [join sub_from]. by rewrite match_at_stmt_end.
  - destruct rest as [|b rest].
    + by apply sub_from_without_stmt.
    + change (join stmt (a :: b :: rest)) with (a ++ stmt ++ join stmt (b :: rest)).
      change (join new (a :: b :: rest)) with (a ++ new ++ join new (b :: rest)).
      by rewrite sub_from_before_stmt, IH.
Qed.

(** A text that cannot start inside [new] nor run into it does not
    appear through the replacement. *)
Lemma join_new_without (x0 : char) (x' : str) (pieces : list str) :
  x0 ∉ new -> new ≠ [] -> (forall r0, head new = Some r0 -> r0 ∉ x') ->
  Forall (fun a => ~ substring (x0 :: x') a) pieces ->
  ~ substring (x0 :: x') (join new pieces).
Proof using Type.
  intros H0 Hnew Hhead H. induction H as [|a rest Ha Hrest IH].
  - intros (pre & post & E). by destruct pre.
  - destruct rest as [|b rest]; [done|].
    change (join new (a :: b :: rest)) with (a ++ new ++ join new (b :: rest)).
    intros Hx. by apply substring_around in Hx as [Hx|Hx].
Qed.

End Literal.

End LiteralFacts.
Export LiteralFacts.

(** ** The shape shared by the two passes *)

Module PassFacts.

Lemma fix_unused_imports_patch :
  fix_unused_imports = patch (txt "unused import") comment_import.
Proof. reflexivity. Qed.

Lemma fix_unused_variables_patch (unicode_alnum : char -> bool) :
  fix_unused_variables unicode_alnum
  = patch (txt "unused variable") (prefix_variable unicode_alnum).
Proof. reflexivity. Qed.

Lemma fold_for_app {A B} (body : B -> A -> result B) (l1 l2 : list A) (b : B) :
  fold_for body (l1 ++ l2) b =
  match fold_for body l1 b with
  | Ret b' => fold_for body l2 b'
  | Raise e => Raise e
  end.
Proof.
  revert b. induction l1 as [|a l1 IH]; intros b; simpl; [done|].
  by destruct (body b a).
Qed.

Lemma fold_for_skip {A B} (body : B -> A -> result B) (l : list A) (b : B) :
  Forall (fun a => forall b, body b a = Ret b) l -> fold_for body l b = Ret b.
Proof.
  induction 1 as [|a l Ha _ IH]; simpl; [done|]. by rewrite Ha.
Qed.

Lemma file_warnings_app (marker file_path : str) (ws1 ws2 : list str) :
  file_warnings marker file_path (ws1 ++ ws2) =
  file_warnings marker file_path ws1 ++ file_warnings marker file_path ws2.
Proof. apply filter_app. Qed.

Lemma elem_of_file_warnings (marker file_path w : str) (warnings : list str) :
  w ∈ file_warnings marker file_path warnings <->
  w ∈ warnings /\ substring file_path w /\ substring marker w.
Proof.
  unfold file_warnings. rewrite list_elem_of_filter, andb_true_iff, !contains_spec.
  tauto.
Qed.

Lemma file_warnings_cons (marker file_path w : str) (ws : list str) :
  file_warnings marker file_path (w :: ws) =
  if contains file_path w && contains marker w
  then w :: file_warnings marker file_path ws
  else file_warnings marker file_path ws.
Proof.
  unfold file_warnings. rewrite filter_cons.
  destruct (contains file_path w && contains marker w); by case_decide.
Qed.

Section Patch.

Variables (marker : str) (body : str -> str -> result str).

Lemma patch_missing (file_path : str) (warnings : list str) (w : world) :
  files w !! file_path = None -> patch marker body file_path warnings w = (Ret tt, w).
Proof.
  intros H. unfold patch, bind, path_exists. rewrite H.
  by rewrite bool_decide_eq_false_2 by (by intros [? ?]).
Qed.

Lemma patch_directory (file_path : str) (warnings : list str) (w : world) :
  files w !! file_path = Some Directory ->
  patch marker body file_path warnings w = (Raise IsADirectoryError, w).
Proof.
  intros H. unfold patch, bind, path_exists, read_text. rewrite H.
  rewrite bool_decide_eq_true_2 by eauto. cbn [negb]. by rewrite H.
Qed.

Lemma patch_file (file_path content : str) (warnings : list str) (w : world) :
  files w !! file_path = Some (File content) ->
  patch marker body file_path warnings w =
  match fold_for body (file_warnings marker file_path warnings) content with
  | Ret content' =>
      (Ret tt, World (<[file_path := File content']> (files w)) (cargo w) (spawned w)
                 (log w ++ [EvRead file_path; EvWrite file_path content']))
  | Raise e =>
      (Raise e, World (files w) (cargo w) (spawned w) (log w ++ [EvRead file_path]))
  end.
Proof.
  intros H. unfold patch, bind, path_exists, read_text, lift, write_text. rewrite H.
  rewrite bool_decide_eq_true_2 by eauto. cbn [negb]. rewrite H.
  destruct (fold_for body _ content) as [content'|e]; [|done].
  cbn [files cargo spawned log]. rewrite H. by rewrite <- app_assoc.
Qed.

(** The pass depends on the warnings only through its loop. *)
Lemma patch_ext (file_path : str) (ws ws' : list str) (w : world) :
  (forall content,
     fold_for body (file_warnings marker file_path ws) content =
     fold_for body (file_warnings marker file_path ws') content) ->
  patch marker body file_path ws w = patch marker body file_path ws' w.
Proof.
  intros H. destruct (files w !! file_path) as [[content|]|] eqn:E.
  - by rewrite !(patch_file _ content), H.
  - by rewrite !patch_directory.
  - by rewrite !patch_missing.
Qed.

(** A warning on which the loop body does nothing can be dropped. *)
Lemma patch_skip (file_path w0 : str) (ws1 ws2 : list str) (w : world) :
  (forall content, body content w0 = Ret content) ->
  patch marker body file_path (ws1 ++ w0 :: ws2) w
  = patch marker body file_path (ws1 ++ ws2) w.
Proof.
  intros H. apply patch_ext. intros content.
  rewrite !file_warnings_app, file_warnings_cons, !fold_for_app.
  destruct (fold_for body _ content) as [content'|e]; [|done].
  destruct (contains file_path w0 && contains marker w0); [|done].
  simpl. by rewrite H.
Qed.

End Patch.

End PassFacts.
Export PassFacts.

(** ** The unused-import pass *)

Module ImportFacts.

(** A closed membership goal on code points. *)
Ltac not_in_text :=
  let H := fresh in
  intros H; apply list_elem_of_In in H; vm_compute in H;
  repeat (destruct H as [H|H]; [discriminate H|]); exact H.

Lemma search_quoted_inv (l : str) (c : char) (s : str) (k : capture) :
  search (escape l ++ [GroupOpen; NotPlus c; GroupClose; Chr c]) s = Some k ->
  exists pre g post, s = pre ++ l ++ g ++ [c] ++ post /\ g ≠ [] /\ (c ∉ g) /\ k = Captured g.
Proof.
  intros H. apply search_from_inv in H as (pre & t & n & -> & H).
  apply match_at_quoted in H as (g & post & -> & Hg & Hc & ->).
  by exists pre, g, post.
Qed.

Lemma search_unquoted (marker s : str) :
  ~ quoted_after marker s ->
  search (escape (marker ++ [96%N]) ++ [GroupOpen; NotPlus 96%N; GroupClose; Chr 96%N]) s = None.
Proof.
  intros H. destruct (search _ s) as [k|] eqn:E; [|done].
  apply search_quoted_inv in E as (pre & g & post & -> & Hg & Hc & _).
  destruct H. exists pre, g, post. by rewrite <- !app_assoc.
Qed.

Lemma search_quoted (marker s : str) :
  quoted_after marker s ->
  is_Some (search (escape (marker ++ [96%N]) ++ [GroupOpen; NotPlus 96%N; GroupClose; Chr 96%N]) s).
Proof.
  intros (pre & g & post & -> & Hg & Hc).
  destruct g as [|x g]; [done|].
  eapply search_from_app. unfold match_at.
  replace (marker ++ [96%N] ++ (x :: g) ++ [96%N] ++ post)
    with ((marker ++ [96%N]) ++ x :: g ++ 96%N :: post)
    by (by rewrite <- !app_assoc).
  rewrite exec_escape, startswith_app, drop_app_length, exec_GroupOpen.
  cbn [exec]. destruct (N.eqb x 96) eqn:E.
  { apply N.eqb_eq in E as ->. exfalso. apply Hc. by left. }
  apply greedy_full; [set_solver|].
  cbn [exec]. by rewrite N.eqb_refl.
Qed.

Lemma quoted_after_search (marker s : str) :
  quoted_after marker s <->
  is_Some (search (escape (marker ++ [96%N]) ++ [GroupOpen; NotPlus 96%N; GroupClose; Chr 96%N]) s).
Proof.
  split; [apply search_quoted|]. intros [k E].
  apply search_quoted_inv in E as (pre & g & post & -> & Hg & Hc & _).
  exists pre, g, post. by rewrite <- !app_assoc.
Qed.

Lemma reported_import_inv (warning name : str) :
  reported_import warning = Some name ->
  search unused_import_re warning = Some (Captured name).
Proof.
  unfold reported_import. destruct (search _ warning) as [k|] eqn:E; [|done].
  intros [= <-]. apply search_quoted_inv in E as (? & g & ? & _ & _ & _ & ->). done.
Qed.

Lemma comment_import_unreported (content warning : str) :
  reported_import warning = None -> comment_import content warning = Ret content.
Proof.
  unfold reported_import, comment_import. by destruct (search _ warning).
Qed.

(** The brace pattern matches only where [{NAME] stands. *)
Lemma match_at_braces_inv (name : str) prev s r :
  match_at (use_braces_re name) prev s = Some r -> substring (123%N :: name) s.
Proof.
  unfold match_at, use_braces_re. intros H.
  apply exec_escape_inv in H as (s1 & -> & H).
  cbn [app] in H. rewrite exec_GroupOpen in H.
  apply exec_NotPlus_inv in H as (g & s2 & -> & _ & _ & H).
  apply exec_Chr_inv in H as (s3 & -> & H).
  apply exec_escape_inv in H as (s4 & -> & _).
  exists (txt "use " ++ g), s4. by rewrite <- !app_assoc.
Qed.

Lemma sub_braces_unchanged (name : str) repl (s : str) :
  ~ substring (123%N :: name) s -> sub (use_braces_re name) repl s = s.
Proof.
  intros H. apply sub_from_unchanged. intros prev t [pre ->].
  destruct (match_at (use_braces_re name) prev t) as [r|] eqn:E; [|done].
  destruct H. by apply substring_app_r, (match_at_braces_inv name prev t r).
Qed.

Lemma sub_template_plain (p : pattern) (repl s : str) :
  contains [92%N] repl = false ->
  sub_template p repl s = Some (sub p (fun _ _ => repl) s).
Proof. intros H. unfold sub_template. by rewrite H. Qed.

(** One warning that reports [foo::Bar], on a text without [{foo::Bar]. *)
Lemma comment_import_foo_bar (pieces : list str) (warning : str) :
  reported_import warning = Some (txt "foo::Bar") ->
  Forall (fun a => ~ substring (txt "use foo::Bar;") a) pieces ->
  ~ substring (txt "{foo::Bar") (join (txt "use foo::Bar;") pieces) ->
  comment_import (join (txt "use foo::Bar;") pieces) warning
  = Ret (join (txt "// use foo::Bar;") pieces).
Proof.
  intros Hrep Hpieces Hbrace. apply reported_import_inv in Hrep.
  unfold comment_import. rewrite Hrep. cbn [group1].
  rewrite sub_template_plain by reflexivity. f_equal.
  change (use_re (txt "foo::Bar")) with (escape (117%N :: txt "se foo::Bar;")).
  change (txt "// use " ++ txt "foo::Bar" ++ txt ";") with (txt "// use foo::Bar;").
  change (txt "use foo::Bar;") with (117%N :: txt "se foo::Bar;") in *.
  unfold sub at 2. rewrite sub_from_join; [|not_in_text|done].
  apply sub_braces_unchanged.
  change (123%N :: txt "foo::Bar") with (txt "{foo::Bar").
  change (txt "{foo::Bar") with (123%N :: txt "foo::Bar").
  apply join_new_without.
  - not_in_text.
  - done.
  - intros r0 [= <-]. not_in_text.
  - apply Forall_forall. intros a Ha Hx. apply Hbrace.
    by apply (substring_join_piece _ _ a).
Qed.

Lemma use_re_literal (name : str) :
  use_re name = escape (117%N :: txt "se " ++ name ++ txt ";").
Proof. unfold use_re. by rewrite <- !escape_app. Qed.

Lemma replacement_plain (name : str) :
  92%N ∉ name -> contains [92%N] (txt "// use " ++ name ++ txt ";") = false.
Proof.
  intros Hname. apply contains_false. intros (pre & post & E).
  assert (H : 92%N ∈ txt "// use " ++ name ++ txt ";").
  { rewrite E. apply elem_of_app. right. by left. }
  rewrite !elem_of_app in H. destruct H as [H|[H|H]]; [|done|]; revert H; not_in_text.
Qed.

(** A warning changes nothing in a text that has neither the statement
    [use NAME;] nor the symbol directly after a brace, [{NAME]. *)
Lemma comment_import_untouched (content warning name : str) :
  reported_import warning = Some name -> 92%N ∉ name ->
  ~ substring (txt "use " ++ name ++ txt ";") content ->
  ~ substring (123%N :: name) content ->
  comment_import content warning = Ret content.
Proof.
  intros Hrep Hname Hstmt Hbrace. apply reported_import_inv in Hrep.
  unfold comment_import. rewrite Hrep. cbn [group1].
  rewrite sub_template_plain by (by apply replacement_plain).
  rewrite use_re_literal. unfold sub at 2.
  rewrite sub_from_without_stmt by done.
  by rewrite sub_braces_unchanged.
Qed.

End ImportFacts.
Export ImportFacts.

(** ** The unused-variable pass *)

Module VariableFacts.

Section Words.

Variable unicode_alnum : char -> bool.

Local Abbreviation is_word := (is_word unicode_alnum).
Local Abbreviation word_boundary := (word_boundary unicode_alnum).
Local Abbreviation whole_word_re := (whole_word_re unicode_alnum).
Local Abbreviation rename_whole_words_from := (rename_whole_words_from unicode_alnum).
Local Abbreviation rename_whole_words := (rename_whole_words unicode_alnum).
Local Abbreviation after_word := (after_word unicode_alnum).

Lemma match_at_whole_word (name : str) prev s :
  match_at (whole_word_re name) prev s =
  if xorb (word_before unicode_alnum prev) (word_after unicode_alnum s) then
    if startswith name s then
      if xorb (word_before unicode_alnum (before prev name))
              (word_after unicode_alnum (drop (length name) s))
      then Some (length name, Unopened)
      else None
    else None
  else None.
Proof.
  unfold match_at, whole_word_re, FixWarnings.word_boundary. cbn [app].
  rewrite exec_Look. destruct (xorb _ _); [|done].
  rewrite exec_escape. destruct (startswith name s); [|done].
  rewrite exec_Look, exec_nil, feed_all_unopened. done.
Qed.

Lemma word_before_run prev (w : str) :
  Forall (fun c => is_word c = true) w -> w ≠ [] ->
  word_before unicode_alnum (before prev w) = true.
Proof.
  intros Hw Hne. unfold before.
  destruct (last w) as [c|] eqn:E; [|by apply last_None in E].
  apply last_Some in E as [w' ->]. rewrite Forall_app, Forall_singleton in Hw.
  apply Hw.
Qed.

Lemma word_span (s : str) :
  exists w rest, s = w ++ rest /\ Forall (fun c => is_word c = true) w /\
                 word_after unicode_alnum rest = false.
Proof.
  induction s as [|c s (w & rest & -> & Hw & Hrest)].
  - by exists [], [].
  - destruct (is_word c) eqn:E.
    + exists (c :: w), rest. split_and!; [done|by constructor|done].
    + exists [], (c :: w ++ rest). split_and!; [done|constructor|done].
Qed.

Lemma rename_from_run (name word w rest : str) :
  Forall (fun c => is_word c = true) w ->
  rename_whole_words_from name word (w ++ rest)
  = rename_whole_words_from name (word ++ w) rest.
Proof.
  intros Hw. revert word. induction Hw as [|c w Hc _ IH]; intros word.
  - by rewrite app_nil_r.
  - simpl. rewrite Hc, IH. by rewrite <- app_assoc.
Qed.

(** A character that is not a word character separates the text into
    two parts that are renamed on their own. *)
Lemma rename_from_separator (name word a b : str) (sep : char) :
  is_word sep = false ->
  rename_whole_words_from name word (a ++ sep :: b)
  = rename_whole_words_from name word a ++ sep :: rename_whole_words name b.
Proof.
  intros Hsep. revert word. induction a as [|c a IH]; intros word.
  - simpl. by rewrite Hsep.
  - simpl. destruct (is_word c).
    + apply IH.
    + by rewrite IH, <- app_assoc.
Qed.

Lemma rename_whole_words_separator (name a b : str) (sep : char) :
  is_word sep = false ->
  rename_whole_words name (a ++ sep :: b)
  = rename_whole_words name a ++ sep :: rename_whole_words name b.
Proof. apply rename_from_separator. Qed.

(** A text made of word characters is one identifier. *)
Lemma rename_whole_words_identifier (name w : str) :
  Forall (fun c => is_word c = true) w ->
  rename_whole_words name w = rename_word name w.
Proof.
  intros Hw. unfold rename_whole_words.
  rewrite <- (app_nil_r w) at 1. by rewrite rename_from_run.
Qed.

(** Between two separators, the identifier [name] is renamed and any
    other identifier is kept, whatever it contains. *)
Lemma rename_whole_words_between (name a w b : str) (s1 s2 : char) :
  is_word s1 = false -> is_word s2 = false ->
  Forall (fun c => is_word c = true) w ->
  rename_whole_words name (a ++ s1 :: w ++ s2 :: b)
  = rename_whole_words name a
    ++ s1 :: (if bool_decide (w = name) then txt "_" ++ name else w)
    ++ s2 :: rename_whole_words name b.
Proof.
  intros H1 H2 Hw.
  rewrite rename_whole_words_separator by done.
  rewrite rename_whole_words_separator by done.
  by rewrite (rename_whole_words_identifier name w).
Qed.

Section Name.

(** The identifier to rename: non-empty, made of word characters. *)
Variables (n0 : char) (name' : str).
Let name : str := n0 :: name'.
Hypothesis name_is_word : Forall (fun c => is_word c = true) name.

Let new : str := txt "_" ++ name.
Let constant : str -> capture -> str := fun _ _ => new.

Lemma is_word_n0 : is_word n0 = true.
Proof using name_is_word. by apply Forall_cons in name_is_word as [? _]. Qed.

Lemma rename_word_nil : rename_word name [] = [].
Proof using Type. done. Qed.

Lemma rename_word_eq : rename_word name name = txt "_" ++ name.
Proof using Type. unfold rename_word. by rewrite bool_decide_eq_true_2. Qed.

Lemma rename_word_ne (w : str) : w ≠ name -> rename_word name w = w.
Proof using Type. intros H. unfold rename_word. by rewrite bool_decide_eq_false_2. Qed.

Lemma rename_word_is_word (w : str) :
  Forall (fun c => is_word c = true) w ->
  Forall (fun c => is_word c = true) (rename_word name w).
Proof using name_is_word.
  intros Hw. unfold rename_word. case_bool_decide; [|done].
  apply Forall_app. split; [|done]. by repeat constructor.
Qed.

Lemma rename_word_idem (w : str) :
  rename_word name (rename_word name w) = rename_word name w.
Proof using Type.
  destruct (decide (w = name)) as [->|E].
  - rewrite rename_word_eq. apply rename_word_ne.
    intros H. apply (f_equal length) in H. simpl in H. lia.
  - by rewrite !(rename_word_ne w) by done.
Qed.

Lemma rename_block (w rest : str) :
  Forall (fun c => is_word c = true) w ->
  word_after unicode_alnum rest = false ->
  rename_whole_words name (w ++ rest) = rename_word name w ++ after_word name rest.
Proof using Type.
  intros Hw Hrest. unfold rename_whole_words.
  rewrite rename_from_run by done. cbn [app].
  destruct rest as [|y r]; simpl.
  - by rewrite app_nil_r.
  - simpl in Hrest. by rewrite Hrest.
Qed.

(** Renaming twice is renaming once. *)
Lemma rename_whole_words_idem (s : str) :
  rename_whole_words name (rename_whole_words name s) = rename_whole_words name s.
Proof using name_is_word.
  remember (length s) as n eqn:Hn. revert s Hn.
  induction n as [n IH] using lt_wf_ind. intros s ->.
  destruct (word_span s) as (w & rest & -> & Hw & Hrest).
  rewrite rename_block by done.
  rewrite rename_block.
  - rewrite rename_word_idem. f_equal.
    destruct rest as [|y r]; [done|]. simpl. f_equal.
    apply (IH (length r)); [|done]. rewrite length_app. simpl. lia.
  - by apply rename_word_is_word.
  - by destruct rest.
Qed.

Lemma match_at_end prev : match_at (whole_word_re name) prev [] = None.
Proof using Type. rewrite match_at_whole_word. by destruct (xorb _ _). Qed.

Lemma match_at_separator prev (x : char) (s : str) :
  is_word x = false -> match_at (whole_word_re name) prev (x :: s) = None.
Proof using name_is_word.
  intros Hx. rewrite match_at_whole_word. destruct (xorb _ _); [|done].
  unfold name. cbn [startswith]. destruct (N.eqb n0 x) eqn:E; [|done].
  apply N.eqb_eq in E as <-. by rewrite is_word_n0 in Hx.
Qed.

Lemma match_at_inside prev (x : char) (s : str) :
  word_before unicode_alnum prev = true -> is_word x = true ->
  match_at (whole_word_re name) prev (x :: s) = None.
Proof using Type.
  intros Hp Hx. rewrite match_at_whole_word. simpl. by rewrite Hp, Hx.
Qed.

(** Inside an identifier nothing matches: the rest of it is copied. *)
Lemma sub_from_inside prev (w rest : str) :
  Forall (fun c => is_word c = true) w ->
  word_before unicode_alnum prev = true ->
  sub_from (whole_word_re name) constant prev (w ++ rest) 0
  = w ++ sub_from (whole_word_re name) constant (before prev w) rest 0.
Proof using Type.
  intros Hw. revert prev. induction Hw as [|x w Hx _ IH]; intros prev Hp; [done|].
  rewrite <- app_comm_cons, sub_from_miss by (by apply match_at_inside).
  by rewrite IH, before_cons.
Qed.

Lemma startswith_in_run (l w rest : str) :
  Forall (fun c => is_word c = true) l ->
  word_after unicode_alnum rest = false ->
  startswith l (w ++ rest) = true -> exists w', w = l ++ w'.
Proof using Type.
  intros Hl Hrest. revert w. induction Hl as [|a l Ha _ IH]; intros w H.
  - by exists w.
  - destruct w as [|x w].
    + destruct rest as [|y r]; [done|]. simpl in H, Hrest.
      apply andb_true_iff in H as [E _]. apply N.eqb_eq in E as <-. congruence.
    + simpl in H. apply andb_true_iff in H as [E H]. apply N.eqb_eq in E as <-.
      destruct (IH _ H) as [w' ->]. by exists w'.
Qed.

(** At the start of an identifier: it is replaced when it is [name], and
    copied otherwise. *)
Lemma sub_from_word prev (x : char) (w rest : str) :
  word_before unicode_alnum prev = false ->
  Forall (fun c => is_word c = true) (x :: w) ->
  word_after unicode_alnum rest = false ->
  sub_from (whole_word_re name) constant prev ((x :: w) ++ rest) 0
  = rename_word name (x :: w)
    ++ sub_from (whole_word_re name) constant (before prev (x :: w)) rest 0.
Proof using name_is_word.
  intros Hp Hw Hrest. pose proof Hw as Hxw. apply Forall_cons in Hw as [Hx Hw].
  unfold rename_word. case_bool_decide as E.
  - (* the identifier is [name] *)
    unfold name in E. injection E as -> ->.
    rewrite <- app_comm_cons.
    rewrite (sub_from_hit _ _ _ _ _ (length name') Unopened).
    + unfold constant at 1. f_equal.
      rewrite sub_from_skip by (right; apply match_at_end).
      by rewrite before_cons.
    + rewrite match_at_whole_word. simpl word_after. rewrite Hp, Hx. cbn [xorb].
      rewrite app_comm_cons. fold name. rewrite startswith_app, drop_app_length.
      rewrite word_before_run, Hrest by done. done.
  - (* another identifier *)
    rewrite <- app_comm_cons, sub_from_miss.
    + rewrite sub_from_inside by done. by rewrite before_cons.
    + rewrite match_at_whole_word. simpl word_after. rewrite Hp, Hx. cbn [xorb].
      rewrite app_comm_cons.
      destruct (startswith name ((x :: w) ++ rest)) eqn:S; [|done].
      apply startswith_in_run in S as [w' Ew]; [|done..].
      destruct w' as [|y w']; [by rewrite app_nil_r in Ew|].
      rewrite Ew in Hxw. apply Forall_app in Hxw as [_ Hy].
      apply Forall_cons in Hy as [Hy _].
      unfold name in Ew. injection Ew as _ ->.
      rewrite <- app_assoc, drop_app_length, word_before_run by done.
      simpl. by rewrite Hy.
Qed.

(** [re.sub] with the whole-word pattern renames by identifiers. *)
Lemma sub_from_rename prev (s : str) :
  word_before unicode_alnum prev = false ->
  sub_from (whole_word_re name) constant prev s 0 = rename_whole_words name s.
Proof using name_is_word.
  remember (length s) as n eqn:Hn. revert s prev Hn.
  induction n as [n IH] using lt_wf_ind. intros s prev -> Hp.
  destruct (word_span s) as (w & rest & -> & Hw & Hrest).
  rewrite rename_block by done.
  assert (Hafter : forall prev',
    sub_from (whole_word_re name) constant prev' rest 0 = after_word name rest).
  { intros prev'. destruct rest as [|y r].
    - cbn [sub_from]. by rewrite match_at_end.
    - simpl in Hrest. rewrite sub_from_miss by (by apply match_at_separator).
      simpl. f_equal. apply (IH (length r)); [|done|].
      + rewrite length_app. simpl. lia.
      + simpl. done. }
  destruct w as [|x w].
  - by rewrite rename_word_nil, Hafter.
  - by rewrite sub_from_word, Hafter.
Qed.

Lemma sub_rename (s : str) :
  sub (whole_word_re name) constant s = rename_whole_words name s.
Proof using name_is_word. by apply sub_from_rename. Qed.

End Name.

End Words.

Lemma prefix_variable_unreported (unicode_alnum : char -> bool) (content warning : str) :
  reported_variable warning = None ->
  prefix_variable unicode_alnum content warning = Ret content.
Proof.
  unfold reported_variable, prefix_variable. by destruct (search _ warning).
Qed.

Section Count.

Variable unicode_alnum : char -> bool.

Lemma count_is_word :
  Forall (fun c => is_word unicode_alnum c = true) (txt "count").
Proof. by repeat constructor. Qed.

Lemma reported_variable_inv (warning name : str) :
  reported_variable warning = Some name ->
  search unused_variable_re warning = Some (Captured name).
Proof.
  unfold reported_variable. destruct (search _ warning) as [k|] eqn:E; [|done].
  intros [= <-]. apply search_quoted_inv in E as (? & g & ? & _ & _ & _ & ->). done.
Qed.

Lemma prefix_variable_count (content warning : str) :
  reported_variable warning = Some (txt "count") ->
  prefix_variable unicode_alnum content warning
  = Ret (rename_whole_words unicode_alnum (txt "count") content).
Proof.
  intros H. apply reported_variable_inv in H.
  unfold prefix_variable. rewrite H. cbn [group1].
  rewrite sub_template_plain by reflexivity. f_equal.
  apply (sub_rename unicode_alnum 99%N (txt "ount")), count_is_word.
Qed.

(** A loop over warnings that report [count], or nothing, renames once
    if any of them reports it. *)
Lemma fold_prefix_count (l : list str) (content : str) :
  (forall d name, d ∈ l -> reported_variable d = Some name -> name = txt "count") ->
  fold_for (prefix_variable unicode_alnum) l content
  = Ret (if bool_decide (Exists (fun d => reported_variable d = Some (txt "count")) l)
         then rename_whole_words unicode_alnum (txt "count") content
         else content).
Proof.
  revert content. induction l as [|d l IH]; intros content H.
  - cbn [fold_for]. rewrite bool_decide_eq_false_2; [done|]. by intros ?%Exists_nil.
  - cbn [fold_for]. destruct (reported_variable d) as [name|] eqn:E.
    + assert (name = txt "count") as -> by (apply (H d); [by left|done]).
      rewrite prefix_variable_count by done.
      rewrite IH by (intros d' name' Hd'; apply H; by right).
      rewrite (bool_decide_eq_true_2 (Exists _ (d :: l))) by (by left).
      case_bool_decide; [|done].
      f_equal. apply (rename_whole_words_idem unicode_alnum 99%N (txt "ount")), count_is_word.
    + rewrite prefix_variable_unreported by done.
      rewrite IH by (intros d' name' Hd'; apply H; by right).
      f_equal.
      rewrite (bool_decide_ext
                 (Exists (fun d => reported_variable d = Some (txt "count")) (d :: l))
                 (Exists (fun d => reported_variable d = Some (txt "count")) l)); [done|].
      rewrite Exists_cons. split; [|by right]. intros [Hd|Hl]; [congruence|done].
Qed.

End Count.

End VariableFacts.
Export VariableFacts.

(** ** The claims *)

Module Claims.

(** *** C5 *)

(** C5. A warning line is selected for a pass of a file exactly when it
    contains the file path and the marker of the pass: [unused import]
    for the import pass, [unused variable] for the variable pass. *)
Theorem file_warnings_selects (file_path w : str) (warnings : list str) :
  (w ∈ file_warnings (txt "unused import") file_path warnings <->
     w ∈ warnings /\ substring file_path w /\ substring (txt "unused import") w) /\
  (w ∈ file_warnings (txt "unused variable") file_path warnings <->
     w ∈ warnings /\ substring file_path w /\ substring (txt "unused variable") w).
Proof. split; apply elem_of_file_warnings. Qed.

(** *** C8 *)

(** C8. On a path that does not exist both passes return normally and
    leave the world, its log included, as it was: no file is read or
    written. *)
Theorem passes_skip_missing_file (unicode_alnum : char -> bool)
    (file_path : str) (warnings : list str) (w : world) :
  files w !! file_path = None ->
  fix_unused_imports file_path warnings w = (Ret tt, w) /\
  fix_unused_variables unicode_alnum file_path warnings w = (Ret tt, w).
Proof.
  intros H. rewrite fix_unused_imports_patch, fix_unused_variables_patch.
  split; by apply patch_missing.
Qed.

Lemma passes_skip_missing_file_witness :
  fix_unused_imports main_rs [unused_foo_bar] (on_disk (txt "src/lib.rs") (txt "use foo::Bar;"))
    = (Ret tt, on_disk (txt "src/lib.rs") (txt "use foo::Bar;")) /\
  fix_unused_variables ascii_only main_rs [unused_foo_bar]
      (on_disk (txt "src/lib.rs") (txt "use foo::Bar;"))
    = (Ret tt, on_disk (txt "src/lib.rs") (txt "use foo::Bar;")).
Proof.
  apply (passes_skip_missing_file ascii_only main_rs [unused_foo_bar]
           (on_disk (txt "src/lib.rs") (txt "use foo::Bar;"))).
  vm_compute. reflexivity.
Defined.

(** *** C9 *)

(** A warning that reports a symbol contains the marker of its pass. *)
Lemma reported_import_selected (file_path d name : str) :
  substring file_path d -> reported_import d = Some name ->
  contains file_path d && contains (txt "unused import") d = true.
Proof.
  intros Hpath Hrep. apply andb_true_iff. split; apply contains_spec; [done|].
  apply reported_import_inv, search_quoted_inv in Hrep as (pre & g & post & -> & _).
  exists pre, (txt ": `" ++ g ++ [96%N] ++ post).
  change (txt "unused import: `") with (txt "unused import" ++ txt ": `").
  by rewrite <- app_assoc.
Qed.

Lemma reported_variable_selected (file_path d name : str) :
  substring file_path d -> reported_variable d = Some name ->
  contains file_path d && contains (txt "unused variable") d = true.
Proof.
  intros Hpath Hrep. apply andb_true_iff. split; apply contains_spec; [done|].
  apply reported_variable_inv, search_quoted_inv in Hrep as (pre & g & post & -> & _).
  exists pre, (txt ": `" ++ g ++ [96%N] ++ post).
  change (txt "unused variable: `") with (txt "unused variable" ++ txt ": `").
  by rewrite <- app_assoc.
Qed.

Lemma unquoted_import (d : str) :
  ~ quoted_after (txt "unused import: ") d -> reported_import d = None.
Proof.
  intros H. unfold reported_import.
  change unused_import_re with
    (escape (txt "unused import: " ++ [96%N])
       ++ [GroupOpen; NotPlus 96%N; GroupClose; Chr 96%N]).
  by rewrite search_unquoted.
Qed.

Lemma unquoted_variable (d : str) :
  ~ quoted_after (txt "unused variable: ") d -> reported_variable d = None.
Proof.
  intros H. unfold reported_variable.
  change unused_variable_re with
    (escape (txt "unused variable: " ++ [96%N])
       ++ [GroupOpen; NotPlus 96%N; GroupClose; Chr 96%N]).
  by rewrite search_unquoted.
Qed.

(** The warnings selected from a list with [d] in it. *)
Lemma elem_of_file_warnings_around (marker file_path d d' : str) (ws1 ws2 ws3 : list str) :
  d' ∈ file_warnings marker file_path (ws1 ++ d :: ws2) ->
  d' = d \/ d' ∈ file_warnings marker file_path (ws1 ++ ws2 ++ ws3).
Proof.
  rewrite !elem_of_file_warnings. intros (Hin & Hrest).
  apply elem_of_app in Hin as [Hin|Hin].
  - right. split; [|done]. apply elem_of_app. by left.
  - apply elem_of_cons in Hin as [->|Hin]; [by left|right].
    split; [|done]. rewrite !elem_of_app. auto.
Qed.

(** C9. A warning without a backtick-quoted symbol after
    [unused import: ] (respectively [unused variable: ]) changes nothing
    and raises nothing: the loop body returns the content as it is, and
    the pass behaves as if the warning were not in the list.  The
    warnings after it are still processed: a later warning for the file
    that reports [foo::Bar] has every [use foo::Bar;] commented out (the
    other selected warnings reporting nothing, the content as in C1), and
    a later warning that reports [count] has [count] renamed (the other
    selected warnings reporting no other symbol). *)
Theorem passes_skip_unquoted (unicode_alnum : char -> bool)
    (file_path d : str) (ws1 ws2 : list str) (w : world) :
  (~ quoted_after (txt "unused import: ") d ->
     (forall content, comment_import content d = Ret content) /\
     fix_unused_imports file_path (ws1 ++ d :: ws2) w
     = fix_unused_imports file_path (ws1 ++ ws2) w /\
     (forall (d2 : str) (ws3 : list str) (pieces : list str),
        files w !! file_path = Some (File (join (txt "use foo::Bar;") pieces)) ->
        Forall (fun a => ~ substring (txt "use foo::Bar;") a) pieces ->
        ~ substring (txt "{foo::Bar") (join (txt "use foo::Bar;") pieces) ->
        substring file_path d2 ->
        reported_import d2 = Some (txt "foo::Bar") ->
        (forall d', d' ∈ file_warnings (txt "unused import") file_path (ws1 ++ ws2 ++ ws3) ->
           reported_import d' = None) ->
        fix_unused_imports file_path (ws1 ++ d :: ws2 ++ d2 :: ws3) w
        = (Ret tt,
           World (<[file_path := File (join (txt "// use foo::Bar;") pieces)]> (files w))
             (cargo w) (spawned w)
             (log w ++ [EvRead file_path;
                        EvWrite file_path (join (txt "// use foo::Bar;") pieces)])))) /\
  (~ quoted_after (txt "unused variable: ") d ->
     (forall content, prefix_variable unicode_alnum content d = Ret content) /\
     fix_unused_variables unicode_alnum file_path (ws1 ++ d :: ws2) w
     = fix_unused_variables unicode_alnum file_path (ws1 ++ ws2) w /\
     (forall (d2 : str) (ws3 : list str) (content : str),
        files w !! file_path = Some (File content) ->
        substring file_path d2 ->
        reported_variable d2 = Some (txt "count") ->
        (forall d' name,
           d' ∈ file_warnings (txt "unused variable") file_path (ws1 ++ ws2 ++ ws3) ->
           reported_variable d' = Some name -> name = txt "count") ->
        fix_unused_variables unicode_alnum file_path (ws1 ++ d :: ws2 ++ d2 :: ws3) w
        = (Ret tt,
           World (<[file_path :=
                      File (rename_whole_words unicode_alnum (txt "count") content)]> (files w))
             (cargo w) (spawned w)
             (log w ++ [EvRead file_path;
                        EvWrite file_path
                          (rename_whole_words unicode_alnum (txt "count") content)])))).
Proof.
  split; intros H.
  - assert (Hnone : reported_import d = None) by (by apply unquoted_import).
    assert (Hd : forall content, comment_import content d = Ret content).
    { intros content. by apply comment_import_unreported. }
    split; [done|]. split; [rewrite fix_unused_imports_patch; by apply patch_skip|].
    intros d2 ws3 pieces Hfile Hpieces Hbrace Hpath Hrep Hothers.
    rewrite fix_unused_imports_patch, (patch_file _ _ _ _ _ _ Hfile).
    replace (ws1 ++ d :: ws2 ++ d2 :: ws3) with ((ws1 ++ d :: ws2) ++ d2 :: ws3)
      by (by rewrite <- app_assoc).
    rewrite file_warnings_app, file_warnings_cons,
      (reported_import_selected _ _ _ Hpath Hrep), fold_for_app.
    rewrite fold_for_skip.
    + cbn [fold_for]. rewrite comment_import_foo_bar by done.
      rewrite fold_for_skip; [done|].
      apply Forall_forall. intros d' Hd' content.
      apply comment_import_unreported, Hothers.
      rewrite !file_warnings_app, !elem_of_app. auto.
    + apply Forall_forall. intros d' Hd' content.
      apply (elem_of_file_warnings_around _ _ _ _ _ _ ws3) in Hd' as [->|Hd']; [done|].
      by apply comment_import_unreported, Hothers.
  - assert (Hnone : reported_variable d = None) by (by apply unquoted_variable).
    assert (Hd : forall content, prefix_variable unicode_alnum content d = Ret content).
    { intros content. by apply prefix_variable_unreported. }
    split; [done|]. split; [rewrite fix_unused_variables_patch; by apply patch_skip|].
    intros d2 ws3 content Hfile Hpath Hrep Hothers.
    rewrite fix_unused_variables_patch, (patch_file _ _ _ _ _ _ Hfile).
    replace (ws1 ++ d :: ws2 ++ d2 :: ws3) with ((ws1 ++ d :: ws2) ++ d2 :: ws3)
      by (by rewrite <- app_assoc).
    assert (Hin : d2 ∈ file_warnings (txt "unused variable") file_path
                         ((ws1 ++ d :: ws2) ++ d2 :: ws3)).
    { rewrite file_warnings_app, file_warnings_cons,
        (reported_variable_selected _ _ _ Hpath Hrep).
      apply elem_of_app. right. by left. }
    rewrite fold_prefix_count.
    + rewrite bool_decide_eq_true_2; [done|]. apply Exists_exists. by exists d2.
    + intros d' name Hd' Hname. rewrite file_warnings_app in Hd'.
      apply elem_of_app in Hd' as [Hd'|Hd'].
      * apply (elem_of_file_warnings_around _ _ _ _ _ _ ws3) in Hd' as [->|Hd'];
          [congruence|]. by apply (Hothers d').
      * rewrite file_warnings_cons, (reported_variable_selected _ _ _ Hpath Hrep) in Hd'.
        apply elem_of_cons in Hd' as [->|Hd']; [congruence|].
        apply (Hothers d'); [|done]. rewrite !file_warnings_app, !elem_of_app. auto.
Qed.

Lemma passes_skip_unquoted_witness :
  ((forall content, comment_import content unquoted_warning = Ret content) /\
   fix_unused_imports main_rs ([other_warning] ++ unquoted_warning :: [unused_foo_bar])
     (on_disk main_rs (txt "use foo::Bar; fn main() {}"))
   = fix_unused_imports main_rs ([other_warning] ++ [unused_foo_bar])
       (on_disk main_rs (txt "use foo::Bar; fn main() {}")) /\
   content_after
     (fix_unused_imports main_rs
        ([other_warning] ++ unquoted_warning :: [unused_count] ++ unused_foo_bar :: [])
        (on_disk main_rs (txt "use foo::Bar; fn main() {}"))) main_rs
   = Some (File (txt "// use foo::Bar; fn main() {}"))) /\
  ((forall content, prefix_variable ascii_only content unquoted_warning = Ret content) /\
   fix_unused_variables ascii_only main_rs ([other_warning] ++ unquoted_warning :: [unused_count])
     (on_disk main_rs (txt "let count = 1; recount(count)"))
   = fix_unused_variables ascii_only main_rs ([other_warning] ++ [unused_count])
       (on_disk main_rs (txt "let count = 1; recount(count)")) /\
   content_after
     (fix_unused_variables ascii_only main_rs
        ([other_warning] ++ unquoted_warning :: [unused_foo_bar] ++ unused_count :: [])
        (on_disk main_rs (txt "let count = 1; recount(count)"))) main_rs
   = Some (File (txt "let _count = 1; recount(_count)"))).
Proof.
  pose proof (passes_skip_unquoted ascii_only main_rs unquoted_warning
                [other_warning] [unused_foo_bar]
                (on_disk main_rs (txt "use foo::Bar; fn main() {}"))) as [H1 _].
  pose proof (passes_skip_unquoted ascii_only main_rs unquoted_warning
                [other_warning] [unused_count]
                (on_disk main_rs (txt "use foo::Bar; fn main() {}"))) as [H1' _].
  pose proof (passes_skip_unquoted ascii_only main_rs unquoted_warning
                [other_warning] [unused_count]
                (on_disk main_rs (txt "let count = 1; recount(count)"))) as [_ H2].
  pose proof (passes_skip_unquoted ascii_only main_rs unquoted_warning
                [other_warning] [unused_foo_bar]
                (on_disk main_rs (txt "let count = 1; recount(count)"))) as [_ H2'].
  assert (Hi : ~ quoted_after (txt "unused import: ") unquoted_warning).
  { intros H. apply quoted_after_search in H. vm_compute in H.
    destruct H as [k H]. discriminate H. }
  assert (Hv : ~ quoted_after (txt "unused variable: ") unquoted_warning).
  { intros H. apply quoted_after_search in H. vm_compute in H.
    destruct H as [k H]. discriminate H. }
  destruct (H1 Hi) as (Ha & Hb & _). destruct (H1' Hi) as (_ & _ & Hc).
  destruct (H2 Hv) as (Ha2 & Hb2 & _). destruct (H2' Hv) as (_ & _ & Hc2).
  split.
  - split; [exact Ha|]. split; [exact Hb|]. unfold content_after.
    rewrite (Hc unused_foo_bar [] [[]; txt " fn main() {}"]).
    + vm_compute. reflexivity.
    + vm_compute. reflexivity.
    + repeat constructor; apply contains_false; vm_compute; reflexivity.
    + apply contains_false. vm_compute. reflexivity.
    + apply contains_spec. vm_compute. reflexivity.
    + vm_compute. reflexivity.
    + intros d' Hd'. vm_compute in Hd'. by apply elem_of_nil in Hd'.
  - split; [exact Ha2|]. split; [exact Hb2|]. unfold content_after.
    rewrite (Hc2 unused_count [] (txt "let count = 1; recount(count)")).
    + vm_compute. reflexivity.
    + vm_compute. reflexivity.
    + apply contains_spec. vm_compute. reflexivity.
    + vm_compute. reflexivity.
    + intros d' name Hd'. vm_compute in Hd'. by apply elem_of_nil in Hd'.
Defined.

(** *** C7 *)

Lemma files_to_fix_step_inv (ws : list str) (acc : gset str) (p : str) :
  p ∈ foldl (fun acc warning =>
               if contains (txt "-->") warning then
                 match search location_re warning with
                 | Some file_match => acc ∪ {[ group1 file_match ]}
                 | None => acc
                 end
               else acc) acc ws ->
  p ∈ acc \/
  exists w pre post, w ∈ ws /\ substring (txt "-->") w /\
    w = pre ++ txt "--> " ++ p ++ txt ":" ++ post /\ p ≠ [] /\ 58%N ∉ p.
Proof.
  revert acc. induction ws as [|w ws IH]; intros acc H; [by left|].
  cbn [foldl] in H. apply IH in H as [H|(w' & pre & post & Hin & Hrest)].
  - destruct (contains (txt "-->") w) eqn:Hm; [|by left].
    destruct (search location_re w) as [k|] eqn:Hs; [|by left].
    apply elem_of_union in H as [H|H]; [by left|right].
    apply elem_of_singleton in H as ->.
    apply search_quoted_inv in Hs as (pre & g & post & -> & Hg & Hc & ->).
    exists (pre ++ txt "--> " ++ g ++ [58%N] ++ post), pre, post.
    split_and!; [by left| |done..].
    by apply contains_spec.
  - right. exists w', pre, post. split; [by right|done].
Qed.

(** C7. Every path in the set of files to fix comes from a warning that
    contains [-->] and, after [--> ], the path (non-empty, without colon)
    followed by a colon; a warning without [-->] contributes nothing: the
    set is the one obtained without it. *)
Theorem files_to_fix_needs_location (warnings : list str) :
  (forall p, p ∈ files_to_fix warnings ->
     exists w pre post, w ∈ warnings /\ substring (txt "-->") w /\
       w = pre ++ txt "--> " ++ p ++ txt ":" ++ post /\ p ≠ [] /\ 58%N ∉ p) /\
  (forall ws1 w ws2, warnings = ws1 ++ w :: ws2 -> ~ substring (txt "-->") w ->
     files_to_fix warnings = files_to_fix (ws1 ++ ws2)).
Proof.
  split.
  - intros p H. apply files_to_fix_step_inv in H as [H|H]; [|done].
    by apply not_elem_of_empty in H.
  - intros ws1 w ws2 -> H. unfold files_to_fix. rewrite !foldl_app. cbn [foldl].
    apply contains_false in H. by rewrite H.
Qed.

Lemma files_to_fix_needs_location_witness :
  (exists w pre post, w ∈ [other_warning; txt "warning: unused"] /\
     substring (txt "-->") w /\
     w = pre ++ txt "--> " ++ main_rs ++ txt ":" ++ post /\ main_rs ≠ [] /\ 58%N ∉ main_rs) /\
  files_to_fix [other_warning; txt "warning: unused"] = files_to_fix ([other_warning] ++ []).
Proof.
  destruct (files_to_fix_needs_location [other_warning; txt "warning: unused"])
    as [H1 H2].
  split.
  - apply H1. vm_compute. reflexivity.
  - apply (H2 [other_warning] (txt "warning: unused") []); [reflexivity|].
    apply contains_false. reflexivity.
Defined.

(** *** C6 *)

(** C6. When spawning the checker raises, [run_cargo_check] returns the
    pair of empty outputs; [main] then returns normally, finds 0
    warnings and 0 files to fix, leaves the files as they are and logs no
    read and no write. *)
Theorem main_without_checker (unicode_alnum : char -> bool) (w : world) :
  cargo w (spawned w) = SpawnFails ->
  run_cargo_check w
  = (Ret ([], []),
     World (files w) (cargo w) (S (spawned w)) (log w ++ [EvSpawn; EvPrint MsgSpawnError])) /\
  warning_lines ([] ++ []) = [] /\
  files_to_fix [] = ∅ /\
  exists tail,
    main unicode_alnum w
    = (Ret tt,
       World (files w) (cargo w) (S (S (spawned w)))
         (log w ++ [EvPrint MsgStart; EvSpawn; EvPrint MsgSpawnError;
                    EvPrint (MsgFound 0); EvPrint (MsgFiles 0);
                    EvPrint MsgDone; EvPrint MsgRecheck; EvSpawn] ++ tail)) /\
    Forall (fun e => is_fs_event e = false) tail.
Proof.
  intros H. split_and!; [|done|done|].
  - unfold run_cargo_check, bind, subprocess_run, print, emit, ret. rewrite H.
    cbn [files cargo spawned log]. by rewrite <- app_assoc.
  - unfold main, run_cargo_check, bind, subprocess_run, print, emit, ret.
    cbn [files cargo spawned log]. rewrite H. cbn [files cargo spawned log fst snd].
    change (warning_lines ([] ++ [])) with (@nil str).
    change (files_to_fix []) with (∅ : gset str).
    rewrite elements_empty, size_empty. cbn [for_each length].
    unfold ret. cbn [files cargo spawned log].
    destruct (cargo w (S (spawned w))) as [|stdout stderr].
    + eexists. split.
      * cbn [files cargo spawned log fst snd]. do 2 f_equal.
        rewrite <- !app_assoc. cbn [app]. reflexivity.
      * by repeat constructor.
    + eexists. split.
      * cbn [files cargo spawned log fst snd]. do 2 f_equal.
        rewrite <- !app_assoc. cbn [app]. reflexivity.
      * by repeat constructor.
Qed.

Lemma main_without_checker_witness :
  exists tail,
    main ascii_only (on_disk main_rs (txt "use foo::Bar;"))
    = (Ret tt,
       World {[ main_rs := File (txt "use foo::Bar;") ]} (fun _ => SpawnFails) 2
         ([EvPrint MsgStart; EvSpawn; EvPrint MsgSpawnError;
           EvPrint (MsgFound 0); EvPrint (MsgFiles 0);
           EvPrint MsgDone; EvPrint MsgRecheck; EvSpawn] ++ tail)) /\
    Forall (fun e => is_fs_event e = false) tail.
Proof.
  destruct (main_without_checker ascii_only (on_disk main_rs (txt "use foo::Bar;")) eq_refl)
    as (_ & _ & _ & H).
  exact H.
Defined.

(** *** C4 *)

(** C4. When the warnings selected for a file report [count] (at least
    one does, none reports another identifier), the variable pass writes
    the content renamed by identifiers: every identifier that is exactly
    [count] becomes [_count], every other identifier, one that contains
    [count] included, and every other character is kept. *)
Theorem fix_unused_variables_renames_count (unicode_alnum : char -> bool)
    (file_path content d : str) (warnings : list str) (w : world) :
  files w !! file_path = Some (File content) ->
  d ∈ file_warnings (txt "unused variable") file_path warnings ->
  reported_variable d = Some (txt "count") ->
  (forall d' name, d' ∈ file_warnings (txt "unused variable") file_path warnings ->
     reported_variable d' = Some name -> name = txt "count") ->
  fix_unused_variables unicode_alnum file_path warnings w
  = (Ret tt,
     World (<[file_path := File (rename_whole_words unicode_alnum (txt "count") content)]> (files w))
       (cargo w) (spawned w)
       (log w ++ [EvRead file_path;
                  EvWrite file_path (rename_whole_words unicode_alnum (txt "count") content)])).
Proof.
  intros Hfile Hd Hcount Hall.
  rewrite fix_unused_variables_patch, (patch_file _ _ _ content) by done.
  rewrite fold_prefix_count by done.
  rewrite bool_decide_eq_true_2; [done|].
  apply Exists_exists. by exists d.
Qed.

Lemma fix_unused_variables_renames_count_witness :
  content_after
    (fix_unused_variables ascii_only main_rs [other_warning; unused_count]
       (on_disk main_rs (txt "let count = 1; discounted(count, recount); count_2 + count")))
    main_rs
  = Some (File (txt "let _count = 1; discounted(_count, recount); count_2 + _count")).
Proof.
  rewrite (fix_unused_variables_renames_count ascii_only main_rs
             (txt "let count = 1; discounted(count, recount); count_2 + count")
             unused_count [other_warning; unused_count]).
  - vm_compute. reflexivity.
  - vm_compute. reflexivity.
  - vm_compute. apply list_elem_of_here.
  - vm_compute. reflexivity.
  - intros d' name Hd'. vm_compute in Hd'.
    apply list_elem_of_singleton in Hd' as ->. vm_compute. by intros [= <-].
Defined.

(** *** C3 *)

(** C3. Running the variable pass a second time with the same warnings,
    which report no identifier other than [count], gives the same result
    and leaves every file as the first run left it: no [_count] becomes
    [__count]. *)
Theorem fix_unused_variables_twice (unicode_alnum : char -> bool)
    (file_path : str) (warnings : list str) (w : world) :
  (forall d name, d ∈ file_warnings (txt "unused variable") file_path warnings ->
     reported_variable d = Some name -> name = txt "count") ->
  (fix_unused_variables unicode_alnum file_path warnings
     (fix_unused_variables unicode_alnum file_path warnings w).2).1
  = (fix_unused_variables unicode_alnum file_path warnings w).1 /\
  files (fix_unused_variables unicode_alnum file_path warnings
           (fix_unused_variables unicode_alnum file_path warnings w).2).2
  = files (fix_unused_variables unicode_alnum file_path warnings w).2.
Proof.
  intros Hall. rewrite fix_unused_variables_patch.
  destruct (files w !! file_path) as [[content|]|] eqn:E.
  - rewrite (patch_file _ _ _ content warnings w) by done.
    rewrite fold_prefix_count by done. cbn [fst snd].
    set (content' := if bool_decide _ then _ else content).
    rewrite (patch_file _ _ _ content') by apply lookup_insert_eq.
    rewrite fold_prefix_count by done. cbn [fst snd files].
    assert (Hidem : (if bool_decide (Exists (fun d => reported_variable d = Some (txt "count"))
                                       (file_warnings (txt "unused variable") file_path warnings))
                     then rename_whole_words unicode_alnum (txt "count") content'
                     else content') = content').
    { unfold content'. case_bool_decide; [|done].
      apply (rename_whole_words_idem unicode_alnum 99%N (txt "ount")), count_is_word. }
    rewrite Hidem. split; [done|]. apply insert_insert_eq.
  - rewrite (patch_directory _ _ _ warnings w) by done. cbn [fst snd].
    by rewrite patch_directory.
  - rewrite (patch_missing _ _ _ warnings w) by done. cbn [fst snd].
    by rewrite patch_missing.
Qed.

Lemma fix_unused_variables_twice_witness :
  content_after
    (fix_unused_variables ascii_only main_rs [unused_count]
       (fix_unused_variables ascii_only main_rs [unused_count]
          (on_disk main_rs (txt "let count = 1; count"))).2) main_rs
  = Some (File (txt "let _count = 1; _count")).
Proof.
  unfold content_after.
  destruct (fix_unused_variables_twice ascii_only main_rs [unused_count]
              (on_disk main_rs (txt "let count = 1; count"))) as [_ ->].
  - intros d name Hd. vm_compute in Hd.
    apply list_elem_of_singleton in Hd as ->. vm_compute. by intros [= <-].
  - vm_compute. reflexivity.
Defined.

(** *** C1 *)

(** C1, as stated, fails: a warnings list may hold the same diagnostic
    twice, and the second round comments the commented statement again. *)
Lemma fix_unused_imports_repeated_warning :
  content_after
    (fix_unused_imports main_rs [unused_foo_bar; unused_foo_bar]
       (on_disk main_rs (txt "use foo::Bar;"))) main_rs
  = Some (File (txt "// // use foo::Bar;")) /\
  txt "// // use foo::Bar;" ≠ txt "// use foo::Bar;".
Proof. split; [vm_compute; reflexivity|discriminate]. Qed.

(** With a single diagnostic too, content other than the statement may
    change: the brace pattern comments out a grouped import that starts
    with the symbol. *)
Lemma fix_unused_imports_changes_grouped_import :
  content_after
    (fix_unused_imports main_rs [unused_foo_bar]
       (on_disk main_rs (txt "use foo::Bar; use x::{foo::Bar, Baz};"))) main_rs
  = Some (File (txt "// use foo::Bar; // use x::{foo::Bar, Baz};")).
Proof. vm_compute. reflexivity. Qed.

(** The symbol a warning reports is the first quoted one: a later
    [unused import: `foo::Bar`] in the same line is not looked at. *)
Lemma fix_unused_imports_first_symbol_only :
  content_after
    (fix_unused_imports main_rs
       [txt "src/main.rs: unused import: `x`, unused import: `foo::Bar`"]
       (on_disk main_rs (txt "use foo::Bar;"))) main_rs
  = Some (File (txt "use foo::Bar;")).
Proof. vm_compute. reflexivity. Qed.

(** C1 (amended). Let exactly one of the warnings selected for the file
    report a symbol, [foo::Bar], and let the content, which is any
    pieces free of the statement joined by [use foo::Bar;], nowhere
    contain [{foo::Bar].  Then the pass reads the file and writes it back
    with every [use foo::Bar;] replaced by [// use foo::Bar;] and every
    piece unchanged. *)
Theorem fix_unused_imports_comments_statement
    (file_path d : str) (pieces : list str) (ws1 ws2 : list str) (w : world) :
  files w !! file_path = Some (File (join (txt "use foo::Bar;") pieces)) ->
  Forall (fun a => ~ substring (txt "use foo::Bar;") a) pieces ->
  ~ substring (txt "{foo::Bar") (join (txt "use foo::Bar;") pieces) ->
  substring file_path d ->
  reported_import d = Some (txt "foo::Bar") ->
  (forall d', d' ∈ file_warnings (txt "unused import") file_path (ws1 ++ ws2) ->
     reported_import d' = None) ->
  fix_unused_imports file_path (ws1 ++ d :: ws2) w
  = (Ret tt,
     World (<[file_path := File (join (txt "// use foo::Bar;") pieces)]> (files w))
       (cargo w) (spawned w)
       (log w ++ [EvRead file_path;
                  EvWrite file_path (join (txt "// use foo::Bar;") pieces)])).
Proof.
  intros Hfile Hpieces Hbrace Hpath Hrep Hothers.
  rewrite fix_unused_imports_patch, (patch_file _ _ _ _ _ _ Hfile).
  assert (Hsel : contains file_path d && contains (txt "unused import") d = true).
  { apply andb_true_iff. split; apply contains_spec; [done|].
    apply reported_import_inv, search_quoted_inv in Hrep
      as (pre & g & post & -> & _).
    exists pre, (txt ": `" ++ g ++ [96%N] ++ post).
    change (txt "unused import: `") with (txt "unused import" ++ txt ": `").
    by rewrite <- app_assoc. }
  rewrite file_warnings_app, file_warnings_cons, Hsel, fold_for_app.
  rewrite file_warnings_app in Hothers.
  rewrite fold_for_skip.
  - cbn [fold_for]. rewrite comment_import_foo_bar by done.
    rewrite fold_for_skip; [done|].
    apply Forall_forall. intros d' Hd' content.
    apply comment_import_unreported, Hothers, elem_of_app. by right.
  - apply Forall_forall. intros d' Hd' content.
    apply comment_import_unreported, Hothers, elem_of_app. by left.
Qed.

Lemma fix_unused_imports_comments_statement_witness :
  content_after
    (fix_unused_imports main_rs ([other_warning] ++ unused_foo_bar :: [unused_count])
       (on_disk main_rs (txt "mod m { fn f() {} } use foo::Bar; fn main() { use foo::Bar; }")))
    main_rs
  = Some (File (txt "mod m { fn f() {} } // use foo::Bar; fn main() { // use foo::Bar; }")).
Proof.
  rewrite (fix_unused_imports_comments_statement main_rs unused_foo_bar
             [txt "mod m { fn f() {} } "; txt " fn main() { "; txt " }"]
             [other_warning] [unused_count]).
  - vm_compute. reflexivity.
  - vm_compute. reflexivity.
  - repeat constructor; apply contains_false; vm_compute; reflexivity.
  - apply contains_false. vm_compute. reflexivity.
  - apply contains_spec. vm_compute. reflexivity.
  - vm_compute. reflexivity.
  - intros d' Hd'. vm_compute in Hd'. by apply elem_of_nil in Hd'.
Defined.

(** *** C2 *)

(** A file that has neither [use NAME;] nor [{NAME] is written back as it
    was: a grouped import is reached only through a symbol that stands
    directly after the brace. *)
Lemma fix_unused_imports_untouched
    (file_path d name content : str) (w : world) :
  files w !! file_path = Some (File content) ->
  reported_import d = Some name -> 92%N ∉ name ->
  ~ substring (txt "use " ++ name ++ txt ";") content ->
  ~ substring (123%N :: name) content ->
  fix_unused_imports file_path [d] w
  = (Ret tt,
     World (<[file_path := File content]> (files w)) (cargo w) (spawned w)
       (log w ++ [EvRead file_path; EvWrite file_path content])).
Proof.
  intros Hfile Hrep Hname Hstmt Hbrace.
  rewrite fix_unused_imports_patch, (patch_file _ _ _ _ _ _ Hfile).
  rewrite file_warnings_cons.
  destruct (contains file_path d && contains (txt "unused import") d); [|done].
  cbn [file_warnings filter fold_for].
  by rewrite (comment_import_untouched _ _ name).
Qed.

(** C2. The brace pattern requires the symbol directly after the brace:
    a grouped import that lists the reported symbol second is left as it
    is, while one that lists it first is commented out. *)
Lemma fix_unused_imports_grouped_second :
  content_after
    (fix_unused_imports main_rs [unused_io]
       (on_disk main_rs (txt "use std::{fmt, io};"))) main_rs
  = Some (File (txt "use std::{fmt, io};")) /\
  content_after
    (fix_unused_imports main_rs [unused_io]
       (on_disk main_rs (txt "use std::{io, fmt};"))) main_rs
  = Some (File (txt "// use std::{io, fmt};")).
Proof. split; vm_compute; reflexivity. Qed.

(** *** C10 *)

(** C10. The import pass is not idempotent: on a file already patched to
    [// use foo::Bar;] the same diagnostic makes it write
    [// // use foo::Bar;], because [use foo::Bar;] still matches inside
    the comment. *)
Theorem fix_unused_imports_not_idempotent :
  content_after
    (fix_unused_imports main_rs [unused_foo_bar]
       (on_disk main_rs (txt "use foo::Bar;"))) main_rs
  = Some (File (txt "// use foo::Bar;")) /\
  content_after
    (fix_unused_imports main_rs [unused_foo_bar]
       (fix_unused_imports main_rs [unused_foo_bar]
          (on_disk main_rs (txt "use foo::Bar;"))).2) main_rs
  = Some (File (txt "// // use foo::Bar;")) /\
  match_at (use_re (txt "foo::Bar")) (Some 32%N) (txt "use foo::Bar;")
  = Some (13, Unopened).
Proof. split_and!; vm_compute; reflexivity. Qed.

End Claims.


(** * Further properties of the script *)

(** ** What a pass may do to the world *)

Module PassEffects.

Section Patch.

Variables (marker : str) (body : str -> str -> result str).

(** A pass neither spawns the checker nor changes what it will do. *)
Lemma patch_spawns_nothing (file_path : str) (warnings : list str) (w : world) :
  cargo (patch marker body file_path warnings w).2 = cargo w /\
  spawned (patch marker body file_path warnings w).2 = spawned w.
Proof.
  destruct (files w !! file_path) as [[content|]|] eqn:E.
  - rewrite (patch_file _ _ _ content) by done.
    by destruct (fold_for body _ content).
  - by rewrite patch_directory.
  - by rewrite patch_missing.
Qed.

(** A pass that raises has written nothing. *)
Lemma patch_raise (file_path : str) (warnings : list str) (w : world) (e : exn) :
  (patch marker body file_path warnings w).1 = Raise e ->
  files (patch marker body file_path warnings w).2 = files w /\
  (log (patch marker body file_path warnings w).2 = log w \/
   log (patch marker body file_path warnings w).2 = log w ++ [EvRead file_path]).
Proof.
  destruct (files w !! file_path) as [[content|]|] eqn:E.
  - rewrite (patch_file _ _ _ content) by done.
    destruct (fold_for body _ content); [done|]. intros _. split; [done|by right].
  - rewrite patch_directory by done. intros _. split; [done|by left].
  - by rewrite patch_missing.
Qed.

(** The events of a pass: nothing, a read, or a read and then a write,
    all of its own file. *)
Lemma patch_log (file_path : str) (warnings : list str) (w : world) :
  log (patch marker body file_path warnings w).2 = log w \/
  log (patch marker body file_path warnings w).2 = log w ++ [EvRead file_path] \/
  exists content,
    log (patch marker body file_path warnings w).2
    = log w ++ [EvRead file_path; EvWrite file_path content].
Proof.
  destruct (files w !! file_path) as [[content|]|] eqn:E.
  - rewrite (patch_file _ _ _ content) by done.
    destruct (fold_for body _ content) as [content'|]; [|by right; left].
    right. right. by exists content'.
  - rewrite patch_directory by done. by left.
  - rewrite patch_missing by done. by left.
Qed.

(** A loop whose body never raises on the selected warnings returns. *)
Lemma fold_for_returns (l : list str) (content : str) :
  (forall d content, d ∈ l -> exists content', body content d = Ret content') ->
  exists content', fold_for body l content = Ret content'.
Proof.
  revert content. induction l as [|d l IH]; intros content H; [by exists content|].
  cbn [fold_for]. destruct (H d content) as [content' ->]; [by left|].
  apply IH. intros d' c' Hd'. apply H. by right.
Qed.

(** A loop whose body keeps [content] or raises keeps it or raises. *)
Lemma fold_for_keeps (l : list str) (content : str) :
  (forall d, d ∈ l -> body content d = Ret content \/ exists e, body content d = Raise e) ->
  fold_for body l content = Ret content \/ exists e, fold_for body l content = Raise e.
Proof.
  induction l as [|d l IH]; intros H; [by left|].
  cbn [fold_for]. destruct (H d) as [->|[e ->]]; [by left| |by right; exists e].
  apply IH. intros d' Hd'. apply H. by right.
Qed.

Lemma patch_keeps (file_path content : str) (warnings : list str) (w : world) :
  files w !! file_path = Some (File content) ->
  (forall d, d ∈ file_warnings marker file_path warnings ->
     body content d = Ret content \/ exists e, body content d = Raise e) ->
  files (patch marker body file_path warnings w).2 = files w.
Proof.
  intros Hfile H. rewrite (patch_file _ _ _ content) by done.
  destruct (fold_for_keeps _ content H) as [->|[e ->]]; [|done].
  cbn [snd files]. by apply insert_id.
Qed.

End Patch.

End PassEffects.
Export PassEffects.


(** ** Where the patterns of the passes can match *)

Module PatternFacts.

(** Equations between concatenations, up to associativity. *)
Ltac reassoc := unfold str, char in *; rewrite <- ?app_assoc; reflexivity.

Lemma match_at_use_inv (name : str) prev s r :
  match_at (use_re name) prev s = Some r ->
  exists rest, s = txt "use " ++ name ++ txt ";" ++ rest.
Proof.
  rewrite use_re_literal, match_at_escape.
  destruct (startswith _ s) eqn:E; [|done]. intros _.
  apply startswith_inv in E as [rest ->]. exists rest.
  change (txt "use " ++ name ++ txt ";" ++ rest)
    with (117%N :: txt "se " ++ name ++ txt ";" ++ rest).
  cbn [app]. by rewrite <- !app_assoc.
Qed.

Lemma match_at_use_braces_inv (name : str) prev s r :
  match_at (use_braces_re name) prev s = Some r ->
  exists g rest, s = txt "use " ++ g ++ [123%N] ++ name ++ rest.
Proof.
  unfold match_at, use_braces_re. intros H.
  apply exec_escape_inv in H as (s1 & -> & H).
  cbn [app] in H. rewrite exec_GroupOpen in H.
  apply exec_NotPlus_inv in H as (g & s2 & -> & _ & _ & H).
  apply exec_Chr_inv in H as (s3 & -> & H).
  apply exec_escape_inv in H as (s4 & -> & _).
  by exists g, s4.
Qed.

Lemma match_at_whole_word_inv (unicode_alnum : char -> bool) (name : str) prev s r :
  match_at (whole_word_re unicode_alnum name) prev s = Some r ->
  exists rest, s = name ++ rest.
Proof.
  rewrite match_at_whole_word. destruct (xorb _ _); [|done].
  destruct (startswith name s) eqn:E; [|done]. intros _.
  by apply startswith_inv.
Qed.

(** A string replacement is refused, or it is some replacement function. *)
Lemma sub_template_cases (p : pattern) (repl s : str) :
  sub_template p repl s = None \/
  exists f, sub_template p repl s = Some (sub p f s).
Proof.
  unfold sub_template. destruct (contains [92%N] repl).
  - destruct (parse_template repl); [right|by left]. by eexists.
  - right. by eexists.
Qed.

Lemma sub_use_unchanged (name : str) f (s : str) :
  ~ substring (txt "use " ++ name) s -> sub (use_re name) f s = s.
Proof.
  intros H. apply sub_from_unchanged. intros prev t [pre ->].
  destruct (match_at (use_re name) prev t) as [r|] eqn:E; [|done].
  apply match_at_use_inv in E as [rest ->]. destruct H.
  exists pre, (txt ";" ++ rest). reassoc.
Qed.

Lemma sub_use_braces_unchanged (name : str) f (s : str) :
  ~ substring (txt "use ") s \/ ~ substring name s ->
  sub (use_braces_re name) f s = s.
Proof.
  intros H. apply sub_from_unchanged. intros prev t [pre ->].
  destruct (match_at (use_braces_re name) prev t) as [r|] eqn:E; [|done].
  apply match_at_use_braces_inv in E as (g & rest & ->).
  destruct H as [H|H]; destruct H.
  - exists pre, (g ++ [123%N] ++ name ++ rest). reassoc.
  - exists (pre ++ txt "use " ++ g ++ [123%N]), rest. reassoc.
Qed.

Lemma sub_whole_word_unchanged (unicode_alnum : char -> bool) (name : str) f (s : str) :
  ~ substring name s -> sub (whole_word_re unicode_alnum name) f s = s.
Proof.
  intros H. apply sub_from_unchanged. intros prev t [pre ->].
  destruct (match_at (whole_word_re unicode_alnum name) prev t) as [r|] eqn:E; [|done].
  apply match_at_whole_word_inv in E as [rest ->]. destruct H. by exists pre, rest.
Qed.

(** The loop body of the import pass keeps a text in which its patterns
    cannot match, unless the replacement is refused. *)
Lemma comment_import_keeps (content warning : str) :
  (forall name, reported_import warning = Some name ->
     ~ substring (txt "use ") content \/ ~ substring name content) ->
  comment_import content warning = Ret content \/
  exists e, comment_import content warning = Raise e.
Proof.
  intros H. destruct (reported_import warning) as [name|] eqn:E.
  - apply reported_import_inv in E as Hs. unfold comment_import. rewrite Hs. cbn [group1].
    destruct (sub_template_cases (use_re name) (txt "// use " ++ name ++ txt ";") content)
      as [->|[f ->]]; [right; by eexists|left].
    assert (Huse : ~ substring (txt "use " ++ name) content).
    { intros (pre & post & ->). destruct (H name eq_refl) as [[]|[]].
      - exists pre, (name ++ post). reassoc.
      - exists (pre ++ txt "use "), post. reassoc. }
    rewrite sub_use_unchanged by done.
    by rewrite sub_use_braces_unchanged by (by apply H).
  - left. by apply comment_import_unreported.
Qed.

Lemma prefix_variable_keeps (unicode_alnum : char -> bool) (content warning : str) :
  (forall name, reported_variable warning = Some name -> ~ substring name content) ->
  prefix_variable unicode_alnum content warning = Ret content \/
  exists e, prefix_variable unicode_alnum content warning = Raise e.
Proof.
  intros H. destruct (reported_variable warning) as [name|] eqn:E.
  - apply reported_variable_inv in E as Hs. unfold prefix_variable. rewrite Hs. cbn [group1].
    destruct (sub_template_cases (whole_word_re unicode_alnum name) (txt "_" ++ name) content)
      as [->|[f ->]]; [right; by eexists|left].
    by rewrite sub_whole_word_unchanged by (by apply H).
  - left. by apply prefix_variable_unreported.
Qed.

Lemma underscore_plain (name : str) :
  92%N ∉ name -> contains [92%N] (txt "_" ++ name) = false.
Proof.
  intros Hname. apply contains_false. intros (pre & post & E).
  assert (H : 92%N ∈ txt "_" ++ name).
  { rewrite E. apply elem_of_app. right. by left. }
  apply elem_of_app in H as [H|H]; [|done]. revert H. not_in_text.
Qed.

(** Without a backslash in the reported symbol the loop bodies return. *)
Lemma comment_import_returns (content warning : str) :
  (forall name, reported_import warning = Some name -> 92%N ∉ name) ->
  exists content', comment_import content warning = Ret content'.
Proof.
  intros H. destruct (reported_import warning) as [name|] eqn:E.
  - apply reported_import_inv in E as Hs. unfold comment_import. rewrite Hs. cbn [group1].
    rewrite sub_template_plain by (by apply replacement_plain, H). by eexists.
  - exists content. by apply comment_import_unreported.
Qed.

Lemma prefix_variable_returns (unicode_alnum : char -> bool) (content warning : str) :
  (forall name, reported_variable warning = Some name -> 92%N ∉ name) ->
  exists content', prefix_variable unicode_alnum content warning = Ret content'.
Proof.
  intros H. destruct (reported_variable warning) as [name|] eqn:E.
  - apply reported_variable_inv in E as Hs. unfold prefix_variable. rewrite Hs. cbn [group1].
    rewrite sub_template_plain by (by apply underscore_plain, H). by eexists.
  - exists content. by apply prefix_variable_unreported.
Qed.

End PatternFacts.
Export PatternFacts.


(** ** The passes and the file system *)

Module PassProperties.

(** X1. The only files a pass opens are its own: what it adds to the
    log is nothing, a read of the path it was given, or that read and
    then a write of the same path; and it does not run the checker. *)
Theorem passes_open_only_their_file (unicode_alnum : char -> bool)
    (file_path : str) (warnings : list str) (w : world) :
  (log (fix_unused_imports file_path warnings w).2 = log w \/
   log (fix_unused_imports file_path warnings w).2 = log w ++ [EvRead file_path] \/
   exists content,
     log (fix_unused_imports file_path warnings w).2
     = log w ++ [EvRead file_path; EvWrite file_path content]) /\
  (log (fix_unused_variables unicode_alnum file_path warnings w).2 = log w \/
   log (fix_unused_variables unicode_alnum file_path warnings w).2
   = log w ++ [EvRead file_path] \/
   exists content,
     log (fix_unused_variables unicode_alnum file_path warnings w).2
     = log w ++ [EvRead file_path; EvWrite file_path content]) /\
  spawned (fix_unused_imports file_path warnings w).2 = spawned w /\
  spawned (fix_unused_variables unicode_alnum file_path warnings w).2 = spawned w.
Proof.
  rewrite fix_unused_imports_patch, fix_unused_variables_patch.
  split_and!; try apply patch_log; apply patch_spawns_nothing.
Qed.

(** X2. A pass that raises has written nothing: the files are as they
    were, and the log has gained at most the read of the file. *)
Theorem passes_raise_without_writing (unicode_alnum : char -> bool)
    (file_path : str) (warnings : list str) (w : world) (e : exn) :
  ((fix_unused_imports file_path warnings w).1 = Raise e ->
     files (fix_unused_imports file_path warnings w).2 = files w /\
     (log (fix_unused_imports file_path warnings w).2 = log w \/
      log (fix_unused_imports file_path warnings w).2 = log w ++ [EvRead file_path])) /\
  ((fix_unused_variables unicode_alnum file_path warnings w).1 = Raise e ->
     files (fix_unused_variables unicode_alnum file_path warnings w).2 = files w /\
     (log (fix_unused_variables unicode_alnum file_path warnings w).2 = log w \/
      log (fix_unused_variables unicode_alnum file_path warnings w).2
      = log w ++ [EvRead file_path])).
Proof.
  rewrite fix_unused_imports_patch, fix_unused_variables_patch.
  split; apply patch_raise.
Qed.

Lemma passes_raise_without_writing_witness :
  files (fix_unused_imports main_rs [bad_import] (on_disk main_rs (txt "use a;"))).2
  = {[ main_rs := File (txt "use a;") ]} /\
  files (fix_unused_variables ascii_only main_rs [bad_variable]
           (on_disk main_rs (txt "let a = 1;"))).2
  = {[ main_rs := File (txt "let a = 1;") ]}.
Proof.
  destruct (passes_raise_without_writing ascii_only main_rs [bad_import]
              (on_disk main_rs (txt "use a;")) TemplateError) as [H1 _].
  destruct (passes_raise_without_writing ascii_only main_rs [bad_variable]
              (on_disk main_rs (txt "let a = 1;")) TemplateError) as [_ H2].
  split.
  - apply H1. vm_compute. reflexivity.
  - apply H2. vm_compute. reflexivity.
Defined.

(** X3. When none of the selected warnings reports a symbol (in
    particular when none is selected), a pass still reads the file and
    writes the same content back. *)
Theorem passes_rewrite_same_content (unicode_alnum : char -> bool)
    (file_path content : str) (warnings : list str) (w : world) :
  files w !! file_path = Some (File content) ->
  ((forall d, d ∈ file_warnings (txt "unused import") file_path warnings ->
      reported_import d = None) ->
   fix_unused_imports file_path warnings w
   = (Ret tt,
      World (files w) (cargo w) (spawned w)
        (log w ++ [EvRead file_path; EvWrite file_path content]))) /\
  ((forall d, d ∈ file_warnings (txt "unused variable") file_path warnings ->
      reported_variable d = None) ->
   fix_unused_variables unicode_alnum file_path warnings w
   = (Ret tt,
      World (files w) (cargo w) (spawned w)
        (log w ++ [EvRead file_path; EvWrite file_path content]))).
Proof.
  intros Hfile. rewrite fix_unused_imports_patch, fix_unused_variables_patch.
  split; intros H; rewrite (patch_file _ _ _ content) by done.
  - rewrite fold_for_skip.
    + by rewrite insert_id.
    + apply Forall_forall. intros d Hd c. by apply comment_import_unreported, H.
  - rewrite fold_for_skip.
    + by rewrite insert_id.
    + apply Forall_forall. intros d Hd c. by apply prefix_variable_unreported, H.
Qed.

Lemma passes_rewrite_same_content_witness :
  fix_unused_imports main_rs [unused_count; unquoted_warning]
    (on_disk main_rs (txt "use foo::Bar;"))
  = (Ret tt,
     World {[ main_rs := File (txt "use foo::Bar;") ]} (fun _ => SpawnFails) 0
       [EvRead main_rs; EvWrite main_rs (txt "use foo::Bar;")]) /\
  fix_unused_variables ascii_only main_rs [unused_foo_bar; unquoted_warning]
    (on_disk main_rs (txt "use foo::Bar;"))
  = (Ret tt,
     World {[ main_rs := File (txt "use foo::Bar;") ]} (fun _ => SpawnFails) 0
       [EvRead main_rs; EvWrite main_rs (txt "use foo::Bar;")]).
Proof.
  destruct (passes_rewrite_same_content ascii_only main_rs (txt "use foo::Bar;")
              [unused_count; unquoted_warning]
              (on_disk main_rs (txt "use foo::Bar;")) eq_refl) as [H1 _].
  destruct (passes_rewrite_same_content ascii_only main_rs (txt "use foo::Bar;")
              [unused_foo_bar; unquoted_warning]
              (on_disk main_rs (txt "use foo::Bar;")) eq_refl) as [_ H2].
  split.
  - apply H1. intros d Hd. vm_compute in Hd.
    apply list_elem_of_singleton in Hd as ->. vm_compute. reflexivity.
  - apply H2. intros d Hd. vm_compute in Hd.
    apply list_elem_of_singleton in Hd as ->. vm_compute. reflexivity.
Defined.

(** X4. A reported symbol that does not occur in the file changes
    nothing: when none of the symbols reported by the selected warnings
    occurs in the content, the files are the same after the pass as
    before, whether it returns or raises. *)
Theorem passes_keep_files_without_symbol (unicode_alnum : char -> bool)
    (file_path content : str) (warnings : list str) (w : world) :
  files w !! file_path = Some (File content) ->
  ((forall d name, d ∈ file_warnings (txt "unused import") file_path warnings ->
      reported_import d = Some name -> ~ substring name content) ->
   files (fix_unused_imports file_path warnings w).2 = files w) /\
  ((forall d name, d ∈ file_warnings (txt "unused variable") file_path warnings ->
      reported_variable d = Some name -> ~ substring name content) ->
   files (fix_unused_variables unicode_alnum file_path warnings w).2 = files w).
Proof.
  intros Hfile. rewrite fix_unused_imports_patch, fix_unused_variables_patch.
  split; intros H; apply (patch_keeps _ _ _ content); try done.
  - intros d Hd. apply comment_import_keeps. intros name Hname. right. by apply (H d).
  - intros d Hd. apply prefix_variable_keeps. intros name Hname. by apply (H d).
Qed.

Lemma passes_keep_files_without_symbol_witness :
  files (fix_unused_imports main_rs [unused_io; bad_import]
           (on_disk main_rs (txt "use foo::Bar;"))).2
  = {[ main_rs := File (txt "use foo::Bar;") ]} /\
  files (fix_unused_variables ascii_only main_rs [unused_total]
           (on_disk main_rs (txt "let count = 1;"))).2
  = {[ main_rs := File (txt "let count = 1;") ]}.
Proof.
  destruct (passes_keep_files_without_symbol ascii_only main_rs (txt "use foo::Bar;")
              [unused_io; bad_import] (on_disk main_rs (txt "use foo::Bar;")) eq_refl)
    as [H1 _].
  destruct (passes_keep_files_without_symbol ascii_only main_rs (txt "let count = 1;")
              [unused_total] (on_disk main_rs (txt "let count = 1;")) eq_refl)
    as [_ H2].
  split.
  - apply H1. intros d name Hd. vm_compute in Hd.
    apply elem_of_cons in Hd as [->|Hd];
      [|apply list_elem_of_singleton in Hd as ->];
      intros Hn; vm_compute in Hn; injection Hn as <-;
      apply contains_false; vm_compute; reflexivity.
  - apply H2. intros d name Hd. vm_compute in Hd.
    apply list_elem_of_singleton in Hd as ->.
    intros Hn. vm_compute in Hn. injection Hn as <-.
    apply contains_false. vm_compute. reflexivity.
Defined.

(** X5. The import pass acts on [use ] only: a file whose content does
    not contain [use ] has the same content afterwards, whatever the
    warnings are. *)
Theorem fix_unused_imports_needs_use
    (file_path content : str) (warnings : list str) (w : world) :
  files w !! file_path = Some (File content) ->
  ~ substring (txt "use ") content ->
  files (fix_unused_imports file_path warnings w).2 = files w.
Proof.
  intros Hfile Huse. rewrite fix_unused_imports_patch.
  apply (patch_keeps _ _ _ content); [done|].
  intros d Hd. apply comment_import_keeps. intros name Hname. by left.
Qed.

Lemma fix_unused_imports_needs_use_witness :
  files (fix_unused_imports main_rs [unused_foo_bar]
           (on_disk main_rs (txt "fn foo::Bar() { {foo::Bar} }"))).2
  = {[ main_rs := File (txt "fn foo::Bar() { {foo::Bar} }") ]}.
Proof.
  apply (fix_unused_imports_needs_use main_rs (txt "fn foo::Bar() { {foo::Bar} }")
           [unused_foo_bar] (on_disk main_rs (txt "fn foo::Bar() { {foo::Bar} }"))).
  - vm_compute. reflexivity.
  - apply contains_false. vm_compute. reflexivity.
Defined.

End PassProperties.


(** ** What the warnings are read for *)

Module ReadingFacts.

Lemma substring_trans (a b c : str) : substring a b -> substring b c -> substring a c.
Proof.
  intros (p1 & q1 & ->) (p2 & q2 & ->). exists (p2 ++ p1), (q1 ++ q2). reassoc.
Qed.

(** [re.search] returns the match at the first position that has one. *)
Lemma search_from_first (p : pattern) prev (pre t : str) n k :
  (forall a b, pre = a ++ b -> b ≠ [] -> match_at p (before prev a) (b ++ t) = None) ->
  match_at p (before prev pre) t = Some (n, k) ->
  search_from p prev (pre ++ t) = Some k.
Proof.
  revert prev. induction pre as [|x pre IH]; intros prev Hnone Hm.
  - change (before prev []) with prev in Hm.
    destruct t; cbn [app search_from]; by rewrite Hm.
  - pose proof (Hnone [] (x :: pre) eq_refl) as H0.
    change (before prev []) with prev in H0.
    rewrite <- app_comm_cons in H0 |- *. cbn [search_from]. rewrite H0 by done.
    apply IH; [|by rewrite before_cons in Hm].
    intros a b -> Hb. rewrite <- (before_cons prev). by apply (Hnone (x :: a) b).
Qed.

(** A literal that holds a character [c0] cannot start in a text
    without [c0] and end at the literal's own occurrence. *)
Lemma startswith_not_before (l0 l1 b rest : str) (c0 : char) :
  c0 ∉ b -> c0 ∉ l0 -> b ≠ [] ->
  startswith (l0 ++ [c0] ++ l1) (b ++ (l0 ++ [c0] ++ l1) ++ rest) = false.
Proof.
  intros Hb Hl0 Hne.
  destruct (startswith _ _) eqn:E; [exfalso|done].
  apply startswith_inv in E as [r E].
  assert (H1 : (b ++ (l0 ++ [c0] ++ l1) ++ rest) !! length l0 = Some c0).
  { rewrite E, <- !app_assoc. apply list_lookup_middle. done. }
  assert (Hlt : length l0 < length (b ++ l0)).
  { rewrite length_app. destruct b; [done|simpl; lia]. }
  replace (b ++ (l0 ++ [c0] ++ l1) ++ rest)
    with ((b ++ l0) ++ ([c0] ++ l1 ++ rest)) in H1
    by (by rewrite <- !app_assoc).
  rewrite lookup_app_l in H1 by done.
  apply list_elem_of_lookup_2, elem_of_app in H1 as [?|?]; done.
Qed.

(** The group of [l([^c]+)c], matched in full. *)
Lemma match_at_group (l g post : str) (c : char) prev :
  g ≠ [] -> c ∉ g ->
  exists n,
    match_at (escape l ++ [GroupOpen; NotPlus c; GroupClose; Chr c]) prev
      (l ++ g ++ [c] ++ post)
    = Some (n, Captured g).
Proof.
  intros Hg Hc. destruct g as [|x g]; [done|]. eexists. unfold match_at.
  rewrite exec_escape, startswith_app, drop_app_length, exec_GroupOpen.
  cbn [exec app]. destruct (N.eqb x c) eqn:E.
  { apply N.eqb_eq in E as ->. exfalso. apply Hc. by left. }
  apply greedy_full; [by apply not_elem_of_cons in Hc as [_ ?]|].
  cbn [exec feed app]. rewrite feed_all_capturing. cbn [close feed].
  by rewrite N.eqb_refl.
Qed.

(** The first occurrence of the literal decides what is captured. *)
Lemma search_group_first (l0 l1 pre g post : str) (c0 c : char) :
  c0 ∉ pre -> c0 ∉ l0 -> g ≠ [] -> c ∉ g ->
  search (escape (l0 ++ [c0] ++ l1) ++ [GroupOpen; NotPlus c; GroupClose; Chr c])
    (pre ++ (l0 ++ [c0] ++ l1) ++ g ++ [c] ++ post)
  = Some (Captured g).
Proof.
  intros Hpre Hl0 Hg Hc.
  destruct (match_at_group (l0 ++ [c0] ++ l1) g post c (before None pre) Hg Hc) as [n Hm].
  unfold search.
  replace (pre ++ (l0 ++ [c0] ++ l1) ++ g ++ [c] ++ post)
    with (pre ++ ((l0 ++ [c0] ++ l1) ++ g ++ [c] ++ post)) by done.
  apply (search_from_first _ _ _ _ n); [|done].
  intros a b -> Hb. unfold match_at. rewrite exec_escape.
  rewrite startswith_not_before; [done| |done|done].
  intros H. apply Hpre, elem_of_app. by right.
Qed.

Lemma reported_import_quoted (warning name : str) :
  reported_import warning = Some name ->
  name ≠ [] /\ (96%N ∉ name) /\
  substring (txt "unused import: `" ++ name ++ txt "`") warning.
Proof.
  intros H. apply reported_import_inv, search_quoted_inv in H
    as (pre & g & post & -> & Hg & Hc & [= <-]).
  split_and!; [done..|]. exists pre, post. reassoc.
Qed.

Lemma reported_variable_quoted (warning name : str) :
  reported_variable warning = Some name ->
  name ≠ [] /\ (96%N ∉ name) /\
  substring (txt "unused variable: `" ++ name ++ txt "`") warning.
Proof.
  intros H. apply reported_variable_inv, search_quoted_inv in H
    as (pre & g & post & -> & Hg & Hc & [= <-]).
  split_and!; [done..|]. exists pre, post. reassoc.
Qed.

End ReadingFacts.
Export ReadingFacts.

Module ReadingProperties.

(** X6. What a warning reports is a non-empty text without backtick
    that stands in the line, in backticks, after [unused import: ]
    (respectively [unused variable: ]). *)
Theorem reported_symbol_is_quoted (warning name : str) :
  (reported_import warning = Some name ->
     name ≠ [] /\ (96%N ∉ name) /\
     substring (txt "unused import: `" ++ name ++ txt "`") warning) /\
  (reported_variable warning = Some name ->
     name ≠ [] /\ (96%N ∉ name) /\
     substring (txt "unused variable: `" ++ name ++ txt "`") warning).
Proof.
  split; [apply reported_import_quoted|apply reported_variable_quoted].
Qed.

Lemma reported_symbol_is_quoted_witness :
  (txt "foo::Bar" ≠ [] /\ (96%N ∉ txt "foo::Bar") /\
   substring (txt "unused import: `" ++ txt "foo::Bar" ++ txt "`") unused_foo_bar) /\
  (txt "count" ≠ [] /\ (96%N ∉ txt "count") /\
   substring (txt "unused variable: `" ++ txt "count" ++ txt "`") unused_count).
Proof.
  destruct (reported_symbol_is_quoted unused_foo_bar (txt "foo::Bar")) as [H1 _].
  destruct (reported_symbol_is_quoted unused_count (txt "count")) as [_ H2].
  split; [apply H1|apply H2]; vm_compute; reflexivity.
Defined.

(** X7. A line in which no backtick stands before
    [unused import: `NAME`] (respectively [unused variable: `NAME`]),
    with [NAME] non-empty and free of backticks, reports [NAME]. *)
Theorem first_quoted_symbol_is_reported (pre name post : str) :
  96%N ∉ pre -> name ≠ [] -> 96%N ∉ name ->
  reported_import (pre ++ txt "unused import: `" ++ name ++ txt "`" ++ post) = Some name /\
  reported_variable (pre ++ txt "unused variable: `" ++ name ++ txt "`" ++ post) = Some name.
Proof.
  intros Hpre Hname Hq. unfold reported_import, reported_variable. split.
  - change unused_import_re with
      (escape (txt "unused import: " ++ [96%N] ++ [])
         ++ [GroupOpen; NotPlus 96%N; GroupClose; Chr 96%N]).
    replace (pre ++ txt "unused import: `" ++ name ++ txt "`" ++ post)
      with (pre ++ (txt "unused import: " ++ [96%N] ++ []) ++ name ++ [96%N] ++ post)
      by reassoc.
    rewrite search_group_first; [done|done| |done|done]. not_in_text.
  - change unused_variable_re with
      (escape (txt "unused variable: " ++ [96%N] ++ [])
         ++ [GroupOpen; NotPlus 96%N; GroupClose; Chr 96%N]).
    replace (pre ++ txt "unused variable: `" ++ name ++ txt "`" ++ post)
      with (pre ++ (txt "unused variable: " ++ [96%N] ++ []) ++ name ++ [96%N] ++ post)
      by reassoc.
    rewrite search_group_first; [done|done| |done|done]. not_in_text.
Qed.

Lemma first_quoted_symbol_is_reported_witness :
  reported_import
    (txt "warning: " ++ txt "unused import: `" ++ txt "std::fmt" ++ txt "`" ++ txt " and `x`")
  = Some (txt "std::fmt") /\
  reported_variable
    (txt "warning: " ++ txt "unused variable: `" ++ txt "std::fmt" ++ txt "`" ++ txt " and `x`")
  = Some (txt "std::fmt").
Proof.
  apply (first_quoted_symbol_is_reported (txt "warning: ") (txt "std::fmt") (txt " and `x`")).
  - not_in_text.
  - discriminate.
  - not_in_text.
Defined.

(** X8. Selection is by substring: a line selected for a path is also
    selected for every path contained in that path. *)
Theorem file_warnings_of_contained_path (marker p q w : str) (warnings : list str) :
  substring p q ->
  w ∈ file_warnings marker q warnings -> w ∈ file_warnings marker p warnings.
Proof.
  intros Hpq. rewrite !elem_of_file_warnings. intros (Hw & Hq & Hm).
  split_and!; [done| |done]. by apply (substring_trans p q).
Qed.

Lemma file_warnings_of_contained_path_witness :
  unused_foo_bar ∈ file_warnings (txt "unused import") (txt "main.rs") [unused_foo_bar].
Proof.
  apply (file_warnings_of_contained_path (txt "unused import") (txt "main.rs") main_rs).
  - apply contains_spec. vm_compute. reflexivity.
  - vm_compute. apply list_elem_of_here.
Defined.

End ReadingProperties.


(** ** The lines of the checker's output *)

Module LineFacts.

Lemma elem_of_lstrip (c : char) (s : str) : c ∈ lstrip s -> c ∈ s.
Proof.
  induction s as [|x s IH]; [done|]. simpl.
  destruct (isspace x); [|done]. intros H. right. by apply IH.
Qed.

Lemma elem_of_strip (c : char) (s : str) : c ∈ strip s -> c ∈ s.
Proof.
  unfold strip. rewrite list_elem_of_In, <- in_rev, <- list_elem_of_In.
  intros H%elem_of_lstrip. rewrite list_elem_of_In, <- in_rev, <- list_elem_of_In in H.
  by apply elem_of_lstrip.
Qed.

Lemma lstrip_head (s : str) (c : char) :
  head (lstrip s) = Some c -> isspace c = false.
Proof.
  induction s as [|x s IH]; [done|]. simpl.
  destruct (isspace x) eqn:E; [done|]. by intros [= <-].
Qed.

(** What [lstrip] drops is at the front. *)
Lemma lstrip_suffix (s : str) : exists a, s = a ++ lstrip s.
Proof.
  induction s as [|x s [a IH]]; [by exists []|]. simpl.
  destruct (isspace x).
  - exists (x :: a). by rewrite IH at 1.
  - by exists [].
Qed.

Lemma head_rev (s : str) : head (rev s) = last s.
Proof.
  induction s as [|x s _] using rev_ind; [done|].
  by rewrite rev_unit, last_snoc.
Qed.

Lemma last_rev (s : str) : last (rev s) = head s.
Proof. destruct s as [|x s]; [done|]. simpl. by rewrite last_snoc. Qed.

Lemma last_lstrip (s : str) (c : char) :
  last (lstrip s) = Some c -> last s = Some c.
Proof.
  destruct (lstrip_suffix s) as [a E]. intros H. rewrite E, last_app. by rewrite H.
Qed.

(** A stripped line neither starts nor ends with whitespace. *)
Lemma strip_ends (s : str) (c : char) :
  head (strip s) = Some c \/ last (strip s) = Some c -> isspace c = false.
Proof.
  unfold strip. rewrite head_rev, last_rev. intros [H|H].
  - apply last_lstrip in H. rewrite last_rev in H. by apply lstrip_head in H.
  - by apply lstrip_head in H.
Qed.

Lemma substring_rev (x s : str) : substring x s -> substring (rev x) (rev s).
Proof.
  intros (pre & post & ->). exists (rev post), (rev pre).
  by rewrite !rev_app_distr, <- app_assoc.
Qed.

(** Stripping on the left keeps a text that starts with no whitespace. *)
Lemma substring_lstrip (x0 : char) (x' s : str) :
  isspace x0 = false -> substring (x0 :: x') s -> substring (x0 :: x') (lstrip s).
Proof.
  intros Hx0. induction s as [|c s IH]; [done|]. simpl.
  destruct (isspace c) eqn:E; [|done].
  intros (pre & post & H). apply IH. destruct pre as [|p0 pre].
  - simplify_eq/=. congruence.
  - simplify_eq/=. by exists pre, post.
Qed.

(** Stripping keeps a text that neither starts nor ends with whitespace. *)
Lemma substring_strip (x s : str) (first final : char) :
  head x = Some first -> last x = Some final ->
  isspace first = false -> isspace final = false ->
  substring x s -> substring x (strip s).
Proof.
  intros Hfirst Hfinal Hf Hl H. unfold strip.
  destruct x as [|x0 x']; [done|]. injection Hfirst as ->.
  apply (substring_lstrip first x' s Hf), substring_rev in H.
  rewrite <- (rev_involutive (first :: x')).
  apply substring_rev.
  destruct (rev (first :: x')) as [|y0 y'] eqn:E.
  { apply (f_equal (@length char)) in E. rewrite length_rev in E. done. }
  apply substring_lstrip; [|done].
  assert (Hy : head (rev (first :: x')) = Some final) by (by rewrite head_rev).
  rewrite E in Hy. by injection Hy as ->.
Qed.

(** What stripping leaves was in the line. *)
Lemma strip_substring (x s : str) : substring x (strip s) -> substring x s.
Proof.
  intros H. apply (substring_trans x (strip s)); [done|]. unfold strip.
  destruct (lstrip_suffix s) as [a Ea].
  destruct (lstrip_suffix (rev (lstrip s))) as [b Eb].
  exists a, (rev b). rewrite Ea at 1. f_equal.
  rewrite <- (rev_involutive (lstrip s)), Eb at 1. by rewrite rev_app_distr.
Qed.

Lemma split_lines_nonempty (s : str) : split_lines s ≠ [].
Proof.
  destruct s as [|c s]; [done|]. simpl.
  destruct (N.eqb c 10); [done|]. by destruct (split_lines s).
Qed.

Lemma split_lines_no_newline (s l : str) : l ∈ split_lines s -> 10%N ∉ l.
Proof.
  revert l. induction s as [|c s IH]; intros l; simpl.
  - intros ->%list_elem_of_singleton. apply not_elem_of_nil.
  - destruct (N.eqb c 10) eqn:E.
    + intros [->|H]%elem_of_cons; [apply not_elem_of_nil|by apply IH].
    + apply N.eqb_neq in E. destruct (split_lines s) as [|l0 ls] eqn:Es.
      * by destruct (split_lines_nonempty s).
      * intros [->|H]%elem_of_cons.
        -- apply not_elem_of_cons. split; [done|]. apply IH. by left.
        -- apply IH. by right.
Qed.

Lemma split_lines_join (s : str) : join [10%N] (split_lines s) = s.
Proof.
  induction s as [|c s IH]; [done|]. simpl.
  destruct (N.eqb c 10) eqn:E.
  - apply N.eqb_eq in E as ->.
    destruct (split_lines s) as [|l0 ls] eqn:Es; [by destruct (split_lines_nonempty s)|].
    rewrite <- IH. done.
  - destruct (split_lines s) as [|l0 ls] eqn:Es; [by destruct (split_lines_nonempty s)|].
    rewrite <- IH. by destruct ls.
Qed.

Lemma elem_of_warning_lines (w all_output : str) :
  w ∈ warning_lines all_output <->
  exists line, w = strip line /\ line ∈ split_lines all_output /\
               substring (txt "warning:") line.
Proof.
  unfold warning_lines. rewrite list_elem_of_fmap.
  split; intros (line & -> & H); exists line; split; try done.
  - apply list_elem_of_filter in H as [H1 H2]. split; [done|]. by apply contains_spec.
  - destruct H as [H1 H2]. apply list_elem_of_filter. split; [|done]. by apply contains_spec.
Qed.

End LineFacts.
Export LineFacts.

Module LineProperties.

(** X9. Splitting loses nothing: the lines contain no newline, and
    joined by newlines they are the text that was split. *)
Theorem split_lines_round_trip (s : str) :
  join [10%N] (split_lines s) = s /\
  forall l, l ∈ split_lines s -> 10%N ∉ l.
Proof. split; [apply split_lines_join|apply split_lines_no_newline]. Qed.

(** X10. Every warning handed to the passes contains [warning:], has no
    newline, and neither starts nor ends with whitespace. *)
Theorem warning_lines_are_stripped_warnings (all_output w : str) :
  w ∈ warning_lines all_output ->
  substring (txt "warning:") w /\
  (10%N ∉ w) /\
  forall c, head w = Some c \/ last w = Some c -> isspace c = false.
Proof.
  intros (line & -> & Hline & Hw)%elem_of_warning_lines. split_and!.
  - by apply (substring_strip _ _ 119%N 58%N).
  - intros H%elem_of_strip. by apply (split_lines_no_newline all_output line).
  - apply strip_ends.
Qed.

Lemma warning_lines_are_stripped_warnings_witness :
  substring (txt "warning:") (txt "warning: unused") /\
  (10%N ∉ txt "warning: unused") /\
  forall c, head (txt "warning: unused") = Some c \/ last (txt "warning: unused") = Some c ->
            isspace c = false.
Proof.
  apply (warning_lines_are_stripped_warnings
           (txt "   Compiling x" ++ [10%N] ++ txt "  warning: unused   " ++ [10%N]
              ++ txt "  --> src/main.rs:1:5")).
  vm_compute. apply list_elem_of_here.
Defined.

End LineProperties.


(** ** The files to fix, and [main] *)

Module MainFacts.

Lemma elem_of_files_to_fix_from (ws : list str) (acc : gset str) (p : str) :
  p ∈ foldl (fun acc warning =>
               if contains (txt "-->") warning then
                 match search location_re warning with
                 | Some file_match => acc ∪ {[ group1 file_match ]}
                 | None => acc
                 end
               else acc) acc ws <->
  p ∈ acc \/
  exists w, w ∈ ws /\ contains (txt "-->") w = true /\
            group1 <$> search location_re w = Some p.
Proof.
  revert acc. induction ws as [|w ws IH]; intros acc.
  - cbn [foldl]. split; [by left|]. intros [?|(w & Hw & _)]; [done|].
    by apply elem_of_nil in Hw.
  - cbn [foldl]. rewrite IH. split.
    + intros [H|(w' & Hw' & H)].
      * destruct (contains (txt "-->") w) eqn:Hm; [|by left].
        destruct (search location_re w) as [k|] eqn:Hs; [|by left].
        apply elem_of_union in H as [H|H]; [by left|right].
        apply elem_of_singleton in H as ->. exists w.
        split_and!; [by left|done|by rewrite Hs].
      * right. exists w'. split; [by right|done].
    + intros [H|(w' & Hw' & Hm & Hs)].
      * left. destruct (contains (txt "-->") w); [|done].
        destruct (search location_re w); [|done]. apply elem_of_union. by left.
      * apply elem_of_cons in Hw' as [->|Hw'].
        -- left. rewrite Hm. destruct (search location_re w) as [k|]; [|done].
           injection Hs as <-. apply elem_of_union. right. by apply elem_of_singleton.
        -- right. by exists w'.
Qed.

(** The set holds what the lines with [-->] give to the location
    pattern. *)
Lemma elem_of_files_to_fix (ws : list str) (p : str) :
  p ∈ files_to_fix ws <->
  exists w, w ∈ ws /\ contains (txt "-->") w = true /\
            group1 <$> search location_re w = Some p.
Proof.
  unfold files_to_fix. rewrite elem_of_files_to_fix_from.
  split; [|by right]. intros [H|H]; [|done]. by apply not_elem_of_empty in H.
Qed.

Lemma files_to_fix_empty (ws : list str) :
  (forall w, w ∈ ws -> ~ substring (txt "-->") w) -> files_to_fix ws = ∅.
Proof.
  intros H. apply set_eq. intros p. rewrite elem_of_files_to_fix. split.
  - intros (w & Hw & Hm & _). apply contains_spec in Hm. by destruct (H w).
  - intros H'. by apply not_elem_of_empty in H'.
Qed.

(** *** The paths a computation opens *)

Lemma opens_within_ret {A : Type} (paths : gset str) (a : A) : opens_within paths (ret a).
Proof.
  intros w. exists []. split; [by rewrite app_nil_r|].
  intros e p He. by apply elem_of_nil in He.
Qed.

Lemma opens_within_bind {A B : Type} (paths : gset str) (m : M A) (f : A -> M B) :
  opens_within paths m -> (forall a, opens_within paths (f a)) ->
  opens_within paths (bind m f).
Proof.
  intros Hm Hf w. unfold bind. destruct (Hm w) as (evs1 & E1 & H1).
  destruct (m w) as [[a|e] w'] eqn:E; cbn [snd] in *.
  - destruct (Hf a w') as (evs2 & E2 & H2). exists (evs1 ++ evs2).
    split; [by rewrite E2, E1, <- app_assoc|].
    intros e p [He|He]%elem_of_app; [by apply (H1 e)|by apply (H2 e)].
  - by exists evs1.
Qed.

Lemma opens_within_print (paths : gset str) (m : message) :
  opens_within paths (print m).
Proof.
  intros w. exists [EvPrint m]. split; [done|].
  intros e p He Hop. apply list_elem_of_singleton in He as ->. done.
Qed.

Lemma opens_within_run_cargo_check (paths : gset str) :
  opens_within paths run_cargo_check.
Proof.
  intros w. unfold run_cargo_check, bind, subprocess_run.
  destruct (cargo w (spawned w)); cbn [ret print emit snd log].
  - exists [EvSpawn; EvPrint MsgSpawnError]. split; [by rewrite <- app_assoc|].
    intros e p He Hop.
    repeat (apply elem_of_cons in He as [->|He]; [done|]). by apply elem_of_nil in He.
  - exists [EvSpawn]. split; [done|].
    intros e p He Hop. apply list_elem_of_singleton in He as ->. done.
Qed.

Lemma opens_within_for_each {A : Type} (paths : gset str) (body : A -> M unit) (l : list A) :
  (forall a, a ∈ l -> opens_within paths (body a)) ->
  opens_within paths (for_each body l).
Proof.
  induction l as [|a l IH]; intros H; [apply opens_within_ret|].
  cbn [for_each]. apply opens_within_bind; [apply H; by left|].
  intros _. apply IH. intros a' Ha'. apply H. by right.
Qed.

(** A pass opens its own path only. *)
Lemma opens_within_patch (marker : str) (body : str -> str -> result str)
    (paths : gset str) (file_path : str) (warnings : list str) :
  file_path ∈ paths -> opens_within paths (patch marker body file_path warnings).
Proof.
  intros Hp w.
  destruct (patch_log marker body file_path warnings w) as [E|[E|[content E]]].
  - exists []. split; [by rewrite app_nil_r|].
    intros e p He. by apply elem_of_nil in He.
  - exists [EvRead file_path]. split; [done|].
    intros e p He Hop. apply list_elem_of_singleton in He as ->. by injection Hop as <-.
  - exists [EvRead file_path; EvWrite file_path content]. split; [done|].
    intros e p He Hop.
    repeat (apply elem_of_cons in He as [->|He]; [by injection Hop as <-|]).
    by apply elem_of_nil in He.
Qed.

Lemma opens_within_passes (unicode_alnum : char -> bool)
    (paths : gset str) (file_path : str) (warnings : list str) :
  file_path ∈ paths ->
  opens_within paths (fix_unused_imports file_path warnings) /\
  opens_within paths (fix_unused_variables unicode_alnum file_path warnings).
Proof.
  intros Hp. rewrite fix_unused_imports_patch, fix_unused_variables_patch.
  split; by apply opens_within_patch.
Qed.

Lemma main_main_from (unicode_alnum : char -> bool) :
  main unicode_alnum
  = (print MsgStart ;;; out <- run_cargo_check ;; main_from unicode_alnum out).
Proof. reflexivity. Qed.

(** [main] runs the checker and goes on with its output. *)
Lemma main_after_checker (unicode_alnum : char -> bool) (w : world) :
  main unicode_alnum w =
  match cargo w (spawned w) with
  | Completed stdout stderr =>
      main_from unicode_alnum (stdout, stderr)
        (World (files w) (cargo w) (S (spawned w)) (log w ++ [EvPrint MsgStart; EvSpawn]))
  | SpawnFails =>
      main_from unicode_alnum ([], [])
        (World (files w) (cargo w) (S (spawned w))
           (log w ++ [EvPrint MsgStart; EvSpawn; EvPrint MsgSpawnError]))
  end.
Proof.
  rewrite main_main_from.
  unfold bind, print, emit, run_cargo_check, bind, subprocess_run, print, emit, ret.
  cbn [files cargo spawned log].
  destruct (cargo w (spawned w)); cbn [files cargo spawned log];
    by rewrite <- !app_assoc.
Qed.

(** [main], once the checker has run, opens only files of the set. *)
Lemma main_from_opens (unicode_alnum : char -> bool) (out : str * str) :
  opens_within (files_to_fix (warning_lines (out.1 ++ out.2)))
    (main_from unicode_alnum out).
Proof.
  unfold main_from.
  apply opens_within_bind; [apply opens_within_print|intros _].
  apply opens_within_bind; [apply opens_within_print|intros _].
  apply opens_within_bind.
  - apply opens_within_for_each. intros p Hp. apply elem_of_elements in Hp.
    apply opens_within_bind; [apply opens_within_print|intros _].
    apply opens_within_bind; [by apply opens_within_passes|intros _].
    by apply opens_within_passes.
  - intros _. apply opens_within_bind; [apply opens_within_print|intros _].
    apply opens_within_bind; [apply opens_within_print|intros _].
    apply opens_within_bind; [apply opens_within_run_cargo_check|intros ?].
    apply opens_within_print.
Qed.

(** With no file to fix, [main] goes straight to the second run. *)
Lemma main_from_nothing (unicode_alnum : char -> bool) (out : str * str) (w : world) :
  files_to_fix (warning_lines (out.1 ++ out.2)) = ∅ ->
  exists tail,
    main_from unicode_alnum out w
    = (Ret tt,
       World (files w) (cargo w) (S (spawned w))
         (log w ++ [EvPrint (MsgFound (length (warning_lines (out.1 ++ out.2))));
                    EvPrint (MsgFiles 0); EvPrint MsgDone; EvPrint MsgRecheck;
                    EvSpawn] ++ tail)) /\
    Forall (fun e => is_fs_event e = false) tail.
Proof.
  intros H. unfold main_from. rewrite H, elements_empty, size_empty. cbn [for_each].
  unfold bind, print, emit, run_cargo_check, bind, subprocess_run, print, emit, ret.
  cbn [files cargo spawned log].
  destruct (cargo w (spawned w)) as [|stdout stderr]; eexists; split;
    try (cbn [files cargo spawned log fst snd]; do 2 f_equal;
         rewrite <- !app_assoc; cbn [app]; reflexivity);
    by repeat constructor.
Qed.

End MainFacts.
Export MainFacts.


Module MainProperties.

(** X11. The set of files to fix is put together line by line: the set
    of a list is the union of the sets of its parts, so neither the
    order of the warnings nor a repetition changes it. *)
Theorem files_to_fix_union (ws1 ws2 : list str) :
  files_to_fix (ws1 ++ ws2) = files_to_fix ws1 ∪ files_to_fix ws2 /\
  files_to_fix (ws2 ++ ws1) = files_to_fix (ws1 ++ ws2) /\
  files_to_fix (ws1 ++ ws1) = files_to_fix ws1.
Proof.
  assert (H : forall a b, files_to_fix (a ++ b) = files_to_fix a ∪ files_to_fix b).
  { intros a b. apply set_eq. intros p.
    rewrite elem_of_union, !elem_of_files_to_fix. split.
    - intros (w & [Hw|Hw]%elem_of_app & H); [left|right]; by exists w.
    - intros [(w & Hw & H)|(w & Hw & H)]; exists w; (split; [|done]);
        apply elem_of_app; [by left|by right]. }
  split_and!; [done| |].
  - rewrite !H. apply (comm_L (∪)).
  - rewrite H. apply (idemp_L (∪)).
Qed.

(** X12. A line that holds [--> PATH:], with no [>] before it and a
    non-empty [PATH] without colon, puts [PATH] into the set. *)
Theorem files_to_fix_has_located_path (ws : list str) (pre p post : str) :
  pre ++ txt "--> " ++ p ++ txt ":" ++ post ∈ ws ->
  62%N ∉ pre -> p ≠ [] -> 58%N ∉ p ->
  p ∈ files_to_fix ws.
Proof.
  intros Hw Hpre Hp Hc. apply elem_of_files_to_fix.
  exists (pre ++ txt "--> " ++ p ++ txt ":" ++ post). split_and!; [done| |].
  - apply contains_spec. exists pre, (txt " " ++ p ++ txt ":" ++ post). reassoc.
  - change location_re with
      (escape (txt "--" ++ [62%N] ++ txt " ")
         ++ [GroupOpen; NotPlus 58%N; GroupClose; Chr 58%N]).
    replace (pre ++ txt "--> " ++ p ++ txt ":" ++ post)
      with (pre ++ (txt "--" ++ [62%N] ++ txt " ") ++ p ++ [58%N] ++ post)
      by reassoc.
    rewrite search_group_first; [done|done| |done|done]. not_in_text.
Qed.

Lemma files_to_fix_has_located_path_witness :
  main_rs ∈ files_to_fix [other_warning; one_line_location].
Proof.
  apply (files_to_fix_has_located_path [other_warning; one_line_location]
           (txt "warning: unused import: `foo::Bar` in src/main.rs ")
           main_rs (txt "1:5")).
  - vm_compute. apply list_elem_of_further, list_elem_of_here.
  - not_in_text.
  - discriminate.
  - not_in_text.
Defined.

(** X13. When no line of the checker's output holds both [warning:] and
    [-->], as in the output of [rustc], where the location stands on a
    line of its own, [main] finds no file to fix: it returns normally and
    neither reads nor writes a file. *)
Theorem main_needs_location_on_warning_line (unicode_alnum : char -> bool)
    (stdout stderr : str) (w : world) :
  cargo w (spawned w) = Completed stdout stderr ->
  (forall line, line ∈ split_lines (stdout ++ stderr) ->
     substring (txt "warning:") line -> ~ substring (txt "-->") line) ->
  files_to_fix (warning_lines (stdout ++ stderr)) = ∅ /\
  exists tail,
    main unicode_alnum w
    = (Ret tt,
       World (files w) (cargo w) (S (S (spawned w)))
         (log w ++ [EvPrint MsgStart; EvSpawn;
                    EvPrint (MsgFound (length (warning_lines (stdout ++ stderr))));
                    EvPrint (MsgFiles 0); EvPrint MsgDone; EvPrint MsgRecheck;
                    EvSpawn] ++ tail)) /\
    Forall (fun e => is_fs_event e = false) tail.
Proof.
  intros Hrun Hlines.
  assert (Hnone : files_to_fix (warning_lines (stdout ++ stderr)) = ∅).
  { apply files_to_fix_empty. intros x (line & -> & Hline & Hw)%elem_of_warning_lines.
    intros H%strip_substring. by apply (Hlines line). }
  split; [done|]. rewrite main_after_checker, Hrun.
  destruct (main_from_nothing unicode_alnum (stdout, stderr)
              (World (files w) (cargo w) (S (spawned w))
                 (log w ++ [EvPrint MsgStart; EvSpawn])) Hnone) as (tail & -> & Htail).
  exists tail. split; [|done]. cbn [files cargo spawned log fst snd].
  do 2 f_equal. by rewrite <- !app_assoc.
Qed.

Lemma main_needs_location_on_warning_line_witness :
  files_to_fix (warning_lines (rustc_output ++ [])) = ∅ /\
  exists tail,
    main ascii_only
      (World {[ main_rs := File (txt "use foo::Bar;") ]}
         (fun _ => Completed rustc_output []) 0 [])
    = (Ret tt,
       World {[ main_rs := File (txt "use foo::Bar;") ]}
         (fun _ => Completed rustc_output []) 2
         ([] ++ [EvPrint MsgStart; EvSpawn;
                 EvPrint (MsgFound (length (warning_lines (rustc_output ++ []))));
                 EvPrint (MsgFiles 0); EvPrint MsgDone; EvPrint MsgRecheck;
                 EvSpawn] ++ tail)) /\
    Forall (fun e => is_fs_event e = false) tail.
Proof.
  assert (Hlines : forall line, line ∈ split_lines (rustc_output ++ []) ->
            substring (txt "warning:") line -> ~ substring (txt "-->") line).
  { intros line Hline Hw. apply contains_false. apply contains_spec in Hw.
    vm_compute in Hline.
    repeat (apply elem_of_cons in Hline as [->|Hline];
            [first [vm_compute; reflexivity|vm_compute in Hw; discriminate Hw]|]).
    by apply elem_of_nil in Hline. }
  exact (main_needs_location_on_warning_line ascii_only rustc_output []
           (World {[ main_rs := File (txt "use foo::Bar;") ]}
              (fun _ => Completed rustc_output []) 0 []) eq_refl Hlines).
Defined.

(** X14. The only files [main] opens are files to fix: what a run adds
    to the log holds no read and no write of a path outside the set that
    [main] derives from the first run of the checker, whether [main]
    returns or raises. *)
Theorem main_opens_only_files_to_fix (unicode_alnum : char -> bool) (w : world) :
  exists evs,
    log (main unicode_alnum w).2 = log w ++ evs /\
    forall e p, e ∈ evs -> opens e = Some p ->
      p ∈ files_to_fix (warning_lines (checker_output (cargo w (spawned w)))).
Proof.
  rewrite main_after_checker.
  destruct (cargo w (spawned w)) as [|stdout stderr]; cbn [checker_output].
  - destruct (main_from_opens unicode_alnum ([], [])
                (World (files w) (cargo w) (S (spawned w))
                   (log w ++ [EvPrint MsgStart; EvSpawn; EvPrint MsgSpawnError])))
      as (evs & E & H).
    exists ([EvPrint MsgStart; EvSpawn; EvPrint MsgSpawnError] ++ evs).
    split; [rewrite E; cbn [log]; by rewrite <- app_assoc|].
    intros e p [He|He]%elem_of_app; [|by apply (H e)].
    repeat (apply elem_of_cons in He as [->|He]; [done|]). by apply elem_of_nil in He.
  - destruct (main_from_opens unicode_alnum (stdout, stderr)
                (World (files w) (cargo w) (S (spawned w))
                   (log w ++ [EvPrint MsgStart; EvSpawn])))
      as (evs & E & H).
    exists ([EvPrint MsgStart; EvSpawn] ++ evs).
    split; [rewrite E; cbn [log]; by rewrite <- app_assoc|].
    intros e p [He|He]%elem_of_app; [|by apply (H e)].
    repeat (apply elem_of_cons in He as [->|He]; [done|]). by apply elem_of_nil in He.
Qed.

End MainProperties.


(** ** Renaming any identifier *)

Module IdentifierFacts.

Section Identifier.

Variable unicode_alnum : char -> bool.

(** An identifier: word characters only. *)
Variable name : str.
Hypothesis name_is_word : Forall (fun c => is_word unicode_alnum c = true) name.

Lemma identifier_plain : 92%N ∉ name.
Proof using name_is_word.
  intros H. rewrite Forall_forall in name_is_word.
  by specialize (name_is_word _ H).
Qed.

Lemma prefix_variable_identifier (content warning : str) :
  reported_variable warning = Some name ->
  prefix_variable unicode_alnum content warning
  = Ret (rename_whole_words unicode_alnum name content).
Proof using name_is_word.
  intros H. destruct (reported_variable_quoted warning name H) as (Hne & _).
  apply reported_variable_inv in H.
  unfold prefix_variable. rewrite H. cbn [group1].
  rewrite sub_template_plain by apply underscore_plain, identifier_plain.
  f_equal. destruct name as [|n0 name'] eqn:E; [done|].
  by apply (sub_rename unicode_alnum n0 name').
Qed.

Lemma rename_identifier_idem (content : str) :
  rename_whole_words unicode_alnum name
    (rename_whole_words unicode_alnum name content)
  = rename_whole_words unicode_alnum name content \/ name = [].
Proof using name_is_word.
  destruct name as [|n0 name'] eqn:E; [by right|left].
  by apply (rename_whole_words_idem unicode_alnum n0 name').
Qed.

(** A loop over warnings that report [name], or nothing, renames once
    if any of them reports it. *)
Lemma fold_prefix_identifier (l : list str) (content : str) :
  (forall d name', d ∈ l -> reported_variable d = Some name' -> name' = name) ->
  fold_for (prefix_variable unicode_alnum) l content
  = Ret (if bool_decide (Exists (fun d => reported_variable d = Some name) l)
         then rename_whole_words unicode_alnum name content
         else content).
Proof using name_is_word.
  revert content. induction l as [|d l IH]; intros content H.
  - cbn [fold_for]. rewrite bool_decide_eq_false_2; [done|]. by intros ?%Exists_nil.
  - cbn [fold_for]. destruct (reported_variable d) as [name'|] eqn:E.
    + assert (name' = name) as -> by (apply (H d); [by left|done]).
      rewrite prefix_variable_identifier by done.
      rewrite IH by (intros d' name' Hd'; apply H; by right).
      rewrite (bool_decide_eq_true_2 (Exists _ (d :: l))) by (by left).
      case_bool_decide; [|done]. f_equal.
      destruct (rename_identifier_idem content) as [?|Hnil]; [done|].
      by destruct (reported_variable_quoted d name E) as (? & _).
    + rewrite prefix_variable_unreported by done.
      rewrite IH by (intros d' name' Hd'; apply H; by right).
      f_equal.
      rewrite (bool_decide_ext
                 (Exists (fun d => reported_variable d = Some name) (d :: l))
                 (Exists (fun d => reported_variable d = Some name) l)); [done|].
      rewrite Exists_cons. split; [|by right]. intros [Hd|Hl]; [congruence|done].
Qed.

End Identifier.

End IdentifierFacts.
Export IdentifierFacts.

Module IdentifierProperties.

(** X15. For every identifier made of word characters (letters, digits
    and underscores, of any script): when the warnings selected for a
    file report it (at least one does, none reports another symbol), the
    variable pass writes the content renamed by identifiers, where an
    identifier that is exactly the reported one gets the underscore and
    every other identifier and character is kept. *)
Theorem fix_unused_variables_renames_identifier (unicode_alnum : char -> bool)
    (file_path content name d : str) (warnings : list str) (w : world) :
  Forall (fun c => is_word unicode_alnum c = true) name ->
  files w !! file_path = Some (File content) ->
  d ∈ file_warnings (txt "unused variable") file_path warnings ->
  reported_variable d = Some name ->
  (forall d' name', d' ∈ file_warnings (txt "unused variable") file_path warnings ->
     reported_variable d' = Some name' -> name' = name) ->
  fix_unused_variables unicode_alnum file_path warnings w
  = (Ret tt,
     World (<[file_path := File (rename_whole_words unicode_alnum name content)]> (files w))
       (cargo w) (spawned w)
       (log w ++ [EvRead file_path;
                  EvWrite file_path (rename_whole_words unicode_alnum name content)])).
Proof.
  intros Hname Hfile Hd Hrep Hall.
  rewrite fix_unused_variables_patch, (patch_file _ _ _ content) by done.
  rewrite (fold_prefix_identifier unicode_alnum name) by done.
  rewrite bool_decide_eq_true_2; [done|].
  apply Exists_exists. by exists d.
Qed.

Lemma fix_unused_variables_renames_identifier_witness :
  content_after
    (fix_unused_variables ascii_only main_rs [unused_total; other_warning]
       (on_disk main_rs (txt "let total = subtotal + 1; total_2(total)")))
    main_rs
  = Some (File (txt "let _total = subtotal + 1; total_2(_total)")).
Proof.
  rewrite (fix_unused_variables_renames_identifier ascii_only main_rs
             (txt "let total = subtotal + 1; total_2(total)") (txt "total")
             unused_total [unused_total; other_warning]).
  - vm_compute. reflexivity.
  - by repeat constructor.
  - vm_compute. reflexivity.
  - vm_compute. apply list_elem_of_here.
  - vm_compute. reflexivity.
  - intros d' name' Hd'. vm_compute in Hd'.
    apply list_elem_of_singleton in Hd' as ->. vm_compute. by intros [= <-].
Defined.

(** X16. For every identifier made of word characters, a second run of
    the variable pass with the same warnings, which report no other
    symbol, gives the same result and leaves every file as the first run
    left it. *)
Theorem fix_unused_variables_twice_identifier (unicode_alnum : char -> bool)
    (file_path name : str) (warnings : list str) (w : world) :
  Forall (fun c => is_word unicode_alnum c = true) name ->
  (forall d name', d ∈ file_warnings (txt "unused variable") file_path warnings ->
     reported_variable d = Some name' -> name' = name) ->
  (fix_unused_variables unicode_alnum file_path warnings
     (fix_unused_variables unicode_alnum file_path warnings w).2).1
  = (fix_unused_variables unicode_alnum file_path warnings w).1 /\
  files (fix_unused_variables unicode_alnum file_path warnings
           (fix_unused_variables unicode_alnum file_path warnings w).2).2
  = files (fix_unused_variables unicode_alnum file_path warnings w).2.
Proof.
  intros Hname Hall. rewrite fix_unused_variables_patch.
  destruct (files w !! file_path) as [[content|]|] eqn:E.
  - rewrite (patch_file _ _ _ content warnings w) by done.
    rewrite (fold_prefix_identifier unicode_alnum name) by done. cbn [fst snd].
    set (content' := if bool_decide _ then _ else content).
    rewrite (patch_file _ _ _ content') by apply lookup_insert_eq.
    rewrite (fold_prefix_identifier unicode_alnum name) by done. cbn [fst snd files].
    assert (Hidem : (if bool_decide (Exists (fun d => reported_variable d = Some name)
                                       (file_warnings (txt "unused variable") file_path warnings))
                     then rename_whole_words unicode_alnum name content'
                     else content') = content').
    { unfold content'. case_bool_decide as Hex; [|done].
      destruct (rename_identifier_idem unicode_alnum name Hname content) as [?|Hnil]; [done|].
      apply Exists_exists in Hex as (d & _ & Hd).
      by destruct (reported_variable_quoted d name Hd) as (? & _). }
    rewrite Hidem. split; [done|]. apply insert_insert_eq.
  - rewrite (patch_directory _ _ _ warnings w) by done. cbn [fst snd].
    by rewrite patch_directory.
  - rewrite (patch_missing _ _ _ warnings w) by done. cbn [fst snd].
    by rewrite patch_missing.
Qed.

Lemma fix_unused_variables_twice_identifier_witness :
  content_after
    (fix_unused_variables ascii_only main_rs [unused_total]
       (fix_unused_variables ascii_only main_rs [unused_total]
          (on_disk main_rs (txt "let total = 1; total"))).2) main_rs
  = Some (File (txt "let _total = 1; _total")).
Proof.
  unfold content_after.
  destruct (fix_unused_variables_twice_identifier ascii_only main_rs (txt "total")
              [unused_total] (on_disk main_rs (txt "let total = 1; total"))) as [_ ->].
  - by repeat constructor.
  - intros d name' Hd. vm_compute in Hd.
    apply list_elem_of_singleton in Hd as ->. vm_compute. by intros [= <-].
  - vm_compute. reflexivity.
Defined.

End IdentifierProperties.

(** ** What a substitution can change *)

Module MarkFacts.

Lemma put_before_app (mark : str) (targets : list str) (a s s' : str) :
  put_before mark targets s s' -> put_before mark targets (a ++ s) (a ++ s').
Proof.
  intros (a0 & x & b & Hx & -> & ->). exists (a ++ a0), x, b.
  split_and!; [done| |]; by rewrite <- app_assoc.
Qed.

Lemma marked_app (mark : str) (targets : list str) (a s s' : str) :
  marked mark targets s s' -> marked mark targets (a ++ s) (a ++ s').
Proof.
  induction 1 as [|s s1 s2 H _ IH]; [done|].
  eapply rtc_l; [|exact IH]. by apply put_before_app.
Qed.

Lemma marked_mono (mark : str) (targets targets' : list str) (s s' : str) :
  targets ⊆ targets' -> marked mark targets s s' -> marked mark targets' s s'.
Proof.
  intros Hsub. induction 1 as [|s s1 s2 H _ IH]; [done|].
  eapply rtc_l; [|exact IH].
  destruct H as (a & x & b & Hx & -> & ->). exists a, x, b. split; [by apply Hsub|done].
Qed.

Lemma marked_length (mark : str) (targets : list str) (s s' : str) :
  marked mark targets s s' -> length s <= length s'.
Proof.
  induction 1 as [|s s1 s2 H _ IH]; [done|].
  destruct H as (a & x & b & _ & -> & ->).
  rewrite !length_app in *. lia.
Qed.

Section Marking.

(** A pattern that matches only at a target, and a replacement that is
    the matched text after [mark]. *)
Variables (mark : str) (targets : list str) (p : pattern) (repl : str -> capture -> str).
Hypothesis match_marks : forall prev s n k,
  match_at p prev s = Some (n, k) ->
  n ≠ 0 /\ (exists x rest, x ∈ targets /\ s = x ++ rest) /\
  repl (take n s) k = mark ++ take n s.

Lemma sub_from_marked prev (s : str) (skip : nat) :
  marked mark targets s (take skip s ++ sub_from p repl prev s skip).
Proof using match_marks.
  revert prev skip. induction s as [|x s IH]; intros prev skip.
  - rewrite take_nil. cbn [app sub_from].
    destruct (match_at p prev []) as [[n k]|] eqn:E; [|done].
    destruct (match_marks _ _ _ _ E) as (_ & (x & rest & Hx & Hs) & Hr).
    rewrite take_nil, app_nil_r in Hr. rewrite Hr.
    symmetry in Hs. apply app_eq_nil in Hs as [-> ->].
    apply rtc_once. exists [], [], []. split; [done|]. by rewrite !app_nil_r.
  - destruct skip as [|j].
    + cbn [take app]. destruct (match_at p prev (x :: s)) as [[n k]|] eqn:E.
      * destruct (match_marks _ _ _ _ E) as (Hn & (y & rest & Hy & Hs) & Hr).
        destruct n as [|j]; [done|]. rewrite (sub_from_hit _ _ _ _ _ _ _ E), Hr.
        eapply rtc_l.
        { exists [], y, rest. split; [done|]. split; [exact Hs|reflexivity]. }
        rewrite <- Hs. cbn [app take]. rewrite <- !app_assoc.
        apply marked_app. apply (marked_app _ _ [x]). apply IH.
      * rewrite sub_from_miss by done. apply (marked_app _ _ [x]), (IH _ 0).
    + cbn [take app sub_from]. apply (marked_app _ _ [x]), IH.
Qed.

Lemma sub_marked (s : str) : marked mark targets s (sub p repl s).
Proof using match_marks. apply (sub_from_marked None s 0). Qed.

End Marking.

End MarkFacts.
Export MarkFacts.

(** ** The substitutions of the passes only put text in *)

Module InsertFacts.

(** Where the brace pattern matches: the text read, its length and the
    group. *)
Lemma match_at_use_braces_full (name : str) prev s n k :
  match_at (use_braces_re name) prev s = Some (n, k) ->
  exists g m rest,
    g ≠ [] /\ (59%N ∉ g) /\ (125%N ∉ m) /\
    s = (txt "use " ++ (g ++ [123%N] ++ name ++ m ++ [125%N]) ++ txt ";") ++ rest /\
    n = length (txt "use " ++ (g ++ [123%N] ++ name ++ m ++ [125%N]) ++ txt ";") /\
    k = Captured (g ++ [123%N] ++ name ++ m ++ [125%N]).
Proof.
  unfold match_at, use_braces_re. intros H.
  apply exec_escape_inv in H as (s1 & -> & H).
  cbn [app] in H. rewrite exec_GroupOpen in H.
  apply exec_NotPlus_inv in H as (g & s2 & -> & Hg & Hc & H).
  apply exec_Chr_inv in H as (s3 & -> & H).
  apply exec_escape_inv in H as (s4 & -> & H).
  cbn [app] in H. apply greedy_inv in H as (m & s5 & -> & Hm & H).
  destruct s5 as [|x s5]; [done|].
  destruct (N.eqb x 125) eqn:E1; [|done]. apply N.eqb_eq in E1 as ->.
  destruct s5 as [|x0 rest]; [done|].
  destruct (N.eqb x0 59) eqn:E2; [|done]. apply N.eqb_eq in E2 as ->.
  injection H as <- <-.
  exists g, m, rest. split_and!; [done..| | |].
  - reassoc.
  - unfold str, char in *. rewrite !length_app. simpl. lia.
  - rewrite feed_all_capturing. cbn [feed]. rewrite !feed_all_capturing.
    cbn [feed close]. f_equal. reassoc.
Qed.

Lemma use_marks (name : str) prev s n k :
  match_at (use_re name) prev s = Some (n, k) ->
  n ≠ 0 /\ (exists x rest, x ∈ [txt "use "] /\ s = x ++ rest) /\
  (fun _ _ => txt "// use " ++ name ++ txt ";") (take n s) k = txt "// " ++ take n s.
Proof.
  rewrite use_re_literal, match_at_escape.
  destruct (startswith _ s) eqn:E; [|done]. intros [= <- <-].
  apply startswith_inv in E as [rest ->]. split_and!.
  - done.
  - exists (txt "use "), (name ++ txt ";" ++ rest). split; [by left|].
    cbn [app]. reassoc.
  - unfold str, char in *. simpl. rewrite take_app_length. reflexivity.
Qed.

Lemma use_braces_marks (name : str) prev s n k :
  match_at (use_braces_re name) prev s = Some (n, k) ->
  n ≠ 0 /\ (exists x rest, x ∈ [txt "use "] /\ s = x ++ rest) /\
  (fun (_ : str) m => txt "// use " ++ group1 m ++ txt ";") (take n s) k
  = txt "// " ++ take n s.
Proof.
  intros H. apply match_at_use_braces_full in H
    as (g & m & rest & _ & _ & _ & -> & -> & ->). split_and!.
  - done.
  - eexists (txt "use "), _. split; [by left|]. unfold str, char in *.
    rewrite <- ?app_assoc. reflexivity.
  - cbn [group1].
    unfold str, char in *. rewrite take_app_length. reflexivity.
Qed.

Lemma whole_word_marks (unicode_alnum : char -> bool) (name : str) prev s n k :
  name ≠ [] ->
  match_at (whole_word_re unicode_alnum name) prev s = Some (n, k) ->
  n ≠ 0 /\ (exists x rest, x ∈ [name] /\ s = x ++ rest) /\
  (fun _ _ => txt "_" ++ name) (take n s) k = txt "_" ++ take n s.
Proof.
  intros Hname. rewrite match_at_whole_word. destruct (xorb _ _); [|done].
  destruct (startswith name s) eqn:E; [|done].
  destruct (xorb _ _); [|done]. intros [= <- <-].
  apply startswith_inv in E as [rest ->]. split_and!.
  - by destruct name.
  - exists name, rest. split; [by left|done].
  - unfold str, char in *. by rewrite take_app_length.
Qed.

(** The loop bodies only put their mark in. *)
Lemma comment_import_marked (content content' warning : str) :
  (forall name, reported_import warning = Some name -> 92%N ∉ name) ->
  comment_import content warning = Ret content' ->
  marked (txt "// ") [txt "use "] content content'.
Proof.
  intros Hname. destruct (reported_import warning) as [name|] eqn:E.
  - apply reported_import_inv in E as Hs. unfold comment_import. rewrite Hs. cbn [group1].
    rewrite sub_template_plain by (by apply replacement_plain, Hname).
    intros [= <-]. etrans.
    + apply (sub_marked _ _ _ (fun _ _ => txt "// use " ++ name ++ txt ";")
               (use_marks name)).
    + apply (sub_marked _ _ _ (fun _ m => txt "// use " ++ group1 m ++ txt ";")
               (use_braces_marks name)).
  - rewrite comment_import_unreported by done. by intros [= <-].
Qed.

Lemma prefix_variable_marked (unicode_alnum : char -> bool)
    (content content' warning : str) :
  (forall name, reported_variable warning = Some name -> 92%N ∉ name) ->
  prefix_variable unicode_alnum content warning = Ret content' ->
  marked (txt "_") (reported_variables [warning]) content content'.
Proof.
  intros Hname. destruct (reported_variable warning) as [name|] eqn:E.
  - assert (Ht : reported_variables [warning] = [name]).
    { unfold reported_variables. simpl. by rewrite E. }
    rewrite Ht.
    apply reported_variable_inv in E as Hs. unfold prefix_variable. rewrite Hs. cbn [group1].
    rewrite sub_template_plain by (by apply underscore_plain, Hname).
    intros [= <-]. apply (sub_marked _ _ _ (fun _ _ => txt "_" ++ name)).
    intros prev s n k. apply whole_word_marks.
    apply search_quoted_inv in Hs as (? & g & ? & _ & Hg & _ & [= <-]). done.
  - rewrite prefix_variable_unreported by done. by intros [= <-].
Qed.

Lemma elem_of_reported_variables (name : str) (l : list str) :
  name ∈ reported_variables l <-> exists d, d ∈ l /\ reported_variable d = Some name.
Proof. apply list_elem_of_omap. Qed.

Lemma fold_for_marked_imports (l : list str) (content content' : str) :
  (forall d name, d ∈ l -> reported_import d = Some name -> 92%N ∉ name) ->
  fold_for comment_import l content = Ret content' ->
  marked (txt "// ") [txt "use "] content content'.
Proof.
  revert content. induction l as [|d l IH]; intros content Hname H.
  - by injection H as <-.
  - cbn [fold_for] in H. destruct (comment_import content d) as [c1|e] eqn:E; [|done].
    etrans.
    + apply (comment_import_marked _ _ d); [|done]. intros name. apply Hname. by left.
    + apply IH; [|done]. intros d' name Hd'. apply Hname. by right.
Qed.

Lemma fold_for_marked_variables (unicode_alnum : char -> bool)
    (l : list str) (content content' : str) :
  (forall d name, d ∈ l -> reported_variable d = Some name -> 92%N ∉ name) ->
  fold_for (prefix_variable unicode_alnum) l content = Ret content' ->
  marked (txt "_") (reported_variables l) content content'.
Proof.
  revert content. induction l as [|d l IH]; intros content Hname H.
  - by injection H as <-.
  - cbn [fold_for] in H.
    destruct (prefix_variable unicode_alnum content d) as [c1|e] eqn:E; [|done].
    etrans.
    + apply (marked_mono _ (reported_variables [d])).
      * intros x Hx. apply elem_of_reported_variables in Hx as (d' & Hd' & Hx).
        apply list_elem_of_singleton in Hd' as ->.
        apply elem_of_reported_variables. exists d. split; [by left|done].
      * apply (prefix_variable_marked unicode_alnum _ _ d); [|done].
        intros name. apply Hname. by left.
    + apply (marked_mono _ (reported_variables l)).
      * intros x Hx. apply elem_of_reported_variables in Hx as (d' & Hd' & Hx).
        apply elem_of_reported_variables. exists d'. split; [by right|done].
      * apply IH; [|done]. intros d' name Hd'. apply Hname. by right.
Qed.

End InsertFacts.
Export InsertFacts.

Module InsertProperties.

(** X17. When no symbol reported for the file has a backslash, the
    import pass writes the file back with nothing changed but [// ] put
    in, each time directly before an occurrence of [use ]: no character
    of the file is removed or replaced. *)
Theorem fix_unused_imports_only_comments
    (file_path content : str) (warnings : list str) (w : world) :
  files w !! file_path = Some (File content) ->
  (forall d name, d ∈ file_warnings (txt "unused import") file_path warnings ->
     reported_import d = Some name -> 92%N ∉ name) ->
  exists content',
    fix_unused_imports file_path warnings w
    = (Ret tt,
       World (<[file_path := File content']> (files w)) (cargo w) (spawned w)
         (log w ++ [EvRead file_path; EvWrite file_path content'])) /\
    marked (txt "// ") [txt "use "] content content' /\
    length content <= length content'.
Proof.
  intros Hfile Hname.
  rewrite fix_unused_imports_patch, (patch_file _ _ _ _ _ _ Hfile).
  destruct (fold_for_returns comment_import
              (file_warnings (txt "unused import") file_path warnings) content)
    as [content' E].
  { intros d c Hd. apply comment_import_returns. intros name. by apply Hname. }
  exists content'. rewrite E. split; [done|].
  apply fold_for_marked_imports in E; [|done].
  split; [done|]. by apply marked_length in E.
Qed.

Lemma fix_unused_imports_only_comments_witness :
  exists content',
    fix_unused_imports main_rs [unused_foo_bar; unused_io]
      (on_disk main_rs (txt "use foo::Bar; use std::{io, fmt};"))
    = (Ret tt,
       World (<[main_rs := File content']> {[ main_rs := File (txt "use foo::Bar; use std::{io, fmt};") ]})
         (fun _ => SpawnFails) 0 [EvRead main_rs; EvWrite main_rs content']) /\
    marked (txt "// ") [txt "use "] (txt "use foo::Bar; use std::{io, fmt};") content' /\
    length (txt "use foo::Bar; use std::{io, fmt};") <= length content'.
Proof.
  apply (fix_unused_imports_only_comments main_rs (txt "use foo::Bar; use std::{io, fmt};")
           [unused_foo_bar; unused_io]
           (on_disk main_rs (txt "use foo::Bar; use std::{io, fmt};"))).
  - vm_compute. reflexivity.
  - intros d name Hd Hr. vm_compute in Hd.
    apply elem_of_cons in Hd as [->|Hd]; [|apply list_elem_of_singleton in Hd as ->];
      vm_compute in Hr; injection Hr as <-; not_in_text.
Defined.

(** X18. When no identifier reported for the file has a backslash, the
    variable pass writes the file back with nothing changed but [_] put
    in, each time directly before an occurrence of an identifier that a
    selected warning reports. *)
Theorem fix_unused_variables_only_prefixes (unicode_alnum : char -> bool)
    (file_path content : str) (warnings : list str) (w : world) :
  files w !! file_path = Some (File content) ->
  (forall d name, d ∈ file_warnings (txt "unused variable") file_path warnings ->
     reported_variable d = Some name -> 92%N ∉ name) ->
  exists content',
    fix_unused_variables unicode_alnum file_path warnings w
    = (Ret tt,
       World (<[file_path := File content']> (files w)) (cargo w) (spawned w)
         (log w ++ [EvRead file_path; EvWrite file_path content'])) /\
    marked (txt "_")
      (reported_variables (file_warnings (txt "unused variable") file_path warnings))
      content content' /\
    length content <= length content'.
Proof.
  intros Hfile Hname.
  rewrite fix_unused_variables_patch, (patch_file _ _ _ _ _ _ Hfile).
  destruct (fold_for_returns (prefix_variable unicode_alnum)
              (file_warnings (txt "unused variable") file_path warnings) content)
    as [content' E].
  { intros d c Hd. apply prefix_variable_returns. intros name. by apply Hname. }
  exists content'. rewrite E. split; [done|].
  apply fold_for_marked_variables in E; [|done].
  split; [done|]. by apply marked_length in E.
Qed.

Lemma fix_unused_variables_only_prefixes_witness :
  exists content',
    fix_unused_variables ascii_only main_rs [unused_count; unused_total]
      (on_disk main_rs (txt "let count = 1; let total = count;"))
    = (Ret tt,
       World (<[main_rs := File content']> {[ main_rs := File (txt "let count = 1; let total = count;") ]})
         (fun _ => SpawnFails) 0 [EvRead main_rs; EvWrite main_rs content']) /\
    marked (txt "_")
      (reported_variables (file_warnings (txt "unused variable") main_rs [unused_count; unused_total]))
      (txt "let count = 1; let total = count;") content' /\
    length (txt "let count = 1; let total = count;") <= length content'.
Proof.
  apply (fix_unused_variables_only_prefixes ascii_only main_rs
           (txt "let count = 1; let total = count;") [unused_count; unused_total]
           (on_disk main_rs (txt "let count = 1; let total = count;"))).
  - vm_compute. reflexivity.
  - intros d name Hd Hr. vm_compute in Hd.
    apply elem_of_cons in Hd as [->|Hd]; [|apply list_elem_of_singleton in Hd as ->];
      vm_compute in Hr; injection Hr as <-; not_in_text.
Defined.

End InsertProperties.

(** ** Commenting out the statement of any symbol *)

Module StatementFacts.

(** A text whose last character does not occur before cannot overlap a
    later copy of itself. *)
Lemma startswith_self_later_last (body : str) (c : char) (a rest : str) :
  c ∉ body -> a ≠ [] ->
  startswith (body ++ [c]) (a ++ (body ++ [c]) ++ rest) = true ->
  substring (body ++ [c]) a.
Proof.
  intros Hc Ha H. apply startswith_inv in H as [r E].
  apply app_eq_inv in E as [(k & E1 & E2)|(k & E1 & E2)].
  - exists [], k. by rewrite E1.
  - destruct k as [|k0 k _] using rev_ind.
    + exists [], []. rewrite app_nil_r in E1. by rewrite <- E1, app_nil_r.
    + exfalso. rewrite app_assoc in E1. apply app_inj_tail in E1 as [-> <-].
      destruct a as [|a0 a]; [done|].
      assert (Hl : ((a0 :: a) ++ k) !! length k = Some c).
      { apply (f_equal (fun l => l !! length k)) in E2.
        rewrite <- !app_assoc in E2.
        change (k ++ [c] ++ r) with (k ++ c :: r) in E2.
        rewrite (list_lookup_middle k r c (length k) eq_refl) in E2.
        rewrite (app_assoc (a0 :: a)), lookup_app_l in E2; [done|].
        rewrite length_app. simpl. lia. }
      apply Hc. by apply list_elem_of_lookup_2 in Hl.
Qed.

Section Statement.

(** A statement that cannot overlap a later copy of itself, and the
    constant text that replaces it. *)
Variables (stmt new : str).
Hypothesis stmt_nonempty : stmt ≠ [].
Hypothesis no_overlap : forall a rest,
  a ≠ [] -> startswith stmt (a ++ stmt ++ rest) = true -> substring stmt a.

Let constant : str -> capture -> str := fun _ _ => new.

Lemma sub_from_here prev (s : str) :
  sub_from (escape stmt) constant prev (stmt ++ s) 0 =
  new ++ sub_from (escape stmt) constant (before prev stmt) s 0.
Proof using stmt_nonempty.
  clear no_overlap. destruct stmt as [|c stmt']; [done|]. apply sub_from_stmt.
Qed.

Lemma sub_from_before prev (a s : str) :
  ~ substring stmt a ->
  sub_from (escape stmt) constant prev (a ++ stmt ++ s) 0 =
  a ++ new ++ sub_from (escape stmt) constant (before prev (a ++ stmt)) s 0.
Proof using stmt_nonempty no_overlap.
  revert prev. induction a as [|x a IH]; intros prev Ha.
  - apply sub_from_here.
  - rewrite <- !app_comm_cons, sub_from_miss.
    + rewrite IH by (intros H; by apply Ha, substring_cons).
      by rewrite before_cons.
    + rewrite match_at_escape.
      destruct (startswith stmt (x :: a ++ stmt ++ s)) eqn:E; [|done].
      destruct Ha. by apply (no_overlap (x :: a) s).
Qed.

Lemma sub_from_without prev (a : str) :
  ~ substring stmt a -> sub_from (escape stmt) constant prev a 0 = a.
Proof using Type.
  intros Ha. apply sub_from_unchanged. intros prev' t [pre ->].
  rewrite match_at_escape. destruct (startswith stmt t) eqn:E; [|done].
  apply startswith_inv in E as [r ->]. destruct Ha. by exists pre, r.
Qed.

(** Every occurrence of the statement is replaced, and the text between
    the occurrences is kept. *)
Lemma sub_join (pieces : list str) :
  Forall (fun a => ~ substring stmt a) pieces ->
  sub (escape stmt) constant (join stmt pieces) = join new pieces.
Proof using stmt_nonempty no_overlap.
  unfold sub. generalize (@None char) as prev.
  intros prev H. revert prev. induction H as [|a rest Ha Hrest IH]; intros prev.
  - cbn [join sub_from]. rewrite match_at_escape. by destruct stmt.
  - destruct rest as [|b rest].
    + by apply sub_from_without.
    + change (join stmt (a :: b :: rest)) with (a ++ stmt ++ join stmt (b :: rest)).
      change (join new (a :: b :: rest)) with (a ++ new ++ join new (b :: rest)).
      by rewrite sub_from_before, IH.
Qed.

End Statement.

(** A warning that reports [name], on a text without [{name]. *)
Lemma comment_import_symbol (name : str) (pieces : list str) (warning : str) :
  reported_import warning = Some name ->
  (59%N ∉ name) -> (92%N ∉ name) -> (123%N ∉ name) -> (47%N ∉ name) ->
  Forall (fun a => ~ substring (txt "use " ++ name ++ txt ";") a) pieces ->
  ~ substring (123%N :: name) (join (txt "use " ++ name ++ txt ";") pieces) ->
  comment_import (join (txt "use " ++ name ++ txt ";") pieces) warning
  = Ret (join (txt "// use " ++ name ++ txt ";") pieces).
Proof.
  intros Hrep H59 H92 H123 H47 Hpieces Hbrace. apply reported_import_inv in Hrep.
  unfold comment_import. rewrite Hrep. cbn [group1].
  rewrite sub_template_plain by (by apply replacement_plain). f_equal.
  assert (Hstmt : txt "use " ++ name ++ txt ";" = (txt "use " ++ name) ++ [59%N])
    by reassoc.
  assert (Hre : use_re name = escape (txt "use " ++ name ++ txt ";")).
  { unfold use_re. by rewrite <- !escape_app. }
  rewrite Hre, sub_join; [|done| |done].
  - apply sub_braces_unchanged.
    apply (join_new_without (txt "// use " ++ name ++ txt ";") 123%N name).
    + rewrite !elem_of_app. intros [H|[H|H]]; [|done|]; revert H; not_in_text.
    + done.
    + intros r0 [= <-]. done.
    + apply Forall_forall. intros a Ha Hx. apply Hbrace.
      by apply (substring_join_piece _ _ a).
  - intros a rest Ha. rewrite Hstmt. apply startswith_self_later_last; [|done].
    rewrite elem_of_app. intros [H|H]; [|done]. revert H. not_in_text.
Qed.

End StatementFacts.
Export StatementFacts.

Module StatementProperties.

(** X19. Let exactly one of the warnings selected for the file report a
    symbol, [name], without [;], backslash, brace or slash, and let the
    content, which is any pieces free of the statement joined by
    [use name;], nowhere contain [{name].  Then the import pass writes
    the file back with every [use name;] replaced by [// use name;] and
    every piece unchanged. *)
Theorem fix_unused_imports_comments_symbol
    (file_path d name : str) (pieces : list str) (ws1 ws2 : list str) (w : world) :
  (59%N ∉ name) -> (92%N ∉ name) -> (123%N ∉ name) -> (47%N ∉ name) ->
  files w !! file_path = Some (File (join (txt "use " ++ name ++ txt ";") pieces)) ->
  Forall (fun a => ~ substring (txt "use " ++ name ++ txt ";") a) pieces ->
  ~ substring (123%N :: name) (join (txt "use " ++ name ++ txt ";") pieces) ->
  substring file_path d ->
  reported_import d = Some name ->
  (forall d', d' ∈ file_warnings (txt "unused import") file_path (ws1 ++ ws2) ->
     reported_import d' = None) ->
  fix_unused_imports file_path (ws1 ++ d :: ws2) w
  = (Ret tt,
     World (<[file_path := File (join (txt "// use " ++ name ++ txt ";") pieces)]> (files w))
       (cargo w) (spawned w)
       (log w ++ [EvRead file_path;
                  EvWrite file_path (join (txt "// use " ++ name ++ txt ";") pieces)])).
Proof.
  intros H59 H92 H123 H47 Hfile Hpieces Hbrace Hpath Hrep Hothers.
  rewrite fix_unused_imports_patch, (patch_file _ _ _ _ _ _ Hfile).
  assert (Hsel : contains file_path d && contains (txt "unused import") d = true).
  { apply andb_true_iff. split; apply contains_spec; [done|].
    apply reported_import_inv, search_quoted_inv in Hrep
      as (pre & g & post & -> & _).
    exists pre, (txt ": `" ++ g ++ [96%N] ++ post).
    change (txt "unused import: `") with (txt "unused import" ++ txt ": `").
    by rewrite <- app_assoc. }
  rewrite file_warnings_app, file_warnings_cons, Hsel, fold_for_app.
  rewrite file_warnings_app in Hothers.
  rewrite fold_for_skip.
  - cbn [fold_for]. rewrite comment_import_symbol by done.
    rewrite fold_for_skip; [done|].
    apply Forall_forall. intros d' Hd' content.
    apply comment_import_unreported, Hothers, elem_of_app. by right.
  - apply Forall_forall. intros d' Hd' content.
    apply comment_import_unreported, Hothers, elem_of_app. by left.
Qed.

Lemma fix_unused_imports_comments_symbol_witness :
  content_after
    (fix_unused_imports main_rs ([other_warning] ++ unused_num :: [unused_count])
       (on_disk main_rs (txt "use std::num; fn main() { use std::num; }")))
    main_rs
  = Some (File (txt "// use std::num; fn main() { // use std::num; }")).
Proof.
  rewrite (fix_unused_imports_comments_symbol main_rs unused_num (txt "std::num")
             [[]; txt " fn main() { "; txt " }"]
             [other_warning] [unused_count]).
  - vm_compute. reflexivity.
  - not_in_text.
  - not_in_text.
  - not_in_text.
  - not_in_text.
  - vm_compute. reflexivity.
  - repeat constructor; apply contains_false; vm_compute; reflexivity.
  - apply contains_false. vm_compute. reflexivity.
  - apply contains_spec. vm_compute. reflexivity.
  - vm_compute. reflexivity.
  - intros d' Hd'. vm_compute in Hd'. by apply elem_of_nil in Hd'.
Defined.

End StatementProperties.

(** ** Commenting out a grouped import *)

Module GroupFacts.

(** A greedy repetition succeeds when the rest of the pattern matches
    after some part of what it can read. *)
Lemma greedy_some (c : char) (rest : cont) prev (m1 s1 : str) n k r0 :
  c ∉ m1 ->
  rest (before prev m1) s1 (n + length m1) (feed_all k m1) = Some r0 ->
  is_Some (greedy c rest prev (m1 ++ s1) n k).
Proof.
  revert prev n k. induction m1 as [|x m1 IH]; intros prev n k Hc H.
  - rewrite Nat.add_0_r in H. change (before prev []) with prev in H.
    change (feed_all k []) with k in H. cbn [app].
    destruct s1 as [|x s1]; simpl.
    + by rewrite H.
    + destruct (N.eqb x c); [by rewrite H|].
      destruct (greedy c rest (Some x) s1 (S n) (feed k x)); [done|by rewrite H].
  - apply not_elem_of_cons in Hc as [Hx Hc]. simpl.
    destruct (N.eqb x c) eqn:E; [by apply N.eqb_eq in E|].
    destruct (IH (Some x) (S n) (feed k x) Hc) as [r Hr].
    + rewrite before_cons in H.
      by replace (S n + length m1) with (n + length (x :: m1)) by (simpl; lia).
    + by rewrite Hr.
Qed.

(** The brace pattern matches a grouped import that lists the symbol
    first. *)
Lemma match_at_grouped_some (name g m b : str) prev :
  g ≠ [] -> (59%N ∉ g) -> (125%N ∉ m) ->
  is_Some (match_at (use_braces_re name) prev
             (txt "use " ++ (g ++ [123%N] ++ name ++ m ++ [125%N]) ++ txt ";" ++ b)).
Proof.
  intros Hg H59 H125.
  replace (txt "use " ++ (g ++ [123%N] ++ name ++ m ++ [125%N]) ++ txt ";" ++ b)
    with (txt "use " ++ g ++ [123%N] ++ name ++ m ++ [125%N] ++ 59%N :: b) by reassoc.
  unfold match_at, use_braces_re.
  rewrite exec_escape, startswith_app, drop_app_length. cbn [app].
  rewrite exec_GroupOpen. destruct g as [|x g]; [done|].
  apply not_elem_of_cons in H59 as [Hx H59].
  cbn [app exec]. destruct (N.eqb x 59) eqn:E; [by apply N.eqb_eq in E|].
  assert (Hrest : forall prev' n' k', exists r0,
    exec (Chr 123%N :: escape name ++ [NotStar 125%N; Chr 125%N; GroupClose; Chr 59%N])
      prev' ([123%N] ++ name ++ m ++ [125%N] ++ 59%N :: b) n' k' = Some r0).
  { intros prev' n' k'. cbn [app exec]. rewrite N.eqb_refl.
    rewrite exec_escape, startswith_app, drop_app_length.
    cbn [exec]. erewrite greedy_full; [by eexists|done|].
    cbn [exec]. rewrite N.eqb_refl. cbn [exec]. rewrite N.eqb_refl. reflexivity. }
  destruct (Hrest (before (Some x) g) (S (0 + length (txt "use ")) + length g)
              (feed_all (feed (Capturing []) x) g)) as [r0 Hr0].
  eapply greedy_some; [done|]. exact Hr0.
Qed.

(** Two texts that end at the first [c]. *)
Lemma split_at_first (c : char) (x y x' y' : str) :
  c ∉ x -> x ++ [c] ++ y = x' ++ [c] ++ y' ->
  x' = x \/ exists z, x' = x ++ [c] ++ z.
Proof.
  intros Hc E. apply app_eq_inv in E as [(k & -> & E)|(k & -> & E)].
  - destruct k as [|k0 k]; [left; by rewrite app_nil_r|].
    injection E as <- _. exfalso. apply Hc, elem_of_app. right. by left.
  - destruct k as [|k0 k]; [left; by rewrite app_nil_r|].
    injection E as -> _. right. by exists k.
Qed.

(** The text the brace pattern reads is the statement up to its
    semicolon, however the pattern divides it. *)
Lemma group_text_unique (name g m g' m' b rest : str) :
  (59%N ∉ g) -> (59%N ∉ name) -> (59%N ∉ m) -> (125%N ∉ name) ->
  (59%N ∉ g') -> (125%N ∉ m') ->
  (g ++ [123%N] ++ name ++ m ++ [125%N]) ++ [59%N] ++ b
  = (g' ++ [123%N] ++ name ++ m' ++ [125%N]) ++ [59%N] ++ rest ->
  g' ++ [123%N] ++ name ++ m' ++ [125%N] = g ++ [123%N] ++ name ++ m ++ [125%N].
Proof.
  intros Hg Hname Hm Hbrace Hg' Hm' E.
  assert (HR : 59%N ∉ g ++ [123%N] ++ name ++ m ++ [125%N]).
  { rewrite !elem_of_app, !list_elem_of_singleton. intros [?|[?|[?|[?|?]]]]; done. }
  assert (HP : 59%N ∉ g' ++ [123%N] ++ name).
  { rewrite !elem_of_app, !list_elem_of_singleton. intros [?|[?|?]]; done. }
  assert (Hlast : forall h, last (h ++ [123%N] ++ name) ≠ Some 125%N).
  { intros h H. rewrite app_assoc in H. apply last_app_Some in H as [H|[_ H]].
    - by apply last_Some_elem_of in H.
    - by rewrite last_snoc in H. }
  assert (HlastR : last (g ++ [123%N] ++ name ++ m ++ [125%N]) = Some 125%N).
  { by rewrite !app_assoc, last_snoc. }
  apply split_at_first in E; [|exact HR]. destruct E as [E|[z E]]; [done|]. exfalso.
  set (R := g ++ [123%N] ++ name ++ m ++ [125%N]) in *.
  assert (E' : (g' ++ [123%N] ++ name) ++ (m' ++ [125%N]) = R ++ ([59%N] ++ z)).
  { unfold str, char in *. rewrite <- E, <- ?app_assoc. reflexivity. }
  clear E. apply app_eq_inv in E' as [(k & E1 & E2)|(k & E1 & E2)].
  - (* the statement ends inside [g'{name] *)
    destruct k as [|k0 k].
    + rewrite app_nil_r in E1. apply (Hlast g'). etrans; [|exact HlastR]. by f_equal.
    + apply HP. rewrite E1. simpl in E2. injection E2 as <- _.
      apply elem_of_app. right. by left.
  - (* the statement ends inside [m'] *)
    destruct (decide (k = [])) as [->|Hne].
    + rewrite app_nil_r in E1. apply (Hlast g'). etrans; [|exact HlastR]. by f_equal.
    + assert (Hk : last k = Some 125%N).
      { rewrite E1 in HlastR. apply last_app_Some in HlastR as [H|[H _]]; [done|].
        by apply last_None in H. }
      apply last_Some in Hk as [k' Hk]. rewrite Hk in E2.
      destruct z as [|z0 z _] using rev_ind.
      * rewrite app_nil_r in E2. apply app_inj_tail in E2 as [_ [=]].
      * rewrite !app_assoc in E2. apply app_inj_tail in E2 as [-> _].
        apply Hm'. rewrite !elem_of_app, !list_elem_of_singleton. auto.
Qed.

(** What the brace pattern reads there. *)
Lemma match_at_grouped (name g m b : str) prev :
  g ≠ [] -> (59%N ∉ g) -> (59%N ∉ name) -> (59%N ∉ m) ->
  (125%N ∉ name) -> (125%N ∉ m) ->
  match_at (use_braces_re name) prev
    (txt "use " ++ (g ++ [123%N] ++ name ++ m ++ [125%N]) ++ txt ";" ++ b)
  = Some (length (txt "use " ++ (g ++ [123%N] ++ name ++ m ++ [125%N]) ++ txt ";"),
          Captured (g ++ [123%N] ++ name ++ m ++ [125%N])).
Proof.
  intros Hg H1 H2 H3 H4 H5.
  destruct (match_at_grouped_some name g m b prev Hg H1 H5) as [[n k] E].
  rewrite E. apply match_at_use_braces_full in E
    as (g' & m' & rest & _ & Hg' & Hm' & Es & -> & ->).
  assert (Eq : g' ++ [123%N] ++ name ++ m' ++ [125%N]
               = g ++ [123%N] ++ name ++ m ++ [125%N]).
  { apply (group_text_unique name g m g' m' b rest); try done.
    rewrite <- !(app_assoc (txt "use ")) in Es.
    apply app_inv_head in Es. etrans; [exact Es|].
    unfold str, char. rewrite <- app_assoc. reflexivity. }
  by rewrite Eq.
Qed.

(** The scan passes a text in which the pattern finds nothing. *)
Lemma sub_from_pass (p : pattern) repl prev (a s : str) :
  (forall prev' pre x t, a = pre ++ x :: t -> match_at p prev' (x :: t ++ s) = None) ->
  sub_from p repl prev (a ++ s) 0 = a ++ sub_from p repl (before prev a) s 0.
Proof.
  revert prev. induction a as [|x a IH]; intros prev H; [done|].
  rewrite <- app_comm_cons, sub_from_miss by (by apply (H prev [] x a)).
  rewrite before_cons. cbn [app]. f_equal. apply IH.
  intros prev' pre y t ->. by apply (H prev' (x :: pre) y t).
Qed.

Lemma use_not_later (a rest : str) :
  ~ substring (txt "use ") a -> a ≠ [] ->
  startswith (txt "use ") (a ++ txt "use " ++ rest) = false.
Proof.
  intros Ha Hne. destruct (startswith _ _) eqn:E; [|done].
  apply (startswith_self_later 117%N (txt "se ") a rest) in E as [E|E]; [done..|].
  not_in_text.
Qed.

(** The second substitution comments out the whole statement. *)
Lemma sub_braces_group (name a g m b : str) :
  g ≠ [] -> (59%N ∉ g) -> (59%N ∉ name) -> (59%N ∉ m) ->
  (125%N ∉ name) -> (125%N ∉ m) ->
  ~ substring (txt "use ") a -> ~ substring (txt "use ") b ->
  sub (use_braces_re name) (fun _ k => txt "// use " ++ group1 k ++ txt ";")
      (a ++ txt "use " ++ (g ++ [123%N] ++ name ++ m ++ [125%N]) ++ txt ";" ++ b)
  = a ++ txt "// use " ++ (g ++ [123%N] ++ name ++ m ++ [125%N]) ++ txt ";" ++ b.
Proof.
  intros Hg H1 H2 H3 H4 H5 Ha Hb. unfold sub.
  set (R := g ++ [123%N] ++ name ++ m ++ [125%N]).
  assert (Hnone : forall prev' t, ~ startswith (txt "use ") t = true ->
            match_at (use_braces_re name) prev' t = None).
  { intros prev' t Ht. destruct (match_at _ prev' t) as [r|] eqn:E; [|done].
    destruct Ht. apply match_at_use_braces_inv in E as (g0 & rest & ->).
    apply startswith_app. }
  rewrite sub_from_pass.
  - f_equal.
    pose proof (match_at_grouped name g m b (before None a) Hg H1 H2 H3 H4 H5) as Hm.
    fold R in Hm.
    change (txt "use " ++ R ++ txt ";" ++ b)
      with (117%N :: txt "se " ++ R ++ txt ";" ++ b) in *.
    change (length (txt "use " ++ R ++ txt ";"))
      with (S (length (txt "se " ++ R ++ txt ";"))) in Hm.
    rewrite (sub_from_hit _ _ _ _ _ _ _ Hm). cbn [group1].
    replace (txt "se " ++ R ++ txt ";" ++ b) with ((txt "se " ++ R ++ txt ";") ++ b)
      by reassoc.
    rewrite sub_from_skip.
    + rewrite sub_from_unchanged; [reassoc|].
      intros prev' t [pre ->]. apply Hnone. intros Ht.
      apply startswith_inv in Ht as [r ->]. destruct Hb. by exists pre, r.
    + right. by apply Hnone.
  - intros prev' pre x t ->. apply Hnone.
    rewrite app_comm_cons, use_not_later; [done| |done].
    intros H. apply Ha. by apply substring_app_r.
Qed.

(** The loop body on a grouped import that lists the reported symbol
    first. *)
Lemma comment_import_group (name a g m b warning : str) :
  reported_import warning = Some name ->
  g ≠ [] -> (59%N ∉ g) -> (59%N ∉ name) -> (59%N ∉ m) ->
  (125%N ∉ name) -> (125%N ∉ m) -> (92%N ∉ name) ->
  ~ substring (txt "use ") a -> ~ substring (txt "use ") b ->
  ~ substring (txt "use " ++ name ++ txt ";")
      (a ++ txt "use " ++ (g ++ [123%N] ++ name ++ m ++ [125%N]) ++ txt ";" ++ b) ->
  comment_import
    (a ++ txt "use " ++ (g ++ [123%N] ++ name ++ m ++ [125%N]) ++ txt ";" ++ b) warning
  = Ret (a ++ txt "// use " ++ (g ++ [123%N] ++ name ++ m ++ [125%N]) ++ txt ";" ++ b).
Proof.
  intros Hrep Hg H1 H2 H3 H4 H5 H92 Ha Hb Hplain. apply reported_import_inv in Hrep.
  unfold comment_import. rewrite Hrep. cbn [group1].
  rewrite sub_template_plain by (by apply replacement_plain).
  rewrite use_re_literal. unfold sub at 2.
  rewrite sub_from_without_stmt by done.
  by rewrite sub_braces_group.
Qed.

End GroupFacts.
Export GroupFacts.

Module GroupProperties.

(** X20. A grouped import [use g{name m};] that lists the reported symbol
    directly after the brace is commented out as a whole, with the other
    symbols of the group: let [g], [name] and [m] hold no semicolon,
    [name] and [m] no closing brace, [name] no backslash, let the file
    hold [use ] nowhere else and no plain [use name;], and let no other
    warning selected for the file report a symbol.  Then the import pass
    writes the file back with [// ] before the statement and nothing
    else changed. *)
Theorem fix_unused_imports_comments_group
    (file_path d name a g m b : str) (ws1 ws2 : list str) (w : world) :
  g ≠ [] -> (59%N ∉ g) -> (59%N ∉ name) -> (59%N ∉ m) ->
  (125%N ∉ name) -> (125%N ∉ m) -> (92%N ∉ name) ->
  ~ substring (txt "use ") a -> ~ substring (txt "use ") b ->
  ~ substring (txt "use " ++ name ++ txt ";")
      (a ++ txt "use " ++ (g ++ [123%N] ++ name ++ m ++ [125%N]) ++ txt ";" ++ b) ->
  files w !! file_path
  = Some (File (a ++ txt "use " ++ (g ++ [123%N] ++ name ++ m ++ [125%N]) ++ txt ";" ++ b)) ->
  substring file_path d ->
  reported_import d = Some name ->
  (forall d', d' ∈ file_warnings (txt "unused import") file_path (ws1 ++ ws2) ->
     reported_import d' = None) ->
  fix_unused_imports file_path (ws1 ++ d :: ws2) w
  = (Ret tt,
     World (<[file_path :=
                File (a ++ txt "// use " ++ (g ++ [123%N] ++ name ++ m ++ [125%N])
                        ++ txt ";" ++ b)]> (files w))
       (cargo w) (spawned w)
       (log w ++ [EvRead file_path;
                  EvWrite file_path
                    (a ++ txt "// use " ++ (g ++ [123%N] ++ name ++ m ++ [125%N])
                       ++ txt ";" ++ b)])).
Proof.
  intros Hg H1 H2 H3 H4 H5 H92 Ha Hb Hplain Hfile Hpath Hrep Hothers.
  rewrite fix_unused_imports_patch, (patch_file _ _ _ _ _ _ Hfile).
  assert (Hsel : contains file_path d && contains (txt "unused import") d = true).
  { apply andb_true_iff. split; apply contains_spec; [done|].
    apply reported_import_inv, search_quoted_inv in Hrep
      as (pre & g0 & post & -> & _).
    exists pre, (txt ": `" ++ g0 ++ [96%N] ++ post).
    change (txt "unused import: `") with (txt "unused import" ++ txt ": `").
    by rewrite <- app_assoc. }
  rewrite file_warnings_app, file_warnings_cons, Hsel, fold_for_app.
  rewrite file_warnings_app in Hothers.
  rewrite fold_for_skip.
  - cbn [fold_for]. rewrite comment_import_group by done.
    rewrite fold_for_skip; [done|].
    apply Forall_forall. intros d' Hd' content.
    apply comment_import_unreported, Hothers, elem_of_app. by right.
  - apply Forall_forall. intros d' Hd' content.
    apply comment_import_unreported, Hothers, elem_of_app. by left.
Qed.

Lemma fix_unused_imports_comments_group_witness :
  content_after
    (fix_unused_imports main_rs ([other_warning] ++ unused_io :: [unused_count])
       (on_disk main_rs (txt "mod m; use std::{io, fmt}; fn main() {}")))
    main_rs
  = Some (File (txt "mod m; // use std::{io, fmt}; fn main() {}")).
Proof.
  rewrite (fix_unused_imports_comments_group main_rs unused_io (txt "io")
             (txt "mod m; ") (txt "std::") (txt ", fmt") (txt " fn main() {}")
             [other_warning] [unused_count]).
  - vm_compute. reflexivity.
  - done.
  - not_in_text.
  - not_in_text.
  - not_in_text.
  - not_in_text.
  - not_in_text.
  - not_in_text.
  - apply contains_false. vm_compute. reflexivity.
  - apply contains_false. vm_compute. reflexivity.
  - apply contains_false. vm_compute. reflexivity.
  - vm_compute. reflexivity.
  - apply contains_spec. vm_compute. reflexivity.
  - vm_compute. reflexivity.
  - intros d' Hd'. vm_compute in Hd'. by apply elem_of_nil in Hd'.
Defined.

End GroupProperties.

(** ** How often [main] writes a file and runs the checker *)

Module CountFacts.

Lemma writes_of_app (q : str) (l1 l2 : list event) :
  writes_of q (l1 ++ l2) = writes_of q l1 + writes_of q l2.
Proof.
  induction l1 as [|e l1 IH]; [done|].
  destruct e; cbn [app writes_of]; rewrite IH; lia.
Qed.

Lemma writes_at_most_ret {A} (q : str) (a : A) : writes_at_most q 0 (ret a).
Proof. intros w. cbn. lia. Qed.

Lemma writes_at_most_bind {A B} (q : str) (n1 n2 : nat) (m : M A) (f : A -> M B) :
  writes_at_most q n1 m -> (forall a, writes_at_most q n2 (f a)) ->
  writes_at_most q (n1 + n2) (bind m f).
Proof.
  intros Hm Hf w. unfold bind. specialize (Hm w).
  destruct (m w) as [[a|e] w'] eqn:E; cbn [snd] in *.
  - specialize (Hf a w'). lia.
  - lia.
Qed.

Lemma writes_at_most_print (q : str) (m : message) : writes_at_most q 0 (print m).
Proof. intros w. cbn [print emit snd log]. rewrite writes_of_app. cbn. lia. Qed.

Lemma writes_at_most_run_cargo_check (q : str) : writes_at_most q 0 run_cargo_check.
Proof.
  intros w. unfold run_cargo_check, bind, subprocess_run.
  destruct (cargo w (spawned w)); cbn [print emit ret snd log];
    rewrite ?writes_of_app; cbn; lia.
Qed.

Lemma writes_at_most_patch (marker : str) (body : str -> str -> result str)
    (q file_path : str) (warnings : list str) :
  writes_at_most q (if bool_decide (file_path = q) then 1 else 0)
    (patch marker body file_path warnings).
Proof.
  intros w.
  destruct (patch_log marker body file_path warnings w) as [->|[->|[content ->]]];
    rewrite ?writes_of_app; cbn [writes_of]; lia.
Qed.

Lemma writes_at_most_for_each_other {A} (q : str) (body : A -> M unit) (l : list A) :
  (forall a, a ∈ l -> writes_at_most q 0 (body a)) ->
  writes_at_most q 0 (for_each body l).
Proof.
  induction l as [|a l IH]; intros H; [apply writes_at_most_ret|].
  cbn [for_each]. apply (writes_at_most_bind q 0 0); [apply H; by left|].
  intros _. apply IH. intros a' Ha'. apply H. by right.
Qed.

(** A loop over distinct paths writes [q] only when it comes to [q]. *)
Lemma writes_at_most_for_each (q : str) (n : nat) (body : str -> M unit) (l : list str) :
  NoDup l ->
  (forall a, a ≠ q -> writes_at_most q 0 (body a)) ->
  writes_at_most q n (body q) ->
  writes_at_most q n (for_each body l).
Proof.
  intros Hl Hother Hq. induction Hl as [|a l Ha Hl IH].
  - intros w. cbn. lia.
  - cbn [for_each]. destruct (decide (a = q)) as [->|Hne].
    + replace n with (n + 0) by lia. apply writes_at_most_bind; [done|].
      intros _. apply writes_at_most_for_each_other.
      intros a' Ha'. apply Hother. by intros ->.
    + apply (writes_at_most_bind q 0 n); [by apply Hother|]. by intros _.
Qed.

Lemma spawns_nothing_bind {A B} (m : M A) (f : A -> M B) :
  spawns_nothing m -> (forall a, spawns_nothing (f a)) -> spawns_nothing (bind m f).
Proof.
  intros Hm Hf w. unfold bind. specialize (Hm w).
  destruct (m w) as [[a|e] w'] eqn:E; cbn [snd] in *; [|done].
  by rewrite Hf.
Qed.

Lemma spawns_nothing_print (m : message) : spawns_nothing (print m).
Proof. by intros w. Qed.

Lemma spawns_nothing_for_each {A} (body : A -> M unit) (l : list A) :
  (forall a, spawns_nothing (body a)) -> spawns_nothing (for_each body l).
Proof.
  intros H. induction l as [|a l IH]; [by intros w|].
  cbn [for_each]. apply spawns_nothing_bind; [apply H|by intros _].
Qed.

(** One round of the loop of [main]. *)
Lemma round_writes (unicode_alnum : char -> bool) (q file_path : str) (warnings : list str) :
  writes_at_most q (if bool_decide (file_path = q) then 2 else 0)
    (print (MsgFixing file_path) ;;;
     fix_unused_imports file_path warnings ;;;
     fix_unused_variables unicode_alnum file_path warnings).
Proof.
  rewrite fix_unused_imports_patch, fix_unused_variables_patch.
  pose proof (writes_at_most_patch (txt "unused import") comment_import
                q file_path warnings) as H1.
  pose proof (writes_at_most_patch (txt "unused variable") (prefix_variable unicode_alnum)
                q file_path warnings) as H2.
  destruct (bool_decide (file_path = q)).
  - apply (writes_at_most_bind q 0 2); [apply writes_at_most_print|intros _].
    apply (writes_at_most_bind q 1 1); [done|by intros _].
  - apply (writes_at_most_bind q 0 0); [apply writes_at_most_print|intros _].
    apply (writes_at_most_bind q 0 0); [done|by intros _].
Qed.

Lemma round_spawns_nothing (unicode_alnum : char -> bool)
    (file_path : str) (warnings : list str) :
  spawns_nothing
    (print (MsgFixing file_path) ;;;
     fix_unused_imports file_path warnings ;;;
     fix_unused_variables unicode_alnum file_path warnings).
Proof.
  rewrite fix_unused_imports_patch, fix_unused_variables_patch.
  apply spawns_nothing_bind; [apply spawns_nothing_print|intros _].
  apply spawns_nothing_bind; [|intros _]; intros w; apply patch_spawns_nothing.
Qed.

Lemma main_from_writes (unicode_alnum : char -> bool) (out : str * str) (q : str) :
  writes_at_most q 2 (main_from unicode_alnum out).
Proof.
  unfold main_from.
  apply (writes_at_most_bind q 0 2); [apply writes_at_most_print|intros _].
  apply (writes_at_most_bind q 0 2); [apply writes_at_most_print|intros _].
  apply (writes_at_most_bind q 2 0).
  - apply writes_at_most_for_each.
    + apply NoDup_elements.
    + intros a Ha. pose proof (round_writes unicode_alnum q a (warning_lines (out.1 ++ out.2))) as H.
      by rewrite bool_decide_eq_false_2 in H.
    + pose proof (round_writes unicode_alnum q q (warning_lines (out.1 ++ out.2))) as H.
      by rewrite bool_decide_eq_true_2 in H.
  - intros _.
    apply (writes_at_most_bind q 0 0); [apply writes_at_most_print|intros _].
    apply (writes_at_most_bind q 0 0); [apply writes_at_most_print|intros _].
    apply (writes_at_most_bind q 0 0); [apply writes_at_most_run_cargo_check|intros ?].
    apply writes_at_most_print.
Qed.

(** What follows the loop of [main] returns, having run the checker
    once. *)
Lemma second_check_spawns (w : world) :
  exists w',
    (print MsgDone ;;;
     print MsgRecheck ;;;
     out <- run_cargo_check ;;
     print (MsgRemaining
              (length (filter (fun line => contains (txt "warning:") line = true)
                              (split_lines (out.1 ++ out.2)))))) w
    = (Ret tt, w') /\
    spawned w' = S (spawned w).
Proof.
  unfold bind, print, emit, run_cargo_check, bind, subprocess_run, print, emit, ret.
  cbn [files cargo spawned log].
  destruct (cargo w (spawned w)); by eexists.
Qed.

(** [main_from] runs the checker once more, unless a pass raises. *)
Lemma main_from_spawns (unicode_alnum : char -> bool) (out : str * str) (w : world) :
  spawned (main_from unicode_alnum out w).2
  = spawned w + match (main_from unicode_alnum out w).1 with
                | Ret _ => 1
                | Raise _ => 0
                end.
Proof.
  set (warnings := warning_lines (out.1 ++ out.2)).
  set (loop := for_each (fun file_path =>
                           print (MsgFixing file_path) ;;;
                           fix_unused_imports file_path warnings ;;;
                           fix_unused_variables unicode_alnum file_path warnings)
                        (elements (files_to_fix warnings))).
  set (w2 := World (files w) (cargo w) (spawned w)
               ((log w ++ [EvPrint (MsgFound (length warnings))])
                  ++ [EvPrint (MsgFiles (size (files_to_fix warnings)))])).
  change (main_from unicode_alnum out w)
    with ((loop ;;;
           print MsgDone ;;;
           print MsgRecheck ;;;
           out <- run_cargo_check ;;
           print (MsgRemaining
                    (length (filter (fun line => contains (txt "warning:") line = true)
                                    (split_lines (out.1 ++ out.2)))))) w2).
  assert (Hloop : spawned (loop w2).2 = spawned w).
  { unfold loop. rewrite spawns_nothing_for_each; [done|].
    intros a. apply round_spawns_nothing. }
  unfold bind at 1 5. destruct (loop w2) as [[[]|e] w3]; cbn [snd fst] in *.
  - destruct (second_check_spawns w3) as (w4 & -> & Hw4). cbn [fst snd]. lia.
  - lia.
Qed.

End CountFacts.
Export CountFacts.

Module CountProperties.

(** X21. In one run [main] writes no file more than twice, once by each
    pass, and it runs the checker twice, or once when a pass raises. *)
Theorem main_writes_and_spawns (unicode_alnum : char -> bool) (q : str) (w : world) :
  writes_of q (log (main unicode_alnum w).2) <= writes_of q (log w) + 2 /\
  spawned (main unicode_alnum w).2
  = spawned w + match (main unicode_alnum w).1 with
                | Ret _ => 2
                | Raise _ => 1
                end.
Proof.
  rewrite main_after_checker.
  destruct (cargo w (spawned w)) as [|stdout stderr].
  - pose proof (main_from_writes unicode_alnum ([], []) q
      (World (files w) (cargo w) (S (spawned w))
         (log w ++ [EvPrint MsgStart; EvSpawn; EvPrint MsgSpawnError]))) as Hw.
    pose proof (main_from_spawns unicode_alnum ([], [])
      (World (files w) (cargo w) (S (spawned w))
         (log w ++ [EvPrint MsgStart; EvSpawn; EvPrint MsgSpawnError]))) as Hs.
    cbn [log spawned] in Hw, Hs. rewrite writes_of_app in Hw. cbn [writes_of] in Hw.
    split; [lia|]. rewrite Hs. destruct (main_from _ _ _).1; lia.
  - pose proof (main_from_writes unicode_alnum (stdout, stderr) q
      (World (files w) (cargo w) (S (spawned w))
         (log w ++ [EvPrint MsgStart; EvSpawn]))) as Hw.
    pose proof (main_from_spawns unicode_alnum (stdout, stderr)
      (World (files w) (cargo w) (S (spawned w))
         (log w ++ [EvPrint MsgStart; EvSpawn]))) as Hs.
    cbn [log spawned] in Hw, Hs. rewrite writes_of_app in Hw. cbn [writes_of] in Hw.
    split; [lia|]. rewrite Hs. destruct (main_from _ _ _).1; lia.
Qed.

End CountProperties.
